(** * BrainBrowser: intensity-to-color mapping and slice compositing

    A shallow embedding of the color-map code ([createColorMap], [mapColors],
    [colorFromValue], [getColorMapIndex], the colors that [createCanvas]
    computes for a legend) and of the overlay volume ([slice]'s corrected
    slice number, [getSliceImage], [blendImages]) together with the
    properties that the specification states about them and further
    properties read off the code.

    Numbers.  A JavaScript number is embedded as a rational, one of the two
    infinities, or NaN; the two zeros are not told apart.  The operations of
    [JsNum] keep a finite result exact and in lowest terms, so equal numbers
    are equal terms.  Rounding is part of the model where results depend on
    it: [to_double] is the IEEE double nearest to a rational (what a decimal
    literal denotes and what a correctly rounded operation returns),
    [to_float32] is the conversion that a store into a [Float32Array]
    performs, and the module [Double] has the four operations rounded to
    doubles, with overflow to the infinities, and [getColorMapIndex] over
    them.  The properties of index resolution that depend on rounding (the
    out-of-range rules, the flip symmetry, the bounds of the result and the
    ends of the window) are stated over [Double].  The other properties are
    stated over the exact operations: they evaluate inputs on which the
    operations are exact in doubles, or they do not depend on how a finite
    result is rounded (order, infinities and NaN, placement, sharing).

    Arrays.  A plain array keeps its holes; a typed array converts what is
    stored in it to its element type.  White space in the color-map text is
    ASCII white space. *)

From Stdlib Require Import ZArith QArith Qround Qreduction Qabs Qpower Lia Lqa.
From Stdlib Require Import List String Ascii Bool.
From Stdlib Require Import Permutation Sorted.
Import ListNotations.

Local Open Scope Z_scope.

(** ** Numbers *)

Module JsNum.

Inductive jsnum : Type :=
| Fin (q : Q)
| PInf
| NInf
| NaN.

(** Finite result of an arithmetic operation, in lowest terms. *)
Definition fin (q : Q) : jsnum := Fin (Qred q).

Definition of_Z (z : Z) : jsnum := Fin (inject_Z z).

Definition Qltb (a b : Q) : bool :=
  match Qcompare a b with Lt => true | _ => false end.

Definition Qleb (a b : Q) : bool :=
  match Qcompare a b with Gt => false | _ => true end.

Definition Qeqb (a b : Q) : bool :=
  match Qcompare a b with Eq => true | _ => false end.

(** *** Rounding to a binary floating-point format *)

(** [floor (log2 a)] for a positive [a]. *)
Definition ilog2 (a : Q) : Z :=
  let k := Z.log2 (Qnum a) - Z.log2 (Z.pos (Qden a)) in
  if Qleb (2 ^ k) a then k else k - 1.

(** The nearest integer, a tie going to the even one. *)
Definition round_half_even (q : Q) : Z :=
  let f := Qfloor q in
  match Qcompare (q - inject_Z f) (1 # 2) with
  | Lt => f
  | Gt => f + 1
  | Eq => if Z.even f then f else f + 1
  end.

(** The number of a binary format nearest to [q], a tie going to the even
    significand: [prec] is the number of bits of the significand, [2 ^ emin]
    the least positive number of the format and [2 ^ emax] the least power
    of two beyond it, at which a rounded result overflows to an infinity. *)
Definition round_binary (prec emin emax : Z) (q : Q) : jsnum :=
  if Qeqb q 0 then Fin 0
  else
    let a := Qabs q in
    let e := Z.max (ilog2 a - (prec - 1)) emin in
    let m := round_half_even (a / 2 ^ e) in
    let r := (inject_Z m * 2 ^ e)%Q in
    if Qleb (2 ^ emax) r then (if Qltb q 0 then NInf else PInf)
    else Fin (Qred (if Qltb q 0 then - r else r)).

(** The IEEE double nearest to [q]: what a decimal literal denotes and what
    a correctly rounded operation returns. *)
Definition to_double (q : Q) : jsnum := round_binary 53 (-1074) 1024 q.

(** [Math.fround]: the conversion to single precision that a store into a
    [Float32Array] performs. *)
Definition to_float32 (a : jsnum) : jsnum :=
  match a with
  | Fin q => round_binary 24 (-149) 128 q
  | _ => a
  end.

Definition neg (a : jsnum) : jsnum :=
  match a with
  | Fin q => fin (- q)
  | PInf => NInf
  | NInf => PInf
  | NaN => NaN
  end.

Definition add (a b : jsnum) : jsnum :=
  match a, b with
  | NaN, _ | _, NaN => NaN
  | Fin x, Fin y => fin (x + y)
  | PInf, NInf | NInf, PInf => NaN
  | PInf, _ | _, PInf => PInf
  | NInf, _ | _, NInf => NInf
  end.

Definition sub (a b : jsnum) : jsnum := add a (neg b).

(** Infinity times a finite number: the sign decides, zero gives NaN. *)
Definition inf_times (positive : bool) (q : Q) : jsnum :=
  match Qcompare q 0 with
  | Eq => NaN
  | Gt => if positive then PInf else NInf
  | Lt => if positive then NInf else PInf
  end.

Definition mul (a b : jsnum) : jsnum :=
  match a, b with
  | NaN, _ | _, NaN => NaN
  | Fin x, Fin y => fin (x * y)
  | PInf, Fin y => inf_times true y
  | NInf, Fin y => inf_times false y
  | Fin x, PInf => inf_times true x
  | Fin x, NInf => inf_times false x
  | PInf, PInf | NInf, NInf => PInf
  | PInf, NInf | NInf, PInf => NInf
  end.

Definition div (a b : jsnum) : jsnum :=
  match a, b with
  | NaN, _ | _, NaN => NaN
  | Fin x, Fin y =>
      if Qeqb y 0 then inf_times true x else fin (x / y)
  | Fin _, (PInf | NInf) => Fin 0
  | (PInf | NInf), (PInf | NInf) => NaN
  | PInf, Fin y => if Qltb y 0 then NInf else PInf
  | NInf, Fin y => if Qltb y 0 then PInf else NInf
  end.

(** [a < b]; false as soon as one side is NaN. *)
Definition lt (a b : jsnum) : bool :=
  match a, b with
  | NaN, _ | _, NaN => false
  | Fin x, Fin y => Qltb x y
  | _, NInf => false
  | NInf, _ => true
  | PInf, _ => false
  | _, PInf => true
  end.

Definition gt (a b : jsnum) : bool := lt b a.

(** [a <= b]; false as soon as one side is NaN. *)
Definition le (a b : jsnum) : bool :=
  match a, b with
  | NaN, _ | _, NaN => false
  | Fin x, Fin y => Qleb x y
  | NInf, _ => true
  | _, PInf => true
  | _, NInf => false
  | PInf, _ => false
  end.

Definition ge (a b : jsnum) : bool := le b a.

(** Strict equality [a === b] of two numbers. *)
Definition seq (a b : jsnum) : bool :=
  match a, b with
  | Fin x, Fin y => Qeqb x y
  | PInf, PInf | NInf, NInf => true
  | _, _ => false
  end.

(** [Math.min] and [Math.max] of two arguments. *)
Definition min (a b : jsnum) : jsnum :=
  match a, b with
  | NaN, _ | _, NaN => NaN
  | _, _ => if lt b a then b else a
  end.

Definition max (a b : jsnum) : jsnum :=
  match a, b with
  | NaN, _ | _, NaN => NaN
  | _, _ => if lt a b then b else a
  end.

(** [Math.floor]. *)
Definition floor (a : jsnum) : jsnum :=
  match a with
  | Fin q => of_Z (Qfloor q)
  | _ => a
  end.

(** Truthiness of a number: zero and NaN are falsy. *)
Definition truthy (a : jsnum) : bool :=
  match a with
  | Fin q => negb (Qeqb q 0)
  | NaN => false
  | _ => true
  end.

(** [a || b] on numbers, [a] possibly [undefined]. *)
Definition or_default (a : option jsnum) (b : jsnum) : jsnum :=
  match a with
  | Some x => if truthy x then x else b
  | None => b
  end.

(** [a === undefined ? b : a]. *)
Definition undef_default (a : option jsnum) (b : jsnum) : jsnum :=
  match a with
  | Some x => x
  | None => b
  end.

End JsNum.

Import JsNum.

Declare Scope js_scope.
Delimit Scope js_scope with js.
Bind Scope js_scope with jsnum.
Infix "+" := add : js_scope.
Infix "-" := sub : js_scope.
Infix "*" := mul : js_scope.
Infix "/" := div : js_scope.
Infix "<?" := lt : js_scope.
Infix "<=?" := le : js_scope.
Infix ">?" := gt : js_scope.
Infix "===" := seq (at level 70, no associativity) : js_scope.

(** ** Arrays and the store *)

Module JsArray.

(** A plain JavaScript array of numbers: its elements by index ([None] is a
    hole) and the properties written under a numeric key that is not an
    array index (a negative, fractional, infinite or NaN key). *)
Record jsarray : Type := mkArray {
  elems : list (option jsnum);
  named : list (jsnum * jsnum)
}.

Inductive elemkind : Type :=
| Float32 | Float64
| Int8 | Uint8 | Uint8Clamped
| Int16 | Uint16
| Int32 | Uint32.

(** The arrays the code works on: plain arrays and typed arrays. *)
Inductive obj : Type :=
| PlainArray (a : jsarray)
| TypedArray (k : elemkind) (data : list jsnum).

Definition array_of (l : list jsnum) : obj :=
  PlainArray (mkArray (List.map Some l) []).

(** A key that is an array index: an integer in [0, 2^32 - 2]. *)
Definition as_index (k : jsnum) : option nat :=
  match k with
  | Fin q =>
      let r := Qred q in
      if (Pos.eqb (Qden r) 1 && (0 <=? Qnum r) && (Qnum r <? 2 ^ 32 - 1))%bool
      then Some (Z.to_nat (Qnum r)) else None
  | _ => None
  end.

(** Truncation toward zero. *)
Definition Qtrunc (q : Q) : Z :=
  if Qltb q 0 then Qceiling q else Qfloor q.

(** Conversion to an integer of [bits] bits, wrapping around. *)
Definition to_int (bits : Z) (signed : bool) (v : jsnum) : Z :=
  match v with
  | Fin q =>
      let m := Qtrunc q mod 2 ^ bits in
      if signed && (2 ^ (bits - 1) <=? m) then m - 2 ^ bits else m
  | _ => 0
  end.

(** Conversion to a clamped byte: round to nearest, ties to even. *)
Definition to_uint8_clamp (v : jsnum) : Z :=
  match v with
  | NaN | NInf => 0
  | PInf => 255
  | Fin q =>
      if Qleb q 0 then 0
      else if Qleb 255 q then 255
      else
        let f := Qfloor q in
        match Qcompare (q - inject_Z f) (1 # 2) with
        | Lt => f
        | Gt => f + 1
        | Eq => if Z.even f then f else f + 1
        end
  end.

(** What a typed array of kind [k] holds after [v] is stored in it. *)
Definition store_conv (k : elemkind) (v : jsnum) : jsnum :=
  match k with
  | Float32 => to_float32 v
  | Float64 => v
  | Int8 => of_Z (to_int 8 true v)
  | Uint8 => of_Z (to_int 8 false v)
  | Uint8Clamped => of_Z (to_uint8_clamp v)
  | Int16 => of_Z (to_int 16 true v)
  | Uint16 => of_Z (to_int 16 false v)
  | Int32 => of_Z (to_int 32 true v)
  | Uint32 => of_Z (to_int 32 false v)
  end.

Fixpoint lookup_named (k : jsnum) (l : list (jsnum * jsnum)) : option jsnum :=
  match l with
  | [] => None
  | (k', v) :: l' =>
      match k, k' with
      | NaN, NaN => Some v
      | _, _ => if (k === k')%js then Some v else lookup_named k l'
      end
  end.

(** Replace position [n] of a list, which must exist. *)
Fixpoint list_set {A} (l : list A) (n : nat) (v : A) : list A :=
  match l, n with
  | [], _ => []
  | _ :: l', O => v :: l'
  | x :: l', S n' => x :: list_set l' n' v
  end.

(** [o[k]] in an arithmetic context: a hole, a missing property and an index
    out of range read [undefined], which every use below turns into NaN. *)
Definition get (o : obj) (k : jsnum) : jsnum :=
  match o with
  | PlainArray a =>
      match as_index k with
      | Some n =>
          match nth_error (elems a) n with
          | Some (Some v) => v
          | _ => NaN
          end
      | None =>
          match lookup_named k (named a) with
          | Some v => v
          | None => NaN
          end
      end
  | TypedArray _ data =>
      match as_index k with
      | Some n => nth n data NaN
      | None => NaN
      end
  end.

(** [o[k] = v].  A plain array grows (with holes) when the index is past its
    end; a typed array ignores a write outside its bounds. *)
Definition set (o : obj) (k v : jsnum) : obj :=
  match o with
  | PlainArray a =>
      match as_index k with
      | Some n =>
          if (n <? List.length (elems a))%nat
          then PlainArray (mkArray (list_set (elems a) n (Some v)) (named a))
          else PlainArray
                 (mkArray (elems a ++ repeat None (n - List.length (elems a))
                             ++ [Some v])
                          (named a))
      | None => PlainArray (mkArray (elems a) ((k, v) :: named a))
      end
  | TypedArray kd data =>
      match as_index k with
      | Some n => TypedArray kd (list_set data n (store_conv kd v))
      | None => o
      end
  end.

(** [o.length]. *)
Definition length (o : obj) : nat :=
  match o with
  | PlainArray a => List.length (elems a)
  | TypedArray _ data => List.length data
  end.

(** The elements as they are read by index, from 0 to [length - 1]. *)
Definition values (o : obj) : list jsnum :=
  match o with
  | PlainArray a =>
      List.map (fun e => match e with Some v => v | None => NaN end) (elems a)
  | TypedArray _ data => data
  end.

(** The callback of [map] applied to the elements from position [i] on. *)
Fixpoint map_from (f : jsnum -> nat -> jsnum) (l : list jsnum) (i : nat)
  : list jsnum :=
  match l with
  | [] => []
  | v :: l' => f v i :: map_from f l' (S i)
  end.

(** The same on a plain array: the callback is not called on a hole. *)
Fixpoint map_cells_from (f : jsnum -> nat -> jsnum) (l : list (option jsnum))
    (i : nat) : list (option jsnum) :=
  match l with
  | [] => []
  | e :: l' =>
      match e with Some v => Some (f v i) | None => None end
        :: map_cells_from f l' (S i)
  end.

(** [o.map(f)]: a new array of the same kind.  A plain array keeps its holes
    and loses its named properties; a typed array converts each result to
    its element type. *)
Definition map (f : jsnum -> nat -> jsnum) (o : obj) : obj :=
  match o with
  | PlainArray a => PlainArray (mkArray (map_cells_from f (elems a) O) [])
  | TypedArray k data =>
      TypedArray k (List.map (store_conv k) (map_from f data O))
  end.

(** [new Float32Array(n)] and its relatives: [n] zeros. *)
Definition new_typed (k : elemkind) (n : nat) : obj :=
  TypedArray k (repeat (of_Z 0) n).

(** The store: objects by location. *)
Definition loc := nat.
Definition heap := list obj.

Definition empty_array : obj := PlainArray (mkArray [] []).

(** Locations come from [alloc] and are never freed, so a lookup succeeds;
    the default is never read. *)
Definition lookup (h : heap) (l : loc) : obj := nth l h empty_array.

Definition update (h : heap) (l : loc) (o : obj) : heap := list_set h l o.

Definition alloc (h : heap) (o : obj) : loc * heap :=
  (List.length h, h ++ [o]).

Definition write (h : heap) (l : loc) (k v : jsnum) : heap :=
  update h l (set (lookup h l) k v).

End JsArray.

(** ** The color map *)

Module ColorMap.

Import JsArray.

(** *** Index resolution *)

(** [getColorMapIndex]: map a single value to an offset into the flat color
    array, or to [-1] when the value is outside the window and clamping is
    off. *)
Definition getColorMapIndex
    (value min max increment : jsnum) (clamp flip : bool)
    (color_map_length : jsnum) : jsnum :=
  if ((value <? min) || (value >? max))%js && negb clamp then
    of_Z (-1)
  else
    let color_map_index :=
      floor (JsNum.max (of_Z 0)
               (JsNum.min ((value - min) * increment)
                          (color_map_length - of_Z 1)))%js in
    let color_map_index :=
      if flip then (color_map_length - of_Z 1 - color_map_index)%js
      else color_map_index in
    (color_map_index * of_Z 4)%js.

(** *** Parsing the color-map text *)

(** The white space of [trim] and of the pattern [\s], in ASCII: tab, line
    feed, vertical tab, form feed, carriage return and space. *)
Definition is_space (c : ascii) : bool :=
  let n := nat_of_ascii c in
  ((9 <=? n) && (n <=? 13) || (n =? 32))%nat.

Fixpoint drop_spaces (l : list ascii) : list ascii :=
  match l with
  | c :: l' => if is_space c then drop_spaces l' else l
  | [] => []
  end.

(** [s.trim()]. *)
Definition trim (l : list ascii) : list ascii :=
  rev (drop_spaces (rev (drop_spaces l))).

(** [s.split(/\n/)]. *)
Fixpoint split_lines (cur : list ascii) (l : list ascii) : list (list ascii) :=
  match l with
  | [] => [rev cur]
  | c :: l' =>
      if (nat_of_ascii c =? 10)%nat then rev cur :: split_lines [] l'
      else split_lines (c :: cur) l'
  end.

(** [s.split(/\s+/)]: the pieces between maximal runs of white space. *)
Fixpoint split_spaces (cur : list ascii) (in_run : bool) (l : list ascii)
  : list (list ascii) :=
  match l with
  | [] => [rev cur]
  | c :: l' =>
      if is_space c then
        if in_run then split_spaces cur true l'
        else rev cur :: split_spaces [] true l'
      else split_spaces (c :: cur) false l'
  end.

Definition digit_of (c : ascii) : option Z :=
  let n := nat_of_ascii c in
  if ((48 <=? n) && (n <=? 57))%nat then Some (Z.of_nat n - 48) else None.

(** The longest prefix of decimal digits: its value, the number of digits
    and the rest. *)
Fixpoint take_digits (l : list ascii) (acc : Z) (count : nat)
  : Z * nat * list ascii :=
  match l with
  | c :: l' =>
      match digit_of c with
      | Some d => take_digits l' (10 * acc + d) (S count)
      | None => (acc, count, l)
      end
  | [] => (acc, count, l)
  end.

Definition take_sign (l : list ascii) : Z * list ascii :=
  match l with
  | "-"%char :: l' => (-1, l')
  | "+"%char :: l' => (1, l')
  | _ => (1, l)
  end.

(** [parseInt(s, 10)]: the integer read, as the nearest double. *)
Definition parseInt (s : list ascii) : jsnum :=
  let (sign, l) := take_sign (drop_spaces s) in
  let '(v, count, _) := take_digits l 0 O in
  match count with
  | O => NaN
  | _ => to_double (inject_Z (sign * v))
  end.

Fixpoint starts_with (p l : list ascii) : bool :=
  match p, l with
  | [], _ => true
  | a :: p', b :: l' => Ascii.eqb a b && starts_with p' l'
  | _ :: _, [] => false
  end.

(** [parseFloat(s)]: the longest prefix that is a decimal literal, as the
    nearest double (an infinity when it overflows). *)
Definition parseFloat (s : list ascii) : jsnum :=
  let (sign, l) := take_sign (drop_spaces s) in
  if starts_with (list_ascii_of_string "Infinity") l then
    if (sign <? 0) then NInf else PInf
  else
    let '(ip, n1, l1) := take_digits l 0 O in
    let '(fp, n2, l2) :=
      match l1 with
      | "."%char :: l' => take_digits l' 0 O
      | _ => (0, O, l1)
      end in
    match (n1 + n2)%nat with
    | O => NaN
    | _ =>
        let mantissa :=
          (inject_Z ip + inject_Z fp / inject_Z (10 ^ Z.of_nat n2))%Q in
        let exponent :=
          match l2 with
          | ("e" | "E")%char :: l' =>
              let (esign, l'') := take_sign l' in
              let '(ev, n3, _) := take_digits l'' 0 O in
              match n3 with O => 0 | _ => esign * ev end
          | _ => 0
          end in
        to_double (inject_Z sign * mantissa * Qpower (inject_Z 10) exponent)
    end.

(** [a.slice(from, to)] on a list of fields. *)
Definition slice {A} (from to : nat) (l : list A) : list A :=
  firstn (to - from) (skipn from l).

(** The state of the parse loop: the array built so far and the offset [ic]
    at which the next dense line is written. *)
Definition parse_state : Type := (obj * jsnum)%type.

(** One turn of the loop over the lines. *)
Definition parse_line (st : parse_state) (line : list ascii) : parse_state :=
  let '(color_map_colors, ic) := st in
  let color := slice 0 5 (split_spaces [] false (trim line)) in
  let line_length := List.length color in
  if (line_length <? 3)%nat then st
  else
    let '(ic, line_length, color) :=
      if (4 <? line_length)%nat
      then ((parseInt (nth 0 color []) * of_Z 4)%js, 4%nat, slice 1 5 color)
      else (ic, line_length, color) in
    let fix fill (j : nat) (fields : list (list ascii)) (a : obj) : obj :=
      match fields with
      | [] => a
      | f :: fields' =>
          fill (S j) fields' (set a (ic + of_Z (Z.of_nat j))%js (parseFloat f))
      end in
    let color_map_colors := fill O (firstn line_length color) color_map_colors in
    let color_map_colors :=
      if (line_length <? 4)%nat
      then set color_map_colors (ic + of_Z 3)%js (of_Z 1)
      else color_map_colors in
    (color_map_colors, (ic + of_Z 4)%js).

(** The loop of [createColorMap] over the text, from an empty array and
    offset 0. *)
Definition parse_colors (data : string) : parse_state :=
  fold_left parse_line
    (split_lines [] (trim (list_ascii_of_string data)))
    (empty_array, of_Z 0).

(** The color map object.  [colors] is a reference to the array in the
    store, or [undefined] when no text was given. *)
Record color_map : Type := mkColorMap {
  colors : option loc;
  clamp : bool;
  flip : bool;
  scale : jsnum;
  contrast : jsnum;
  brightness : jsnum
}.

Record store : Type := mkStore {
  objects : heap;
  cmap : color_map
}.

Record create_options : Type := mkCreateOptions {
  cr_margin : option jsnum;
  cr_clamp : option bool;
  cr_flip : option bool;
  cr_scale : option jsnum;
  cr_contrast : option jsnum;
  cr_brightness : option jsnum
}.

Definition no_create_options : create_options :=
  mkCreateOptions None None None None None None.

(** [BrainBrowser.createColorMap(data, options)], allocating the parsed
    array in [h]. *)
Definition createColorMap
    (data : option string) (options : option create_options) (h : heap)
  : store :=
  let options :=
    match options with Some o => o | None => no_create_options end in
  let clamp := match cr_clamp options with None => true | Some b => b end in
  let flip := match cr_flip options with Some b => b | None => false end in
  let scale := or_default (cr_scale options) (of_Z 1) in
  let contrast := or_default (cr_contrast options) (of_Z 1) in
  let brightness := or_default (cr_brightness options) (of_Z 0) in
  let '(color_map_colors, h) :=
    match data with
    | Some (String _ _ as text) =>
        let (l, h') := alloc h (fst (parse_colors text)) in (Some l, h')
    | _ => (None, h)
    end in
  mkStore h (mkColorMap color_map_colors clamp flip scale contrast brightness).

(** *** mapColors *)

(** [options.colorOptions]: value-keyed, sided overrides. *)
Record color_options : Type := mkColorOptions {
  co_colors : list (jsnum * string);
  co_defaultColor : obj;
  co_leftCount : jsnum
}.

(** The options of [mapColors]; [None] is an absent ([undefined]) field.
    [default_colors] and [colorOptions] are only read and are passed by
    value; [destination] is a reference into the store. *)
Record map_options : Type := mkMapOptions {
  mo_min : option jsnum;
  mo_max : option jsnum;
  mo_maxSpectrum : option jsnum;
  mo_default_colors : option obj;
  mo_destination : option loc;
  mo_scale : option jsnum;
  mo_clamp : option bool;
  mo_flip : option bool;
  mo_brightness : option jsnum;
  mo_contrast : option jsnum;
  mo_colorOptions : option color_options
}.

Definition no_map_options : map_options :=
  mkMapOptions None None None None None None None None None None None.

(** What the filter callback returns: the array it was given, a new array,
    or a falsy value.  The callback only reads the store. *)
Inductive filter_result : Type :=
| SameArray
| NewArray (o : obj)
| Falsy.

Definition filter : Type := option obj -> filter_result.

(** Where the active color table lives during the loop. *)
Inductive color_source : Type :=
| InStore (l : loc)
| Local (o : obj).

Definition source_obj (h : heap) (c : color_source) : obj :=
  match c with
  | InStore l => lookup h l
  | Local o => o
  end.

Definition epsilon : jsnum := Fin (1 # 10000).

(** The callback of [intensity_values.map]. *)
Definition nVal (max maxSpectrum value : jsnum) : jsnum :=
  if ((value >? max) && (value <=? maxSpectrum))%js
  then (max - epsilon)%js else value.

(** [mapColors]'s own choice of increment. *)
Definition mapColors_increment (min max color_map_length : jsnum) : jsnum :=
  if ((min === of_Z 0) && ((max === of_Z 17) || (max === of_Z 18)))%js
  then of_Z 1
  else (color_map_length / (max - min))%js.

Definition of_nat (n : nat) : jsnum := of_Z (Z.of_nat n).

(** The predicate of [colors.find] on the entries of [colorOptions]. *)
Definition color_matches (value : jsnum) (i : nat) (leftCount : jsnum)
    (color : jsnum * string) : bool :=
  let isLeft := String.eqb (snd color) "left" in
  let isAll := String.eqb (snd color) "all" in
  let side :=
    isAll || (if isLeft then (of_nat i <=? leftCount)%js
              else (of_nat i >? leftCount)%js) in
  if (fst color === of_Z 1)%js
  then ((value >? of_Z 0) && (value <=? of_Z 1))%js && side
  else (fst color === value)%js && side.

(** Four assignments [destination[ic + c] = rhs c], one after the other;
    each right-hand side reads the store as the previous writes left it. *)
Definition write4 (destination : loc) (ic : jsnum)
    (rhs : heap -> nat -> jsnum) (h : heap) : heap :=
  let h := write h destination ic (rhs h 0%nat) in
  let h := write h destination (ic + of_Z 1)%js (rhs h 1%nat) in
  let h := write h destination (ic + of_Z 2)%js (rhs h 2%nat) in
  write h destination (ic + of_Z 3)%js (rhs h 3%nat).

(** [contrast * table[base + c] + brightness] for R, G, B and
    [scale * table[base + 3]] for A. *)
Definition shade (scale contrast brightness : jsnum) (table : obj)
    (base : jsnum) (c : nat) : jsnum :=
  match c with
  | 3%nat => (scale * get table (base + of_Z 3))%js
  | _ => (contrast * get table (base + of_nat c) + brightness)%js
  end.

Section MapLoop.

Variables (min max increment : jsnum) (clamp flip : bool).
Variables (color_map_length scale contrast brightness : jsnum).
Variables (default_colors : obj) (default_color_offset : jsnum).
Variable (colorOptions : option color_options).
Variable (color_map_colors : color_source).
Variable (destination : loc).

(** The body of the loop for the value at position [i]. *)
Definition map_value (value : jsnum) (i : nat) (h : heap) : heap :=
  let ic := of_nat (i * 4) in
  let color_map_index :=
    getColorMapIndex value min max increment clamp flip color_map_length in
  let table h := source_obj h color_map_colors in
  if (color_map_index <? of_Z 0)%js then
    let idc := (ic * default_color_offset)%js in
    write4 destination ic
      (fun _ => shade scale contrast brightness default_colors idc) h
  else
    match colorOptions with
    | Some opts =>
        if existsb (color_matches value i (co_leftCount opts)) (co_colors opts)
        then
          write4 destination ic
            (fun h => shade scale contrast brightness (table h) color_map_index)
            h
        else
          write4 destination ic
            (fun _ => shade scale contrast brightness (co_defaultColor opts)
                        (of_Z 0))
            h
    | None =>
        write4 destination ic
          (fun h => shade scale contrast brightness (table h) color_map_index)
          h
    end.

(** The loop over the (copied) intensity values, from position [i] on. *)
Fixpoint map_values (vals : list jsnum) (i : nat) (h : heap) : heap :=
  match vals with
  | [] => h
  | value :: rest => map_values rest (S i) (map_value value i h)
  end.

End MapLoop.

(** [color_map.mapColors(intensity_values, options, filterColorCb)].  The
    result is the location of the destination buffer, or [None] for
    [undefined]. *)
Definition mapColors
    (intensity_values : loc) (options : option map_options)
    (filterColorCb : option filter) (s : store) : option loc * store :=
  let color_map := cmap s in
  let h := objects s in
  let options := match options with Some o => o | None => no_map_options end in
  let min := undef_default (mo_min options) (of_Z 0) in
  let max := undef_default (mo_max options) (of_Z 255) in
  let maxSpectrum := or_default (mo_maxSpectrum options) (of_Z 4) in
  let intensity_values :=
    map (fun value _ => nVal max maxSpectrum value) (lookup h intensity_values) in
  let default_colors :=
    match mo_default_colors options with
    | Some d => d
    | None => array_of [of_Z 0; of_Z 0; of_Z 0; of_Z 1]
    end in
  let '(destination, h) :=
    match mo_destination options with
    | Some d => (d, h)
    | None => alloc h (new_typed Float32 (length intensity_values * 4))
    end in
  let color_map_colors :=
    match filterColorCb with
    | Some cb =>
        match cb (option_map (lookup (objects s)) (colors color_map)) with
        | SameArray => option_map InStore (colors color_map)
        | NewArray o => Some (Local o)
        | Falsy => None
        end
    | None => option_map InStore (colors color_map)
    end in
  match color_map_colors with
  | None => (None, mkStore h color_map)
  | Some color_map_colors =>
      let color_map_length :=
        (of_nat (length (source_obj h color_map_colors)) / of_Z 4)%js in
      let scale := undef_default (mo_scale options) (scale color_map) in
      let clamp :=
        match mo_clamp options with Some b => b | None => clamp color_map end in
      let flip :=
        match mo_flip options with Some b => b | None => flip color_map end in
      let brightness :=
        undef_default (mo_brightness options) (brightness color_map) in
      let contrast :=
        undef_default (mo_contrast options) (contrast color_map) in
      let colorOptions := mo_colorOptions options in
      let default_color_offset :=
        if (length default_colors =? 4)%nat then of_Z 0 else of_Z 1 in
      let increment := mapColors_increment min max color_map_length in
      let brightness := (brightness * scale)%js in
      let contrast := (contrast * scale)%js in
      let h :=
        map_values min max increment clamp flip color_map_length
          scale contrast brightness default_colors default_color_offset
          colorOptions color_map_colors destination
          (values intensity_values) O h in
      (Some destination, mkStore h color_map)
  end.

(** *** colorFromValue *)

Record value_options : Type := mkValueOptions {
  vo_hex : bool;
  vo_min : option jsnum;
  vo_max : option jsnum;
  vo_scale : option jsnum;
  vo_brightness : option jsnum;
  vo_contrast : option jsnum
}.

Definition no_value_options : value_options :=
  mkValueOptions false None None None None None.

(** The result of [colorFromValue]: an RGBA array, a hex string, or the
    [TypeError] raised by [color_map.colors.length] when the color map has
    no colors. *)
Inductive color_result : Type :=
| Color (color : obj)
| Hex (s : string)
| TypeError.

(** The index that [colorFromValue] resolves for [value]. *)
Definition colorFromValue_index
    (color_map : color_map) (table : obj) (value : jsnum)
    (options : value_options) : jsnum :=
  let min := undef_default (vo_min options) (of_Z 0) in
  let max := undef_default (vo_max options) (of_Z 255) in
  let range := (max - min)%js in
  let color_map_length := (of_nat (length table) / of_Z 4)%js in
  let increment := (color_map_length / range)%js in
  getColorMapIndex value min max increment
    (clamp color_map) (flip color_map) color_map_length.

(** [Array.prototype.slice.call(o, from, from + 4)] for a non-negative
    integer [from]: a new plain array that keeps the holes. *)
Definition slice4 (o : obj) (from : jsnum) : obj :=
  let cells :=
    match o with
    | PlainArray a => elems a
    | TypedArray _ data => List.map Some data
    end in
  match from with
  | Fin q => PlainArray (mkArray (slice 0 4 (skipn (Z.to_nat (Qfloor q)) cells)) [])
  | _ => empty_array
  end.

Definition hex_digit (n : Z) : ascii :=
  if n <? 10 then ascii_of_nat (Z.to_nat (48 + n))
  else ascii_of_nat (Z.to_nat (87 + n)).

(** [n.toString(16)] for a non-negative integer, most significant digit
    first; [fuel] bounds the number of digits. *)
Fixpoint to_hex (fuel : nat) (n : Z) (acc : list ascii) : list ascii :=
  match fuel with
  | O => acc
  | S fuel' =>
      let acc := hex_digit (n mod 16) :: acc in
      if n / 16 =? 0 then acc else to_hex fuel' (n / 16) acc
  end.

(** [("0" + v.toString(16)).slice(-2)]. *)
Definition hex2 (v : jsnum) : list ascii :=
  let text :=
    match v with
    | Fin q =>
        let n := Qfloor q in
        if n <? 0 then "-"%char :: to_hex (Z.to_nat (Z.log2 (- n) + 1)) (- n) []
        else to_hex (Z.to_nat (Z.log2 n + 1)) n []
    | NaN => list_ascii_of_string "NaN"
    | PInf => list_ascii_of_string "Infinity"
    | NInf => list_ascii_of_string "-Infinity"
    end in
  let padded := "0"%char :: text in
  skipn (List.length padded - 2) padded.

(** [color_map.colorFromValue(value, options)]. *)
Definition colorFromValue
    (value : jsnum) (options : option value_options) (s : store)
  : color_result :=
  let color_map := cmap s in
  let options :=
    match options with Some o => o | None => no_value_options end in
  let hex := vo_hex options in
  let scale := undef_default (vo_scale options) (scale color_map) in
  let brightness :=
    undef_default (vo_brightness options) (brightness color_map) in
  let contrast := undef_default (vo_contrast options) (contrast color_map) in
  match colors color_map with
  | None => TypeError
  | Some l =>
      let table := lookup (objects s) l in
      let color_map_index :=
        colorFromValue_index color_map table value options in
      let color :=
        if (of_Z 0 <=? color_map_index)%js
        then slice4 table color_map_index
        else array_of [of_Z 0; of_Z 0; of_Z 0; of_Z 1] in
      let adjust c :=
        JsNum.max (of_Z 0)
          (JsNum.min (contrast * get color (of_Z c) + brightness)%js (of_Z 1)) in
      let color := set color (of_Z 0) (adjust 0) in
      let color := set color (of_Z 1) (adjust 1) in
      let color := set color (of_Z 2) (adjust 2) in
      if hex then
        let color := set color (of_Z 0) (floor (get color (of_Z 0) * of_Z 255)%js) in
        let color := set color (of_Z 1) (floor (get color (of_Z 1) * of_Z 255)%js) in
        let color := set color (of_Z 2) (floor (get color (of_Z 2) * of_Z 255)%js) in
        let color := set color (of_Z 3) (floor (get color (of_Z 3) * of_Z 255)%js) in
        Hex (string_of_list_ascii
               (hex2 (get color (of_Z 0)) ++ hex2 (get color (of_Z 1))
                  ++ hex2 (get color (of_Z 2))))
      else
        let color := set color (of_Z 0) (get color (of_Z 0) * scale)%js in
        let color := set color (of_Z 1) (get color (of_Z 1) * scale)%js in
        let color := set color (of_Z 2) (get color (of_Z 2) * scale)%js in
        let color := set color (of_Z 3) (get color (of_Z 3) * scale)%js in
        Color color
  end.

(** *** createCanvas: the colors of the legend *)

(** [a[i]] as a value that may be [undefined]. *)
Definition cell (o : obj) (i : nat) : option jsnum :=
  match o with
  | PlainArray a =>
      match nth_error (elems a) i with
      | Some e => e
      | None => None
      end
  | TypedArray _ data => nth_error data i
  end.

(** [a === b] on values that may be [undefined]. *)
Definition strict_eq (a b : option jsnum) : bool :=
  match a, b with
  | Some x, Some y => (x === y)%js
  | None, None => true
  | _, _ => false
  end.

(** [color1 === 1 && color2 === 1 && color3 === 1 && color4 === 1] on the
    first four elements of [colors]. *)
Definition starts_white (colors : obj) : bool :=
  strict_eq (cell colors 0) (Some (of_Z 1))
  && strict_eq (cell colors 1) (Some (of_Z 1))
  && strict_eq (cell colors 2) (Some (of_Z 1))
  && strict_eq (cell colors 3) (Some (of_Z 1)).

(** [colors.slice(n)]: a new array of the same kind. *)
Definition slice_from (n : nat) (o : obj) : obj :=
  match o with
  | PlainArray a => PlainArray (mkArray (skipn n (elems a)) [])
  | TypedArray k data => TypedArray k (skipn n data)
  end.

(** The [while (true)] loop that drops the leading white entries; [fuel]
    bounds the number of turns. *)
Fixpoint cut_white (fuel : nat) (colors : obj) : obj :=
  match fuel with
  | O => colors
  | S fuel' =>
      if starts_white colors then cut_white fuel' (slice_from 4 colors)
      else colors
  end.

(** The indexes that [forEach] and [filter] visit: a hole is skipped. *)
Definition has_index (o : obj) (i : nat) : bool :=
  match cell o i with
  | Some _ => true
  | None => false
  end.

(** The indexes collected by the [forEach] over [colors]. *)
Definition filterIndexs (colors filterColors : obj) : list nat :=
  let colorLen := length colors in
  flat_map
    (fun index =>
       if has_index colors index
          && (index mod 4 =? 0)%nat
          && (index + 3 <=? colorLen)%nat
          && strict_eq (cell colors index) (cell filterColors 0)
          && strict_eq (cell colors (index + 1)) (cell filterColors 1)
          && strict_eq (cell colors (index + 2)) (cell filterColors 2)
          && strict_eq (cell colors (index + 3)) (cell filterColors 3)
       then [index; index + 1; index + 2; index + 3]%nat
       else [])
    (List.seq 0 colorLen).

(** [colors.filter((val, index) => !filterIndexs.includes(index))]. *)
Definition filter_out (colors : obj) (indexes : list nat) : obj :=
  let kept :=
    flat_map
      (fun index =>
         match cell colors index with
         | Some val =>
             if negb (existsb (Nat.eqb index) indexes) then [val] else []
         | None => []
         end)
      (List.seq 0 (length colors)) in
  match colors with
  | PlainArray _ => array_of kept
  | TypedArray k _ => TypedArray k kept
  end.

(** The callback that [createCanvas] hands to [mapColors], on colors that
    are defined. *)
Definition legend_filter (cutPrevColor : bool) (filterColors : option obj)
    (colors : obj) : filter_result :=
  if negb cutPrevColor then SameArray
  else
    let cut := cut_white (length colors) colors in
    match filterColors with
    | Some filterColors =>
        NewArray (filter_out cut (filterIndexs cut filterColors))
    | None => if starts_white colors then NewArray cut else SameArray
    end.

Definition with_scale (c : color_map) (scale : jsnum) : color_map :=
  mkColorMap (colors c) (clamp c) (flip c) scale (contrast c) (brightness c).

(** The part of [createCanvas] that computes the colors of the 256 columns:
    the buffer that [mapColors] returns for the values 0 to 255 with the
    scale set to 255, and the store afterwards.  [None] stands for the
    [TypeError] that [createCanvas] raises when the color map has no
    colors: in the callback, which destructures them, when [cutPrevColor]
    is set, and otherwise at the first read of the [undefined] that
    [mapColors] returned.  The scale is restored after [mapColors] has
    returned. *)
Definition createCanvas_colors (cutPrevColor : bool)
    (filterColors : option obj) (s : store) : option loc * store :=
  let (value_array, h) :=
    alloc (objects s) (array_of (List.map of_nat (List.seq 0 256))) in
  let old_scale := scale (cmap s) in
  let s := mkStore h (with_scale (cmap s) (of_Z 255)) in
  match colors (cmap s), cutPrevColor with
  | None, true => (None, s)
  | _, _ =>
      let callback (colors : option obj) :=
        match colors with
        | Some colors => legend_filter cutPrevColor filterColors colors
        | None => Falsy
        end in
      let (colors, s) := mapColors value_array None (Some callback) s in
      (colors, mkStore (objects s) (with_scale (cmap s) old_scale))
  end.

End ColorMap.

(** ** Index resolution in double precision *)

(** The operations of [JsNum] keep a finite result exact.  [Double] has the
    four operations as the code performs them: the exact result rounded to
    the nearest double, or an infinity when it overflows.  (The two zeros
    are not told apart.)  [getColorMapIndex] and the increment of
    [mapColors] and [colorFromValue] are given over them. *)
Module Double.

Definition add (a b : jsnum) : jsnum :=
  match a, b with
  | Fin x, Fin y => to_double (x + y)
  | _, _ => JsNum.add a b
  end.

Definition sub (a b : jsnum) : jsnum := add a (neg b).

Definition mul (a b : jsnum) : jsnum :=
  match a, b with
  | Fin x, Fin y => to_double (x * y)
  | _, _ => JsNum.mul a b
  end.

Definition div (a b : jsnum) : jsnum :=
  match a, b with
  | Fin x, Fin y => if Qeqb y 0 then JsNum.div a b else to_double (x / y)
  | _, _ => JsNum.div a b
  end.

(** [getColorMapIndex(value, min, max, increment, clamp, flip,
    color_map_length)]. *)
Definition getColorMapIndex
    (value min max increment : jsnum) (clamp flip : bool)
    (color_map_length : jsnum) : jsnum :=
  if ((value <? min) || (value >? max))%js && negb clamp then
    of_Z (-1)
  else
    let color_map_index :=
      floor (JsNum.max (of_Z 0)
               (JsNum.min (mul (sub value min) increment)
                          (sub color_map_length (of_Z 1)))) in
    let color_map_index :=
      if flip then sub (sub color_map_length (of_Z 1)) color_map_index
      else color_map_index in
    mul color_map_index (of_Z 4).

(** [color_map_length / (max - min)], the increment of [colorFromValue]. *)
Definition window_increment (min max color_map_length : jsnum) : jsnum :=
  div color_map_length (sub max min).

(** The increment of [mapColors], with its override. *)
Definition mapColors_increment (min max color_map_length : jsnum) : jsnum :=
  if ((min === of_Z 0) && ((max === of_Z 17) || (max === of_Z 18)))%js
  then of_Z 1
  else window_increment min max color_map_length.

End Double.

(** ** The overlay volume *)

Module Overlay.

Import JsArray.

(** An [ImageData]: its size and its bytes, a [Uint8ClampedArray] of
    [4 * width * height] entries, and the [display_zindex] that
    [getSliceImage] attaches to it. *)
Record ImageData : Type := mkImageData {
  width : nat;
  height : nat;
  data : list jsnum;
  display_zindex : option jsnum
}.

(** *** blendImages *)

(** The comparator handed to [images.sort]. *)
Definition compare_zindex (a b : ImageData) : jsnum :=
  let a_zindex := or_default (display_zindex a) (of_Z 0) in
  let b_zindex := or_default (display_zindex b) (of_Z 0) in
  (a_zindex - b_zindex)%js.

(** [images.sort(compare)]: the sort is stable, so it is the insertion of
    each image, in order, behind the images that do not compare greater. *)
Fixpoint insert_image (x : ImageData) (l : list ImageData) : list ImageData :=
  match l with
  | [] => [x]
  | y :: l' =>
      if (compare_zindex x y <? of_Z 0)%js then x :: l
      else y :: insert_image x l'
  end.

Definition sort_images (images : list ImageData) : list ImageData :=
  fold_left (fun sorted x => insert_image x sorted) images [].

(** A store into the target's [Uint8ClampedArray]. *)
Definition set_byte (d : list jsnum) (n : nat) (v : jsnum) : list jsnum :=
  list_set d n (store_conv Uint8Clamped v).

(** [for (i = from; i < from + count; i += 1) body]. *)
Fixpoint for_loop {S : Type} (count from : nat) (body : nat -> S -> S) (s : S)
  : S :=
  match count with
  | O => s
  | Datatypes.S count' => for_loop count' (Datatypes.S from) body (body from s)
  end.

(** The mutable state of the blend loops: the target's bytes and, for each
    image, the position of its next pixel (a [Uint32Array]). *)
Record blend_state : Type := mkBlend {
  target_data : list jsnum;
  image_iter : list Z
}.

Section Blend.

Variable opacitys : list jsnum.

(** The body of the innermost loop: image [i] at target position (x, y). *)
Definition blend_image (y x pixel i : nat) (image : ImageData)
    (st : blend_state) : blend_state :=
  let opacity :=
    if (i =? 0)%nat then of_Z 0 else (of_Z 1 - nth i opacitys NaN)%js in
  if ((y <? height image) && (x <? width image))%nat then
    let image_data := data image in
    let current := Z.to_nat (nth i (image_iter st) 0) in
    let td := target_data st in
    let td :=
      if ((nth current image_data NaN >? of_Z 0)
          || (nth (current + 1) image_data NaN >? of_Z 0)
          || (nth (current + 2) image_data NaN >? of_Z 0))%js
      then
        let td :=
          set_byte td pixel
            (nth pixel td NaN * opacity
             + nth current image_data NaN * nth i opacitys NaN)%js in
        let td :=
          set_byte td (pixel + 1)
            (nth (pixel + 1) td NaN * opacity
             + nth (current + 1) image_data NaN * nth i opacitys NaN)%js in
        set_byte td (pixel + 2)
          (nth (pixel + 2) td NaN * opacity
           + nth (current + 2) image_data NaN * nth i opacitys NaN)%js
      else td in
    let td := set_byte td (pixel + 3) (of_Z 255) in
    mkBlend td
      (list_set (image_iter st) i ((nth i (image_iter st) 0 + 4) mod 2 ^ 32))
  else st.

(** The loop over the images, from image number [i] on. *)
Fixpoint blend_images_at (y x pixel i : nat) (images : list ImageData)
    (st : blend_state) : blend_state :=
  match images with
  | [] => st
  | image :: rest =>
      blend_images_at y x pixel (S i) rest (blend_image y x pixel i image st)
  end.

Definition blend_pixel (images : list ImageData) (width y x : nat)
    (st : blend_state) : blend_state :=
  let row_offset := (y * width)%nat in
  let pixel := ((row_offset + x) * 4)%nat in
  blend_images_at y x pixel 0 images st.

End Blend.

(** [blendImages(images, target, blend_opacitys)]. *)
Definition blendImages (images : list ImageData) (target : ImageData)
    (blend_opacitys : list jsnum) : ImageData :=
  match images with
  | [only] => only
  | _ =>
      let images := sort_images images in
      let image_iter := repeat 0 (List.length images) in
      let opacitys := List.map (store_conv Float32) blend_opacitys in
      let st :=
        for_loop (height target) 0
          (fun y =>
             for_loop (width target) 0
               (fun x => blend_pixel opacitys images (width target) y x))
          (mkBlend (data target) image_iter) in
      mkImageData (width target) (height target) (target_data st)
        (display_zindex target)
  end.

(** *** getSliceImage *)

(** What a call can throw: the [Error] of the source, the [TypeError] of a
    property read on [undefined], and the exceptions of the platform
    ([createImageData], [TypedArray.prototype.set]). *)
Inductive exn : Type :=
| Error (message : string)
| PropertyOfUndefined
| HostException (what : string).

Inductive completion (A : Type) : Type :=
| Normal (a : A)
| Throw (e : exn).

Arguments Normal {A} a.
Arguments Throw {A} e.

(** An event triggered on a volume: the volume's position in the overlay,
    the event's name and its argument. *)
Definition event : Type := (nat * string * string)%type.

(** What a call can change: the store of arrays and the events triggered so
    far (latest last). *)
Record world : Type := mkWorld {
  arrays : heap;
  events : list event
}.

(** Computations that read and change the world and may throw. *)
Definition M (A : Type) : Type := world -> completion A * world.

Definition ret {A} (a : A) : M A := fun w => (Normal a, w).

Definition throw {A} (e : exn) : M A := fun w => (Throw e, w).

Definition bind {A B} (m : M A) (k : A -> M B) : M B :=
  fun w =>
    match m w with
    | (Normal a, w') => k a w'
    | (Throw e, w') => (Throw e, w')
    end.

Definition lift {A} (c : completion A) : M A := fun w => (c, w).

Notation "x <- m ;; k" := (bind m (fun x => k))
  (at level 61, m at next level, right associativity).
Notation "m ;;; k" := (bind m (fun _ => k))
  (at level 61, right associativity).

(** [volume.triggerEvent(name, argument)] on the volume at position [i]. *)
Definition triggerEvent (i : nat) (name argument : string) : M unit :=
  fun w => (Normal tt, mkWorld (arrays w) (events w ++ [(i, name, argument)])).

(** A slice of one volume.  [slice_width] and [slice_height] may be
    [undefined]. *)
Record slice : Type := mkSlice {
  slice_width : option jsnum;
  slice_height : option jsnum;
  slice_data : obj;
  slice_display_zindex : option jsnum
}.

(** The fields of a volume that the overlay reads.  The color map is the
    object that [createColorMap] returned, its colors held in the world's
    store. *)
Record volume : Type := mkVolume {
  color_map : option ColorMap.color_map;
  datatype : string;
  intensity_min : option jsnum;
  intensity_max : option jsnum;
  opacity : option jsnum;
  isRiskHeatMap : bool;
  isSafety : bool;
  isAnat : bool;
  isRiskMask : bool;
  riskId : option jsnum
}.

(** [overlay_volume.opacitys], as [overlayaligned] fills it. *)
Definition overlay_opacitys (volumes : list volume) : list jsnum :=
  List.map (fun volume => undef_default (opacity volume) (of_Z 1)) volumes.

(** [slices.find((slice, index) => !!(volumes[index] && pick(volumes[index])))],
    [None] standing for [false]. *)
Fixpoint find_slice (pick : volume -> bool) (slices : list slice)
    (volumes : list volume) : option slice :=
  match slices, volumes with
  | s :: slices', v :: volumes' =>
      if pick v then Some s else find_slice pick slices' volumes'
  | _, _ => None
  end.

Definition getAnatSlice := find_slice isAnat.
Definition getRiskMaskSlice := find_slice isRiskMask.

(** [Math.round]. *)
Definition round (v : jsnum) : jsnum := floor (v + Fin (1 # 2))%js.

(** The slice number that [overlay_volume.slice] asks of a volume whose step
    along the axis is [step], the first volume's being [first_step]. *)
Definition corrected_slice_num (step first_step slice_num : jsnum) : jsnum :=
  let factor := (step / first_step)%js in
  round (slice_num / factor)%js.

Definition no_color_map_message : string :=
  "No color map set for this volume. Cannot render slice.".

(** [slice.data.map((val, sliceIndex) => volume.riskId &&
    maskVal === volume.riskId ? val : 0)] with the mask read from [mask]. *)
Definition mask_data (riskId : option jsnum) (mask : slice) (d : obj) : obj :=
  map (fun val sliceIndex =>
         let maskVal := get (slice_data mask) (ColorMap.of_nat sliceIndex) in
         match riskId with
         | Some id =>
             if truthy id && (maskVal === id)%js then val else of_Z 0
         | None => of_Z 0
         end) d.

(** [typed.set(source)] on a [Uint8ClampedArray]: a [RangeError] when the
    source is longer than the target. *)
Definition set_bytes (target source : list jsnum) : completion (list jsnum) :=
  if (List.length target <? List.length source)%nat
  then Throw (HostException "RangeError")
  else Normal (List.map (store_conv Uint8Clamped) source
                 ++ skipn (List.length source) target).

Section GetSliceImage.

(** The platform and the helpers that are not part of these files:
    [context.createImageData(sw, sh)], which may refuse a size;
    [VolumeViewer.utils.nearestNeighbor(source, width, height, target_width,
    target_height, {block_size: 4})]; and the bytes of [slice.data.buffer]. *)
Variable createImageData : jsnum -> jsnum -> completion ImageData.
Variable nearestNeighbor : list jsnum -> nat -> nat -> jsnum -> jsnum -> list jsnum.
Variable buffer_bytes : obj -> list jsnum.

Variable volumes : list volume.

Section Slice.

Variables (max_width max_height : jsnum).
Variables (riskMaskSlice anatSlice : option slice).
Variables (contrast brightness : option jsnum).

(** The body of [slices.forEach]: the image of slice [i], or [None] when
    the slice is skipped. *)
Definition render_slice (slice : slice) (i : nat) : M (option ImageData) :=
  match slice_width slice, slice_height slice with
  | Some slice_width, Some slice_height =>
      match nth_error volumes i with
      | None => throw PropertyOfUndefined
      | Some volume =>
          match color_map volume with
          | None =>
              let error_message := no_color_map_message in
              triggerEvent i "error" error_message ;;;
              throw (Error error_message)
          | Some color_map =>
              let target_width := max_width in
              let target_height := max_height in
              source_image <- lift (createImageData slice_width slice_height) ;;
              target_image <- lift (createImageData target_width target_height) ;;
              source_data <-
                (if String.eqb (datatype volume) "rgb8" then
                   let tmp := buffer_bytes (slice_data slice) in
                   lift (set_bytes (data source_image) tmp)
                 else
                   let mergedData :=
                     if isSafety volume then
                       match anatSlice with
                       | Some anatSlice =>
                           if isRiskHeatMap volume
                           then mask_data (riskId volume) anatSlice
                                  (slice_data slice)
                           else slice_data slice
                       | None => slice_data slice
                       end
                     else
                       match riskMaskSlice with
                       | Some riskMaskSlice =>
                           if isRiskHeatMap volume
                           then mask_data (riskId volume) riskMaskSlice
                                  (slice_data slice)
                           else slice_data slice
                       | None => slice_data slice
                       end in
                   fun w =>
                     let (values, h) := alloc (arrays w) mergedData in
                     let (destination, h) :=
                       alloc h (TypedArray Uint8Clamped (data source_image)) in
                     let options :=
                       ColorMap.mkMapOptions
                         (intensity_min volume) (intensity_max volume) None
                         None (Some destination) None None None
                         brightness contrast None in
                     let (_, s) :=
                       ColorMap.mapColors values (Some options) None
                         (ColorMap.mkStore h color_map) in
                     (Normal (JsArray.values
                                (lookup (ColorMap.objects s) destination)),
                      mkWorld (ColorMap.objects s) (events w))) ;;
              target_data <-
                lift (set_bytes (data target_image)
                        (nearestNeighbor source_data
                           (width source_image) (height source_image)
                           target_width target_height)) ;;
              ret (Some (mkImageData (width target_image) (height target_image)
                           target_data (slice_display_zindex slice)))
          end
      end
  | _, _ => ret None
  end.

(** [slices.forEach], from slice number [i] on, pushing onto [images]. *)
Fixpoint render_slices (slices : list slice) (i : nat)
    (images : list ImageData) : M (list ImageData) :=
  match slices with
  | [] => ret images
  | slice :: rest =>
      image <- render_slice slice i ;;
      render_slices rest (S i)
        (match image with
         | Some image => images ++ [image]
         | None => images
         end)
  end.

End Slice.

(** [overlay_volume.getSliceImage(slice, zoom, contrast, brightness)], the
    composite slice given by its [slices]. *)
Definition getSliceImage (slices : list slice)
    (zoom contrast brightness : option jsnum) : M ImageData :=
  let zoom := or_default zoom (of_Z 1) in
  match slices with
  | [] => throw PropertyOfUndefined
  | first :: _ =>
      let dimension d := match d with Some v => v | None => NaN end in
      let max_width := round (dimension (slice_width first) * zoom)%js in
      let max_height := round (dimension (slice_height first) * zoom)%js in
      let riskMaskSlice := getRiskMaskSlice slices volumes in
      let anatSlice := getAnatSlice slices volumes in
      images <-
        render_slices max_width max_height riskMaskSlice anatSlice
          contrast brightness slices 0 [] ;;
      target <- lift (createImageData max_width max_height) ;;
      ret (blendImages images target (overlay_opacitys volumes))
  end.

End GetSliceImage.

End Overlay.

(** ** Index resolution as the specification words it *)

Module Specification.

(** Section 4.1, step 2: [increment = length / (max - min)], forced to 1
    when [min == 0] and [max] is 17 or 18. *)
Definition increment (min max length : jsnum) : jsnum :=
  if ((min === of_Z 0) && ((max === of_Z 17) || (max === of_Z 18)))%js
  then of_Z 1
  else (length / (max - min))%js.

(** Section 4.1, [resolveIndex]: the sentinel [-1] for a value outside the
    window when [clamp] is off; otherwise the floor of the scaled position
    clamped to [0, length - 1], mirrored when [flip] is on, times 4. *)
Definition resolveIndex (value min max : jsnum) (clamp flip : bool)
    (length : jsnum) : jsnum :=
  if ((value <? min) || (value >? max))%js && negb clamp then of_Z (-1)
  else
    let scaled := ((value - min) * increment min max length)%js in
    let idx :=
      floor (JsNum.max (of_Z 0) (JsNum.min scaled (length - of_Z 1)%js)) in
    let idx := if flip then (length - of_Z 1 - idx)%js else idx in
    (idx * of_Z 4)%js.

End Specification.

(** ** Sample inputs *)

Module Samples.

Import JsArray ColorMap.

Definition newline : string := String (ascii_of_nat 10) EmptyString.

(** The text ["0 0 0\n1 0 0\n0 1 0\n0 0 1\n1 1 1"]. *)
Definition five_colors : string :=
  ("0 0 0" ++ newline ++ "1 0 0" ++ newline ++ "0 1 0" ++ newline
   ++ "0 0 1" ++ newline ++ "1 1 1")%string.

(** The text ["0 0 0\n1 0 0\n0 1 0\n0 0 1"]. *)
Definition four_colors : string :=
  ("0 0 0" ++ newline ++ "1 0 0" ++ newline ++ "0 1 0" ++ newline
   ++ "0 0 1")%string.

(** [{min: lo, max: hi}] for [mapColors]. *)
Definition window (lo hi : Z) : map_options :=
  mkMapOptions (Some (of_Z lo)) (Some (of_Z hi)) None None None
    None None None None None None.

(** [{min: lo, max: hi}] for [colorFromValue]. *)
Definition value_window (lo hi : Z) : value_options :=
  mkValueOptions false (Some (of_Z lo)) (Some (of_Z hi)) None None None.

End Samples.

(** * Properties *)

Import JsArray ColorMap Overlay Samples.

(** ** Numbers *)

Lemma Qltb_true (a b : Q) : Qltb a b = true <-> (a < b)%Q.
Proof.
  unfold Qltb. rewrite Qlt_alt.
  destruct (a ?= b)%Q; split; congruence.
Qed.

Lemma Qltb_false (a b : Q) : Qltb a b = false <-> (b <= a)%Q.
Proof.
  pose proof (Qltb_true a b) as H.
  destruct (Qltb a b); split; intros H'; try reflexivity; try discriminate.
  - exfalso. apply (Qle_not_lt _ _ H'). now apply H.
  - apply Qnot_lt_le. intros Hlt. apply H in Hlt. discriminate.
Qed.

Lemma Qleb_true (a b : Q) : Qleb a b = true <-> (a <= b)%Q.
Proof.
  unfold Qleb. rewrite Qle_alt.
  destruct (a ?= b)%Q; split; congruence.
Qed.

Lemma Qeqb_true (a b : Q) : Qeqb a b = true <-> (a == b)%Q.
Proof.
  unfold Qeqb. rewrite Qeq_alt.
  destruct (a ?= b)%Q; split; congruence.
Qed.

Lemma Qltb_morph (a a' b b' : Q) :
  (a == a')%Q -> (b == b')%Q -> Qltb a b = Qltb a' b'.
Proof. intros Ha Hb. unfold Qltb. now rewrite Ha, Hb. Qed.

Lemma Qleb_morph (a a' b b' : Q) :
  (a == a')%Q -> (b == b')%Q -> Qleb a b = Qleb a' b'.
Proof. intros Ha Hb. unfold Qleb. now rewrite Ha, Hb. Qed.

(** A number in lowest terms that equals an integer is that integer. *)
Lemma Qred_inject_Z (q : Q) (z : Z) : (q == inject_Z z)%Q -> Qred q = inject_Z z.
Proof.
  intros H. rewrite (Qred_complete _ _ H).
  unfold Qred, inject_Z. simpl.
  pose proof (Z.ggcd_gcd z 1) as Hg.
  pose proof (Z.ggcd_correct_divisors z 1) as Hd.
  destruct (Z.ggcd z 1) as [g [aa bb]]. simpl in *.
  rewrite Z.gcd_1_r in Hg. subst g.
  destruct Hd as [Hz Hb].
  rewrite Z.mul_1_l in Hz, Hb. subst aa bb. reflexivity.
Qed.

Lemma fin_of_Z (q : Q) (z : Z) : (q == inject_Z z)%Q -> fin q = of_Z z.
Proof. intros H. unfold fin, of_Z. now rewrite (Qred_inject_Z _ _ H). Qed.

Lemma sub_of_Z (a b : Z) : (of_Z a - of_Z b)%js = of_Z (a - b).
Proof.
  unfold sub, neg, add, of_Z. fold (fin (- inject_Z b)).
  unfold fin at 2. apply fin_of_Z.
  rewrite Qred_correct. unfold Z.sub.
  rewrite inject_Z_plus, inject_Z_opp. reflexivity.
Qed.

Lemma mul_of_Z (a b : Z) : (of_Z a * of_Z b)%js = of_Z (a * b).
Proof.
  unfold mul, of_Z. apply fin_of_Z. now rewrite inject_Z_mult.
Qed.

Lemma lt_Fin (a b : Q) : (Fin a <? Fin b)%js = Qltb a b.
Proof. reflexivity. Qed.

Lemma Qfloor_ge_int (n : Z) (e : Q) : (inject_Z n <= e)%Q -> n <= Qfloor e.
Proof. intros H. rewrite <- (Qfloor_Z n). now apply Qfloor_resp_le. Qed.

Lemma Qfloor_le_int (n : Z) (e : Q) : (e <= inject_Z n)%Q -> Qfloor e <= n.
Proof. intros H. rewrite <- (Qfloor_Z n). now apply Qfloor_resp_le. Qed.

(** ** Rounding *)

(** *** Powers of two *)

Lemma pow2_pos (e : Z) : (0 < 2 ^ e)%Q.
Proof. now apply Qpower_0_lt. Qed.

Lemma pow2_plus (a b : Z) : (2 ^ (a + b) == 2 ^ a * 2 ^ b)%Q.
Proof. now apply Qpower_plus. Qed.

Lemma pow2_minus (a b : Z) : (2 ^ (a - b) == 2 ^ a / 2 ^ b)%Q.
Proof. now apply Qpower_minus. Qed.

Lemma pow2_le (a b : Z) : a <= b -> (2 ^ a <= 2 ^ b)%Q.
Proof. intros H. apply Qpower_le_compat_l; [ exact H | discriminate ]. Qed.

Lemma pow2_lt (a b : Z) : a < b -> (2 ^ a < 2 ^ b)%Q.
Proof. intros H. apply Qpower_lt_compat_l; [ exact H | reflexivity ]. Qed.

Lemma pow2_inject (z : Z) : 0 <= z -> (inject_Z (2 ^ z) == 2 ^ z)%Q.
Proof. intros H. now apply (Zpower_Qpower 2 z). Qed.

Lemma pow2_succ (e : Z) : (2 ^ (e + 1) == 2 * 2 ^ e)%Q.
Proof. rewrite pow2_plus. change (2 ^ 1)%Q with 2%Q. ring. Qed.

Lemma pow2_pred (e : Z) : (2 ^ (e - 1) == 2 ^ e / 2)%Q.
Proof. rewrite pow2_minus. reflexivity. Qed.

(** *** The binade of a positive number *)

Lemma Qleb_false (a b : Q) : Qleb a b = false <-> (b < a)%Q.
Proof.
  pose proof (Qleb_true a b) as H.
  destruct (Qleb a b); split; intros H'; try reflexivity; try discriminate.
  - exfalso. apply (Qlt_not_le _ _ H'). now apply H.
  - apply Qnot_le_lt. intros Hle. apply H in Hle. discriminate.
Qed.

Lemma ilog2_spec (a : Q) :
  (0 < a)%Q -> (2 ^ ilog2 a <= a)%Q /\ (a < 2 ^ (ilog2 a + 1))%Q.
Proof.
  intros Ha. destruct a as [n d].
  assert (Hn : 0 < n) by (unfold Qlt in Ha; cbn in Ha; lia).
  unfold ilog2. cbn [Qnum Qden].
  set (ln := Z.log2 n). set (ld := Z.log2 (Z.pos d)).
  destruct (Z.log2_spec n Hn) as [Hn1 Hn2]. fold ln in Hn1, Hn2.
  destruct (Z.log2_spec (Z.pos d) (Pos2Z.is_pos d)) as [Hd1 Hd2].
  fold ld in Hd1, Hd2.
  assert (Hln : 0 <= ln) by apply Z.log2_nonneg.
  assert (Hld : 0 <= ld) by apply Z.log2_nonneg.
  assert (Hq : (n # d == inject_Z n / inject_Z (Z.pos d))%Q)
    by apply Qmake_Qdiv.
  set (N := inject_Z n) in *. set (D := inject_Z (Z.pos d)) in *.
  assert (HD : (0 < D)%Q) by reflexivity.
  assert (HX : (2 ^ ln <= N)%Q /\ (N < 2 * 2 ^ ln)%Q).
  { rewrite <- pow2_succ, <- !pow2_inject by lia.
    unfold N. rewrite <- Zle_Qle, <- Zlt_Qlt.
    rewrite Z.pow_succ_r in Hn2 by lia.
    replace (ln + 1) with (Z.succ ln) by lia.
    rewrite Z.pow_succ_r by lia. lia. }
  assert (HY : (2 ^ ld <= D)%Q /\ (D < 2 * 2 ^ ld)%Q).
  { rewrite <- pow2_succ, <- !pow2_inject by lia.
    unfold D. rewrite <- Zle_Qle, <- Zlt_Qlt.
    rewrite Z.pow_succ_r in Hd2 by lia.
    replace (ld + 1) with (Z.succ ld) by lia.
    rewrite Z.pow_succ_r by lia. lia. }
  pose proof (pow2_pos ln) as HXp. pose proof (pow2_pos ld) as HYp.
  set (X := (2 ^ ln)%Q) in *. set (Y := (2 ^ ld)%Q) in *.
  assert (Hk : (2 ^ (ln - ld) == X / Y)%Q) by apply pow2_minus.
  destruct (Qleb (2 ^ (ln - ld)) (n # d)) eqn:E.
  - apply Qleb_true in E. split; [ exact E | ].
    rewrite pow2_succ, Hk, Hq.
    apply Qlt_shift_div_r; [ exact HD | ].
    assert (Heq : (2 * (X / Y) * D == (2 * X * D) / Y)%Q) by (field; lra).
    rewrite Heq. apply Qlt_shift_div_l; [ exact HYp | ].
    destruct HX, HY. nra.
  - apply Qleb_false in E. split.
    + rewrite pow2_pred, Hk, Hq.
      apply Qle_shift_div_l; [ exact HD | ].
      assert (Heq : (X / Y / 2 * D == (X * D) / (2 * Y))%Q) by (field; lra).
      rewrite Heq. apply Qle_shift_div_r; [ lra | ].
      destruct HX, HY. nra.
    + replace (ln - ld - 1 + 1) with (ln - ld) by lia. exact E.
Qed.

(** The binade is determined by its bounds. *)
Lemma ilog2_unique (a : Q) (k : Z) :
  (2 ^ k <= a)%Q -> (a < 2 ^ (k + 1))%Q -> ilog2 a = k.
Proof.
  intros Hlow Hhigh.
  assert (Ha : (0 < a)%Q) by (pose proof (pow2_pos k); lra).
  destruct (ilog2_spec a Ha) as [Hl Hh].
  destruct (Z.lt_trichotomy (ilog2 a) k) as [Hlt | [Heq | Hgt]];
    [ | exact Heq | ].
  - exfalso. assert (H : (2 ^ (ilog2 a + 1) <= 2 ^ k)%Q) by (apply pow2_le; lia).
    lra.
  - exfalso. assert (H : (2 ^ (k + 1) <= 2 ^ ilog2 a)%Q) by (apply pow2_le; lia).
    lra.
Qed.

Lemma ilog2_le (a : Q) (k : Z) : (0 < a)%Q -> (a < 2 ^ k)%Q -> ilog2 a < k.
Proof.
  intros Ha Hk. destruct (ilog2_spec a Ha) as [Hl _].
  destruct (Z.lt_ge_cases (ilog2 a) k) as [H | H]; [ exact H | exfalso ].
  assert (H' : (2 ^ k <= 2 ^ ilog2 a)%Q) by (apply pow2_le; lia). lra.
Qed.

Lemma ilog2_ge (a : Q) (k : Z) : (2 ^ k <= a)%Q -> k <= ilog2 a.
Proof.
  intros Hk.
  assert (Ha : (0 < a)%Q) by (pose proof (pow2_pos k); lra).
  destruct (ilog2_spec a Ha) as [_ Hh].
  destruct (Z.le_gt_cases k (ilog2 a)) as [H | H]; [ exact H | exfalso ].
  assert (H' : (2 ^ (ilog2 a + 1) <= 2 ^ k)%Q) by (apply pow2_le; lia). lra.
Qed.

(** *** Rounding to the nearest integer *)

Lemma round_half_even_near (q : Q) :
  (q - (1 # 2) <= inject_Z (round_half_even q))%Q
  /\ (inject_Z (round_half_even q) <= q + (1 # 2))%Q.
Proof.
  unfold round_half_even.
  pose proof (Qfloor_le q) as Hlow. pose proof (Qlt_floor q) as Hhigh.
  rewrite inject_Z_plus in Hhigh. change (inject_Z 1) with 1%Q in Hhigh.
  destruct (Qcompare_spec (q - inject_Z (Qfloor q)) (1 # 2)) as [E | E | E].
  - destruct (Z.even (Qfloor q)).
    + lra.
    + rewrite inject_Z_plus. change (inject_Z 1) with 1%Q. lra.
  - lra.
  - rewrite inject_Z_plus. change (inject_Z 1) with 1%Q. lra.
Qed.

Lemma round_half_even_comp (q q' : Q) :
  (q == q')%Q -> round_half_even q = round_half_even q'.
Proof.
  intros H. unfold round_half_even.
  rewrite (Qfloor_comp _ _ H).
  assert (H' : (q - inject_Z (Qfloor q') == q' - inject_Z (Qfloor q'))%Q)
    by (now rewrite H).
  now rewrite (Qcompare_comp _ _ H' _ _ (Qeq_refl (1 # 2))).
Qed.

Lemma round_half_even_integer (q : Q) (z : Z) :
  (q == inject_Z z)%Q -> round_half_even q = z.
Proof.
  intros H. rewrite (round_half_even_comp _ _ H). unfold round_half_even.
  rewrite Qfloor_Z.
  assert (E : (inject_Z z - inject_Z z ?= 1 # 2)%Q = Lt).
  { apply Qlt_alt.
    assert (H0 : (inject_Z z - inject_Z z == 0)%Q) by ring.
    rewrite H0. reflexivity. }
  now rewrite E.
Qed.

Lemma round_half_even_ge (q : Q) (z : Z) :
  (inject_Z z <= q)%Q -> z <= round_half_even q.
Proof.
  intros H.
  assert (Hf : z <= Qfloor q) by (now apply Qfloor_ge_int).
  unfold round_half_even.
  destruct (_ ?= _)%Q; [ destruct (Z.even _) | | ]; lia.
Qed.

Lemma round_half_even_le (q : Q) (z : Z) :
  (q <= inject_Z z)%Q -> round_half_even q <= z.
Proof.
  intros H.
  pose proof (round_half_even_near q) as [_ Hnear].
  assert (Hlt : (inject_Z (round_half_even q) < inject_Z (z + 1))%Q).
  { rewrite inject_Z_plus. change (inject_Z 1) with 1%Q. lra. }
  rewrite <- Zlt_Qlt in Hlt. lia.
Qed.

(** *** Rounding to a binary format *)

Lemma Qabs_pos_eq (q : Q) : (0 < q)%Q -> Qabs q = q.
Proof.
  destruct q as [n d]. unfold Qlt. cbn. intros H.
  rewrite Z.abs_eq by lia. reflexivity.
Qed.

Lemma Qabs_neg_eq (q : Q) : (q < 0)%Q -> Qabs q = (- q)%Q.
Proof.
  destruct q as [n d]. unfold Qlt. cbn. intros H.
  rewrite Z.abs_neq by lia. reflexivity.
Qed.

Lemma Qeqb_false (a b : Q) : Qeqb a b = false <-> ~ (a == b)%Q.
Proof.
  pose proof (Qeqb_true a b) as H.
  destruct (Qeqb a b); split; intros H'; try reflexivity; try discriminate.
  - exfalso. apply H'. now apply H.
  - intros Heq. apply H in Heq. discriminate.
Qed.

(** A positive number: the significand is rounded at the exponent of its
    binade, or at the least exponent. *)
Lemma round_binary_pos (prec emin emax : Z) (q : Q) :
  (0 < q)%Q ->
  round_binary prec emin emax q
  = if Qleb (2 ^ emax)
         (inject_Z
            (round_half_even (q / 2 ^ Z.max (ilog2 q - (prec - 1)) emin))
          * 2 ^ Z.max (ilog2 q - (prec - 1)) emin)
    then PInf
    else Fin (Qred
                (inject_Z
                   (round_half_even
                      (q / 2 ^ Z.max (ilog2 q - (prec - 1)) emin))
                 * 2 ^ Z.max (ilog2 q - (prec - 1)) emin)).
Proof.
  intros Hq. unfold round_binary.
  assert (E0 : Qeqb q 0 = false) by (apply Qeqb_false; lra).
  assert (E1 : Qltb q 0 = false) by (apply Qltb_false; lra).
  rewrite E0, E1, (Qabs_pos_eq q Hq). reflexivity.
Qed.

(** Rounding is odd: a negative number rounds as its opposite does. *)
Lemma round_binary_neg (prec emin emax : Z) (q : Q) :
  (q < 0)%Q ->
  round_binary prec emin emax q = neg (round_binary prec emin emax (- q)).
Proof.
  intros Hq.
  assert (Hpos : (0 < - q)%Q) by lra.
  rewrite (round_binary_pos prec emin emax (- q) Hpos).
  unfold round_binary.
  assert (E0 : Qeqb q 0 = false) by (apply Qeqb_false; lra).
  assert (E1 : Qltb q 0 = true) by (apply Qltb_true; lra).
  rewrite E0, E1, (Qabs_neg_eq q Hq).
  destruct (Qleb _ _); [ reflexivity | ].
  cbn [neg]. unfold fin. f_equal. apply Qred_complete.
  now rewrite Qred_correct.
Qed.

Lemma round_binary_zero (prec emin emax : Z) (q : Q) :
  (q == 0)%Q -> round_binary prec emin emax q = Fin 0.
Proof.
  intros Hq. unfold round_binary.
  assert (E0 : Qeqb q 0 = true) by (now apply Qeqb_true).
  now rewrite E0.
Qed.

(** The rounded significand is within half a unit of the exact one. *)
Lemma rounded_significand_near (q : Q) (e : Z) :
  (q - 2 ^ e * (1 # 2) <= inject_Z (round_half_even (q / 2 ^ e)) * 2 ^ e)%Q
  /\ (inject_Z (round_half_even (q / 2 ^ e)) * 2 ^ e <= q + 2 ^ e * (1 # 2))%Q.
Proof.
  pose proof (pow2_pos e) as He.
  destruct (round_half_even_near (q / 2 ^ e)) as [Hlow Hhigh].
  set (m := inject_Z (round_half_even (q / 2 ^ e))) in *.
  set (P := (2 ^ e)%Q) in *.
  assert (Hq : (q == q / P * P)%Q) by (field; lra).
  split.
  - assert (H : ((q / P - (1 # 2)) * P <= m * P)%Q)
      by (apply Qmult_le_compat_r; lra).
    assert (Heq : ((q / P - (1 # 2)) * P == q - P * (1 # 2))%Q) by (field; lra).
    lra.
  - assert (H : (m * P <= (q / P + (1 # 2)) * P)%Q)
      by (apply Qmult_le_compat_r; lra).
    assert (Heq : ((q / P + (1 # 2)) * P == q + P * (1 # 2))%Q) by (field; lra).
    lra.
Qed.

(** In the binade of [q] the unit is at most [q * 2 ^ (1 - prec)]. *)
Lemma unit_of_binade (prec : Z) (q : Q) :
  (0 < q)%Q -> (2 ^ (ilog2 q - (prec - 1)) <= q * 2 ^ (1 - prec))%Q.
Proof.
  intros Hq. destruct (ilog2_spec q Hq) as [Hlow _].
  replace (ilog2 q - (prec - 1)) with (ilog2 q + (1 - prec)) by lia.
  rewrite pow2_plus. apply Qmult_le_compat_r; [ exact Hlow | ].
  apply Qlt_le_weak, pow2_pos.
Qed.

(** *** Rounding to a double *)

(** The unit at which a positive number is rounded to a double. *)
Lemma double_unit (q : Q) :
  (0 < q)%Q ->
  (2 ^ Z.max (ilog2 q - (53 - 1)) (-1074) <= q * 2 ^ (-52) + 2 ^ (-1074))%Q
  /\ ((2 ^ (-1022) <= q)%Q ->
      (2 ^ Z.max (ilog2 q - (53 - 1)) (-1074) <= q * 2 ^ (-52))%Q).
Proof.
  intros Hq. pose proof (unit_of_binade 53 q Hq) as Hunit.
  change (1 - 53) with (-52) in Hunit.
  pose proof (pow2_pos (ilog2 q - (53 - 1))) as Hpos.
  split.
  - destruct (Z.max_spec (ilog2 q - (53 - 1)) (-1074)) as [[_ ->] | [_ ->]]; lra.
  - intros Hnormal. apply ilog2_ge in Hnormal.
    rewrite Z.max_l by lia. exact Hunit.
Qed.

(** A positive number rounds to a double within half a unit of it, or to
    [Infinity] when that double would be [2 ^ 1024] or more. *)
Lemma to_double_pos (q : Q) :
  (0 < q)%Q ->
  exists r : Q,
    (0 <= r)%Q
    /\ (q - (q * 2 ^ (-53) + 2 ^ (-1075)) <= r)%Q
    /\ (r <= q + (q * 2 ^ (-53) + 2 ^ (-1075)))%Q
    /\ ((2 ^ (-1022) <= q)%Q ->
        (q - q * 2 ^ (-53) <= r)%Q /\ (r <= q + q * 2 ^ (-53))%Q)
    /\ (((2 ^ 1024 <= r)%Q /\ to_double q = PInf)
        \/ ((r < 2 ^ 1024)%Q /\ to_double q = Fin r)).
Proof.
  intros Hq. unfold to_double. rewrite (round_binary_pos 53 (-1074) 1024 q Hq).
  destruct (double_unit q Hq) as [Hunit Hnormal].
  set (e := Z.max (ilog2 q - (53 - 1)) (-1074)) in *.
  destruct (rounded_significand_near q e) as [Hlow Hhigh].
  pose proof (pow2_pos e) as He.
  assert (Hm : 0 <= round_half_even (q / 2 ^ e)).
  { apply round_half_even_ge. change (inject_Z 0) with 0%Q.
    apply Qlt_le_weak, Qlt_shift_div_l; lra. }
  set (m := round_half_even (q / 2 ^ e)) in *.
  assert (Hr0 : (0 <= inject_Z m * 2 ^ e)%Q).
  { apply Qmult_le_0_compat; [ | lra ].
    change 0%Q with (inject_Z 0). now rewrite <- Zle_Qle. }
  set (r := (inject_Z m * 2 ^ e)%Q) in *.
  assert (Hred : (Qred r == r)%Q) by apply Qred_correct.
  clearbody r m. set (P := (2 ^ e)%Q) in *. clearbody P.
  destruct (Qleb (2 ^ 1024) r) eqn:E.
  - apply Qleb_true in E. exists r.
    split; [ lra | ]. split; [ lra | ]. split; [ lra | ]. split.
    + intros Hn. specialize (Hnormal Hn). split; lra.
    + left. now split.
  - apply Qleb_false in E. exists (Qred r).
    split; [ lra | ]. split; [ lra | ]. split; [ lra | ]. split.
    + intros Hn. specialize (Hnormal Hn). split; lra.
    + right. split; [ lra | reflexivity ].
Qed.

(** Zero is a double. *)
Lemma to_double_zero (q : Q) : (q == 0)%Q -> to_double q = of_Z 0.
Proof. intros Hq. unfold to_double. now rewrite round_binary_zero. Qed.

(** Rounding never yields NaN, and keeps the sign. *)
Lemma to_double_nonneg (q : Q) :
  (0 <= q)%Q ->
  to_double q = PInf \/ exists r, to_double q = Fin r /\ (0 <= r)%Q.
Proof.
  intros Hq. destruct (Qlt_le_dec 0 q) as [Hpos | Hle].
  - destruct (to_double_pos q Hpos) as (r & Hr & _ & _ & _ & [[_ E] | [_ E]]).
    + now left.
    + right. now exists r.
  - right. exists 0%Q. split; [ | lra ].
    apply to_double_zero. lra.
Qed.

Lemma to_double_opp (q : Q) :
  (q < 0)%Q -> to_double q = neg (to_double (- q)).
Proof. apply round_binary_neg. Qed.

Lemma to_double_nonpos (q : Q) :
  (q <= 0)%Q ->
  to_double q = NInf \/ exists r, to_double q = Fin r /\ (r <= 0)%Q.
Proof.
  intros Hq. destruct (Qlt_le_dec q 0) as [Hneg | Hle].
  - rewrite (to_double_opp q Hneg).
    assert (Hpos : (0 < - q)%Q) by lra.
    destruct (to_double_pos (- q) Hpos) as (r & Hr & _ & _ & _ & [[_ E] | [_ E]]);
      rewrite E.
    + now left.
    + right. exists (Qred (- r)). split; [ reflexivity | ].
      rewrite Qred_correct. lra.
  - right. exists 0%Q. split; [ | lra ].
    apply to_double_zero. lra.
Qed.

(** A number of at most [2 ^ 1023] does not overflow. *)
Lemma to_double_finite (q : Q) :
  (0 <= q)%Q -> (q <= 2 ^ 1023)%Q ->
  exists r,
    to_double q = Fin r
    /\ (0 <= r)%Q
    /\ (q - (q * 2 ^ (-53) + 2 ^ (-1075)) <= r)%Q
    /\ (r <= q + (q * 2 ^ (-53) + 2 ^ (-1075)))%Q
    /\ ((2 ^ (-1022) <= q)%Q ->
        (q - q * 2 ^ (-53) <= r)%Q /\ (r <= q + q * 2 ^ (-53))%Q).
Proof.
  intros Hq Hmax. destruct (Qlt_le_dec 0 q) as [Hpos | Hle].
  - destruct (to_double_pos q Hpos) as (r & Hr & Hl & Hh & Hn & [[Hbig _] | [_ E]]).
    + exfalso. lra.
    + exists r. split; [ exact E | ]. split; [ exact Hr | ].
      split; [ exact Hl | ]. split; [ exact Hh | exact Hn ].
  - exists 0%Q. split; [ apply to_double_zero; lra | ].
    split; [ lra | ]. split; [ lra | ]. split; [ lra | ].
    intros Hn. split; lra.
Qed.

(** From the least normal number on, the result is at least
    [q * (1 - 2 ^ (-53))], an overflow included. *)
Lemma to_double_normal (q : Q) :
  (2 ^ (-1022) <= q)%Q ->
  to_double q = PInf
  \/ exists r, to_double q = Fin r /\ (q - q * 2 ^ (-53) <= r)%Q.
Proof.
  intros Hn.
  assert (Hpos : (0 < q)%Q) by lra.
  destruct (to_double_pos q Hpos) as (r & _ & _ & _ & Hrel & [[_ E] | [_ E]]).
  - now left.
  - right. exists r. split; [ exact E | now apply Hrel ].
Qed.

(** Rounding depends on the value only, not on the fraction denoting it. *)
Lemma ilog2_comp (a a' : Q) : (0 < a)%Q -> (a == a')%Q -> ilog2 a = ilog2 a'.
Proof.
  intros Ha Heq.
  assert (Ha' : (0 < a')%Q) by (now rewrite <- Heq).
  destruct (ilog2_spec a' Ha') as [Hl Hh].
  apply ilog2_unique; now rewrite Heq.
Qed.

Lemma round_binary_comp (prec emin emax : Z) (q q' : Q) :
  (q == q')%Q -> round_binary prec emin emax q = round_binary prec emin emax q'.
Proof.
  intros Heq. unfold round_binary.
  assert (E0 : Qeqb q 0 = Qeqb q' 0).
  { unfold Qeqb. now rewrite (Qcompare_comp _ _ Heq _ _ (Qeq_refl 0)). }
  assert (E1 : Qltb q 0 = Qltb q' 0).
  { unfold Qltb. now rewrite (Qcompare_comp _ _ Heq _ _ (Qeq_refl 0)). }
  rewrite <- E0, <- E1.
  destruct (Qeqb q 0) eqn:Ez; [ reflexivity | ].
  apply Qeqb_false in Ez.
  assert (Habs : (Qabs q == Qabs q')%Q) by (now rewrite Heq).
  assert (Hpos : (0 < Qabs q)%Q).
  { destruct (Qlt_le_dec 0 (Qabs q)) as [H | H]; [ exact H | exfalso ].
    apply Ez. apply Qabs_Qle_condition in H. lra. }
  rewrite <- (ilog2_comp _ _ Hpos Habs).
  set (e := Z.max (ilog2 (Qabs q) - (prec - 1)) emin).
  assert (Hdiv : (Qabs q / 2 ^ e == Qabs q' / 2 ^ e)%Q) by (now rewrite Habs).
  rewrite <- (round_half_even_comp _ _ Hdiv).
  reflexivity.
Qed.

Lemma to_double_comp (q q' : Q) : (q == q')%Q -> to_double q = to_double q'.
Proof. apply round_binary_comp. Qed.

(** An integer below [2 ^ 53] in absolute value is a double. *)
Lemma to_double_natural (q : Q) (z : Z) :
  (q == inject_Z z)%Q -> 0 < z < 2 ^ 53 -> to_double q = of_Z z.
Proof.
  intros Hq Hz.
  assert (Hpos : (0 < q)%Q).
  { rewrite Hq. change 0%Q with (inject_Z 0). rewrite <- Zlt_Qlt. lia. }
  unfold to_double. rewrite (round_binary_pos 53 (-1074) 1024 q Hpos).
  assert (Hlow : 0 <= ilog2 q).
  { apply ilog2_ge. rewrite Hq. change (2 ^ 0)%Q with (inject_Z 1).
    rewrite <- Zle_Qle. lia. }
  assert (Hhigh : ilog2 q < 53).
  { apply ilog2_le; [ exact Hpos | ].
    rewrite Hq, <- pow2_inject by lia. rewrite <- Zlt_Qlt. lia. }
  rewrite Z.max_l by lia.
  set (j := 52 - ilog2 q).
  replace (ilog2 q - (53 - 1)) with (- j) by (unfold j; lia).
  assert (Hj : 0 <= j) by (unfold j; lia).
  pose proof (pow2_pos j) as Hpj.
  assert (Hinv : (2 ^ (- j) == / 2 ^ j)%Q) by apply Qpower_opp.
  assert (Hscaled : (q / 2 ^ (- j) == inject_Z (z * 2 ^ j))%Q).
  { rewrite inject_Z_mult, pow2_inject, Hinv, Hq by exact Hj. field. lra. }
  rewrite (round_half_even_integer _ _ Hscaled).
  assert (Hr : (inject_Z (z * 2 ^ j) * 2 ^ (- j) == inject_Z z)%Q).
  { rewrite inject_Z_mult, pow2_inject, Hinv by exact Hj. field. lra. }
  assert (E : Qleb (2 ^ 1024) (inject_Z (z * 2 ^ j) * 2 ^ (- j)) = false).
  { apply Qleb_false. rewrite Hr.
    apply Qlt_trans with (inject_Z (2 ^ 53)).
    - rewrite <- Zlt_Qlt. lia.
    - rewrite pow2_inject by lia. apply pow2_lt. lia. }
  rewrite E. unfold of_Z. f_equal. now apply Qred_inject_Z.
Qed.

Lemma to_double_integer (q : Q) (z : Z) :
  (q == inject_Z z)%Q -> - 2 ^ 53 < z < 2 ^ 53 -> to_double q = of_Z z.
Proof.
  intros Hq Hz.
  destruct (Z.lt_trichotomy z 0) as [Hneg | [-> | Hpos]].
  - assert (Hq' : (q < 0)%Q).
    { rewrite Hq. change 0%Q with (inject_Z 0). now rewrite <- Zlt_Qlt. }
    rewrite (to_double_opp q Hq').
    assert (Hopp : (- q == inject_Z (- z))%Q) by (rewrite inject_Z_opp, Hq; ring).
    rewrite (to_double_natural (- q) (- z) Hopp) by lia.
    cbn [neg of_Z]. unfold fin, of_Z. f_equal. apply Qred_inject_Z.
    rewrite inject_Z_opp. ring.
  - now apply to_double_zero.
  - apply to_double_natural; [ exact Hq | lia ].
Qed.

(** Rounding does not take a number below an integer that it is not
    below. *)
Lemma to_double_ge_integer (q : Q) (z : Z) :
  0 <= z < 2 ^ 53 -> (inject_Z z <= q)%Q ->
  to_double q = PInf
  \/ exists r, to_double q = Fin r /\ (inject_Z z <= r)%Q.
Proof.
  intros Hz Hq.
  destruct (Z.eq_dec z 0) as [-> | Hnz].
  { destruct (to_double_nonneg q Hq) as [E | (r & E & Hr)];
      [ now left | right; now exists r ]. }
  assert (Hz1 : (1 <= inject_Z z)%Q).
  { change 1%Q with (inject_Z 1). rewrite <- Zle_Qle. lia. }
  assert (Hz53 : (inject_Z z <= 2 ^ 53 - 1)%Q).
  { assert (H : (inject_Z z <= inject_Z (2 ^ 53 - 1))%Q)
      by (rewrite <- Zle_Qle; lia).
    replace (2 ^ 53 - 1) with (2 ^ 53 + - (1)) in H by lia.
    rewrite inject_Z_plus, inject_Z_opp, pow2_inject in H by lia.
    change (inject_Z 1) with 1%Q in H. lra. }
  assert (Hpos : (0 < q)%Q) by lra.
  unfold to_double. rewrite (round_binary_pos 53 (-1074) 1024 q Hpos).
  set (e := Z.max (ilog2 q - (53 - 1)) (-1074)).
  destruct (rounded_significand_near q e) as [Hnear _].
  set (r := (inject_Z (round_half_even (q / 2 ^ e)) * 2 ^ e)%Q) in *.
  assert (Hr : (inject_Z z <= r)%Q).
  { destruct (Z.le_gt_cases e 0) as [He | He].
    - set (j := - e). assert (Hj : 0 <= j) by (unfold j; lia).
      pose proof (pow2_pos j) as Hpj. pose proof (pow2_pos e) as Hpe.
      assert (Hinv : (2 ^ e == / 2 ^ j)%Q).
      { replace e with (- j) by (unfold j; lia). apply Qpower_opp. }
      assert (Hscaled : (inject_Z (z * 2 ^ j) <= q / 2 ^ e)%Q).
      { rewrite inject_Z_mult, pow2_inject, Hinv by exact Hj.
        assert (Heq : (q / / 2 ^ j == q * 2 ^ j)%Q) by (field; lra).
        rewrite Heq. apply Qmult_le_compat_r; lra. }
      apply round_half_even_ge in Hscaled.
      rewrite Zle_Qle, inject_Z_mult, pow2_inject in Hscaled by exact Hj.
      unfold r.
      assert (Heq : (inject_Z z == inject_Z z * 2 ^ j * 2 ^ e)%Q).
      { rewrite Hinv. field. lra. }
      rewrite Heq. apply Qmult_le_compat_r; lra.
    - assert (Hlog : ilog2 q - (53 - 1) = e) by (unfold e; lia).
      destruct (ilog2_spec q Hpos) as [Hlow _].
      replace (ilog2 q) with (e + 52) in Hlow by lia.
      rewrite pow2_plus in Hlow.
      assert (Hp : (2 ^ 1 <= 2 ^ e)%Q) by (apply pow2_le; lia).
      change (2 ^ 1)%Q with 2%Q in Hp.
      clearbody r. set (P := (2 ^ e)%Q) in *. clearbody P. lra. }
  destruct (Qleb (2 ^ 1024) r); [ now left | right ].
  exists (Qred r). split; [ reflexivity | ]. now rewrite Qred_correct.
Qed.

(** ** Index resolution with exact operations *)

(** The table index, before it is turned into an offset: the floor of the
    scaled position, kept inside [0, L - 1]. *)
Lemma getColorMapIndex_fin (v mn mx inc : Q) (clamp flip : bool) (L : Z) :
  getColorMapIndex (Fin v) (Fin mn) (Fin mx) (Fin inc) clamp flip (of_Z L) =
  if (Qltb v mn || Qltb mx v) && negb clamp then of_Z (-1)
  else
    let k := Z.max 0 (Z.min (Qfloor ((v - mn) * inc)) (L - 1)) in
    of_Z ((if flip then L - 1 - k else k) * 4).
Proof.
  unfold getColorMapIndex, gt. rewrite !lt_Fin.
  destruct ((Qltb v mn || Qltb mx v) && negb clamp); [ reflexivity | ].
  cbv zeta.
  set (k := Z.max 0 (Z.min (Qfloor ((v - mn) * inc)) (L - 1))).
  assert (Hk : floor (JsNum.max (of_Z 0)
                   (JsNum.min ((Fin v - Fin mn) * Fin inc)
                              (of_Z L - of_Z 1)))%js = of_Z k).
  { rewrite sub_of_Z.
    unfold sub, neg, add, mul, fin.
    set (e := Qred (Qred (v + Qred (- mn)) * inc)).
    assert (He : (e == (v - mn) * inc)%Q).
    { unfold e. rewrite !Qred_correct. reflexivity. }
    unfold k. rewrite <- (Qfloor_comp _ _ He).
    unfold JsNum.min, of_Z. rewrite lt_Fin.
    destruct (Qltb (inject_Z (L - 1)) e) eqn:E1.
    - apply Qltb_true in E1.
      assert (L - 1 <= Qfloor e) by (apply Qfloor_ge_int; now apply Qlt_le_weak).
      unfold JsNum.max. rewrite lt_Fin.
      destruct (Qltb (inject_Z 0) (inject_Z (L - 1))) eqn:E2.
      + apply Qltb_true in E2. rewrite <- Zlt_Qlt in E2.
        cbn [floor]. unfold of_Z. rewrite Qfloor_Z. f_equal. f_equal. lia.
      + apply Qltb_false in E2. rewrite <- Zle_Qle in E2.
        cbn [floor]. unfold of_Z. rewrite Qfloor_Z. f_equal. f_equal. lia.
    - apply Qltb_false in E1.
      assert (Qfloor e <= L - 1) by now apply Qfloor_le_int.
      unfold JsNum.max. rewrite lt_Fin.
      destruct (Qltb (inject_Z 0) e) eqn:E2.
      + apply Qltb_true in E2.
        assert (0 <= Qfloor e) by (apply Qfloor_ge_int; now apply Qlt_le_weak).
        cbn [floor]. unfold of_Z. f_equal. f_equal. lia.
      + apply Qltb_false in E2.
        assert (Qfloor e <= 0) by now apply Qfloor_le_int.
        cbn [floor]. unfold of_Z. rewrite Qfloor_Z. f_equal. f_equal. lia. }
  rewrite Hk. destruct flip.
  - now rewrite !sub_of_Z, mul_of_Z.
  - now rewrite mul_of_Z.
Qed.

(** Outside the two label windows [mapColors] uses the plain increment. *)
Lemma mapColors_increment_plain (mn mx len : jsnum) :
  ((mn === of_Z 0) && ((mx === of_Z 17) || (mx === of_Z 18)))%js = false ->
  mapColors_increment mn mx len = (len / (mx - mn))%js.
Proof. intros H. unfold mapColors_increment. now rewrite H. Qed.

(** ** Index resolution in double precision *)

(** *** The operations on doubles *)

Lemma double_sub_fin (x y : Q) :
  Double.sub (Fin x) (Fin y) = to_double (x - y).
Proof.
  unfold Double.sub, Double.add, neg, fin. apply to_double_comp.
  rewrite Qred_correct. reflexivity.
Qed.

Lemma double_sub_of_Z (a b : Z) :
  - 2 ^ 53 < a - b < 2 ^ 53 -> Double.sub (of_Z a) (of_Z b) = of_Z (a - b).
Proof.
  intros H. unfold of_Z at 1 2. rewrite double_sub_fin.
  apply to_double_integer; [ | exact H ].
  unfold Z.sub. rewrite inject_Z_plus, inject_Z_opp. reflexivity.
Qed.

Lemma double_mul_of_Z (a b : Z) :
  - 2 ^ 53 < a * b < 2 ^ 53 -> Double.mul (of_Z a) (of_Z b) = of_Z (a * b).
Proof.
  intros H. unfold Double.mul, of_Z at 1 2.
  apply to_double_integer; [ | exact H ].
  now rewrite inject_Z_mult.
Qed.

(** The table entry of a scaled position: its floor, kept inside
    [0, L - 1]; the two infinities go to the two ends. *)
Lemma double_entry (p : jsnum) (L k : Z) (flip : bool) :
  1 <= L <= 2 ^ 32 ->
  match p with
  | Fin a => k = Z.max 0 (Z.min (Qfloor a) (L - 1))
  | PInf => k = L - 1
  | NInf => k = 0
  | NaN => False
  end ->
  Double.mul
    (if flip
     then Double.sub (Double.sub (of_Z L) (of_Z 1))
            (floor (JsNum.max (of_Z 0)
                      (JsNum.min p (Double.sub (of_Z L) (of_Z 1)))))
     else floor (JsNum.max (of_Z 0)
                   (JsNum.min p (Double.sub (of_Z L) (of_Z 1)))))
    (of_Z 4)
  = of_Z ((if flip then L - 1 - k else k) * 4).
Proof.
  intros HL Hk.
  assert (H32 : 2 ^ 32 = 4294967296) by reflexivity.
  assert (H53 : 2 ^ 53 = 9007199254740992) by reflexivity.
  rewrite double_sub_of_Z by lia.
  assert (Hfloor : floor (JsNum.max (of_Z 0) (JsNum.min p (of_Z (L - 1))))
                   = of_Z k /\ 0 <= k <= L - 1).
  { destruct p as [a | | | ]; [ | | | contradiction ].
    - subst k. split; [ | lia ].
      unfold JsNum.min, of_Z. rewrite lt_Fin.
      destruct (Qltb (inject_Z (L - 1)) a) eqn:E1.
      + apply Qltb_true in E1.
        assert (L - 1 <= Qfloor a) by (apply Qfloor_ge_int; now apply Qlt_le_weak).
        unfold JsNum.max. rewrite lt_Fin.
        destruct (Qltb (inject_Z 0) (inject_Z (L - 1))) eqn:E2.
        * cbn [floor]. unfold of_Z. rewrite Qfloor_Z. f_equal. f_equal. lia.
        * apply Qltb_false in E2. rewrite <- Zle_Qle in E2.
          cbn [floor]. unfold of_Z. rewrite Qfloor_Z. f_equal. f_equal. lia.
      + apply Qltb_false in E1.
        assert (Qfloor a <= L - 1) by now apply Qfloor_le_int.
        unfold JsNum.max. rewrite lt_Fin.
        destruct (Qltb (inject_Z 0) a) eqn:E2.
        * apply Qltb_true in E2.
          assert (0 <= Qfloor a) by (apply Qfloor_ge_int; now apply Qlt_le_weak).
          cbn [floor]. unfold of_Z. f_equal. f_equal. lia.
        * apply Qltb_false in E2.
          assert (Qfloor a <= 0) by now apply Qfloor_le_int.
          cbn [floor]. unfold of_Z. rewrite Qfloor_Z. f_equal. f_equal. lia.
    - subst k. split; [ | lia ].
      unfold JsNum.min, of_Z. cbn [lt].
      unfold JsNum.max. rewrite lt_Fin.
      destruct (Qltb (inject_Z 0) (inject_Z (L - 1))) eqn:E2.
      + cbn [floor]. unfold of_Z. now rewrite Qfloor_Z.
      + apply Qltb_false in E2. rewrite <- Zle_Qle in E2.
        cbn [floor]. unfold of_Z. rewrite Qfloor_Z. f_equal. f_equal. lia.
    - subst k. split; [ | lia ].
      unfold JsNum.min, JsNum.max, of_Z. cbn [lt floor].
      unfold of_Z. now rewrite Qfloor_Z. }
  destruct Hfloor as [-> Hrange].
  destruct flip.
  - rewrite double_sub_of_Z by lia. rewrite double_mul_of_Z by lia. reflexivity.
  - rewrite double_mul_of_Z by lia. reflexivity.
Qed.

(** [getColorMapIndex] on a value that is resolved: inside the window, or
    clamped. *)
Lemma double_index_resolved
    (v mn mx : Q) (inc : jsnum) (clamp flip : bool) (L k : Z) :
  1 <= L <= 2 ^ 32 ->
  (Qltb v mn || Qltb mx v) && negb clamp = false ->
  match Double.mul (Double.sub (Fin v) (Fin mn)) inc with
  | Fin a => k = Z.max 0 (Z.min (Qfloor a) (L - 1))
  | PInf => k = L - 1
  | NInf => k = 0
  | NaN => False
  end ->
  Double.getColorMapIndex (Fin v) (Fin mn) (Fin mx) inc clamp flip (of_Z L)
  = of_Z ((if flip then L - 1 - k else k) * 4).
Proof.
  intros HL Hin Hk. unfold Double.getColorMapIndex, gt. rewrite !lt_Fin, Hin.
  cbv zeta. now apply double_entry.
Qed.

Lemma double_index_sentinel
    (v mn mx : Q) (inc : jsnum) (flip : bool) (len : jsnum) :
  (v < mn)%Q \/ (mx < v)%Q ->
  Double.getColorMapIndex (Fin v) (Fin mn) (Fin mx) inc false flip len
  = of_Z (-1).
Proof.
  intros Hout. unfold Double.getColorMapIndex, gt. rewrite !lt_Fin.
  assert (E : Qltb v mn || Qltb mx v = true).
  { apply orb_true_iff. destruct Hout; [ left | right ]; now apply Qltb_true. }
  now rewrite E.
Qed.

(** The increment of a window whose width is neither tiny nor huge: a
    positive double within [2 ^ (-51)] of [L / (max - min)], relatively. *)
Lemma double_window_increment (L : Z) (mn mx : Q) :
  1 <= L <= 2 ^ 32 ->
  (2 ^ (-900) <= mx - mn)%Q -> (mx - mn <= 2 ^ 900)%Q ->
  exists q,
    Double.window_increment (Fin mn) (Fin mx) (of_Z L) = Fin q
    /\ (0 < q)%Q
    /\ (q <= 2 ^ 934)%Q
    /\ (inject_Z L * (1 - 2 ^ (-51)) <= q * (mx - mn))%Q
    /\ (q * (mx - mn) <= inject_Z L * (1 + 2 ^ (-51)))%Q.
Proof.
  intros HL Hlow Hhigh.
  assert (HL1 : (1 <= inject_Z L)%Q).
  { change 1%Q with (inject_Z 1). rewrite <- Zle_Qle. lia. }
  assert (HL2 : (inject_Z L <= 2 ^ 32)%Q).
  { rewrite <- pow2_inject by lia. rewrite <- Zle_Qle. lia. }
  unfold Double.window_increment. rewrite double_sub_fin.
  set (R := (mx - mn)%Q) in *. clearbody R.
  destruct (to_double_finite R) as (R' & -> & _ & _ & _ & Hrel); [ lra | lra | ].
  destruct Hrel as [HR1 HR2]; [ lra | ].
  assert (HR' : (0 < R')%Q) by lra.
  unfold Double.div, of_Z.
  assert (E : Qeqb R' 0 = false) by (apply Qeqb_false; lra).
  rewrite E.
  set (D := (inject_Z L / R')%Q).
  assert (HD : (D * R' == inject_Z L)%Q) by (unfold D; field; lra).
  assert (HD0 : (0 < D)%Q) by (unfold D; apply Qlt_shift_div_l; lra).
  clearbody D. set (l := inject_Z L) in *. clearbody l.
  assert (HDmax : (D <= 2 ^ 933)%Q).
  { assert (H : (D * 2 ^ (-901) <= D * R')%Q)
      by (apply Qmult_le_l; [ exact HD0 | lra ]).
    lra. }
  assert (HDmin : (2 ^ (-902) <= D)%Q).
  { assert (H : (D * R' <= D * 2 ^ 901)%Q)
      by (apply Qmult_le_l; [ exact HD0 | lra ]).
    lra. }
  destruct (to_double_finite D) as (q & -> & _ & _ & _ & Hrel); [ lra | lra | ].
  destruct Hrel as [Hq1 Hq2]; [ lra | ].
  exists q. split; [ reflexivity | ]. split; [ lra | ]. split; [ lra | ].
  assert (HR0 : (0 < R)%Q) by lra.
  assert (T1 : (D * R * (1 - 2 ^ (-53)) <= l)%Q).
  { assert (H : (D * (R - R * 2 ^ (-53)) <= D * R')%Q)
      by (apply Qmult_le_l; [ exact HD0 | lra ]).
    lra. }
  assert (T2 : (l <= D * R * (1 + 2 ^ (-53)))%Q).
  { assert (H : (D * R' <= D * (R + R * 2 ^ (-53)))%Q)
      by (apply Qmult_le_l; [ exact HD0 | lra ]).
    lra. }
  assert (T3 : (q * R <= (D + D * 2 ^ (-53)) * R)%Q)
    by (apply Qmult_le_compat_r; lra).
  assert (T4 : ((D - D * 2 ^ (-53)) * R <= q * R)%Q)
    by (apply Qmult_le_compat_r; lra).
  split; lra.
Qed.

(** *** The scaled position of a value *)

Lemma to_double_cases (q : Q) :
  to_double q = PInf \/ to_double q = NInf \/ exists r, to_double q = Fin r.
Proof.
  destruct (Qlt_le_dec q 0) as [Hneg | Hpos].
  - destruct (to_double_nonpos q) as [E | (r & E & _)]; [ lra | auto | ].
    right. right. now exists r.
  - destruct (to_double_nonneg q Hpos) as [E | (r & E & _)]; [ auto | ].
    right. right. now exists r.
Qed.

Lemma to_double_bounded (q : Q) :
  (Qabs q <= 2 ^ 1023)%Q -> exists r, to_double q = Fin r.
Proof.
  intros Hq. apply Qabs_Qle_condition in Hq. destruct Hq as [Hlow Hhigh].
  destruct (Qlt_le_dec q 0) as [Hneg | Hpos].
  - rewrite (to_double_opp q Hneg).
    destruct (to_double_finite (- q)) as (r & -> & _); [ lra | lra | ].
    now exists (Qred (- r)).
  - destruct (to_double_finite q Hpos Hhigh) as (r & -> & _). now exists r.
Qed.

(** A value at or below [min], scaled by a positive increment, lands on
    the first entry. *)
Lemma double_position_low (L : Z) (mn v q : Q) :
  1 <= L -> (v <= mn)%Q -> (0 < q)%Q ->
  match Double.mul (Double.sub (Fin v) (Fin mn)) (Fin q) with
  | Fin a => 0 = Z.max 0 (Z.min (Qfloor a) (L - 1))
  | PInf => 0 = L - 1
  | NInf => 0 = 0
  | NaN => False
  end.
Proof.
  intros HL Hv Hq. rewrite double_sub_fin.
  destruct (to_double_nonpos (v - mn)) as [-> | (d & -> & Hd)]; [ lra | | ].
  - cbn [Double.mul JsNum.mul]. unfold inf_times.
    assert (E : (q ?= 0)%Q = Gt) by (now apply Qgt_alt).
    now rewrite E.
  - unfold Double.mul.
    destruct (to_double_nonpos (d * q)) as [-> | (a & -> & Ha)].
    + assert (H : (d * q <= 0 * q)%Q) by (apply Qmult_le_compat_r; lra). lra.
    + reflexivity.
    + assert (Hf : Qfloor a <= 0) by (now apply Qfloor_le_int). lia.
Qed.

(** A value at or above [max], scaled by the increment of the window, lands
    on the last entry. *)
Lemma double_position_high (L : Z) (mn mx v q : Q) :
  1 <= L <= 2 ^ 32 ->
  (2 ^ (-900) <= mx - mn)%Q -> (mx <= v)%Q ->
  (0 < q)%Q -> (inject_Z L * (1 - 2 ^ (-51)) <= q * (mx - mn))%Q ->
  match Double.mul (Double.sub (Fin v) (Fin mn)) (Fin q) with
  | Fin a => L - 1 = Z.max 0 (Z.min (Qfloor a) (L - 1))
  | PInf => L - 1 = L - 1
  | NInf => L - 1 = 0
  | NaN => False
  end.
Proof.
  intros HL Hlow Hv Hq Hinc. rewrite double_sub_fin.
  assert (HL1 : (1 <= inject_Z L)%Q).
  { change 1%Q with (inject_Z 1). rewrite <- Zle_Qle. lia. }
  assert (HL2 : (inject_Z L <= 2 ^ 32)%Q).
  { rewrite <- pow2_inject by lia. rewrite <- Zle_Qle. lia. }
  set (R := (mx - mn)%Q) in *.
  assert (Ht : (R <= v - mn)%Q) by (unfold R; lra).
  clearbody R. set (t := (v - mn)%Q) in *. clearbody t.
  destruct (to_double_normal t) as [-> | (d & -> & Hd)]; [ lra | | ].
  - cbn [Double.mul JsNum.mul]. unfold inf_times.
    assert (E : (q ?= 0)%Q = Gt) by (now apply Qgt_alt).
    now rewrite E.
  - unfold Double.mul.
    assert (Hprod : (inject_Z L * (1 - 2 ^ (-51)) * (1 - 2 ^ (-53)) <= d * q)%Q).
    { assert (H : ((R - R * 2 ^ (-53)) * q <= d * q)%Q)
        by (apply Qmult_le_compat_r; lra).
      lra. }
    set (l := inject_Z L) in *.
    destruct (to_double_normal (d * q)) as [-> | (a & -> & Ha)]; [ lra | reflexivity | ].
    assert (Hlast : (inject_Z (L - 1) <= a)%Q).
    { unfold Z.sub. rewrite inject_Z_plus, inject_Z_opp. fold l.
      change (inject_Z 1) with 1%Q. clearbody l.
      set (P := (d * q)%Q) in *. clearbody P. lra. }
    apply Qfloor_ge_int in Hlast. lia.
Qed.

(** With increment 1 and [min = 0], a value of at least [L - 1] lands on
    the last entry. *)
Lemma double_position_unit (L : Z) (mn v : Q) :
  1 <= L <= 2 ^ 32 -> (mn == 0)%Q -> (inject_Z L - 1 <= v)%Q ->
  match Double.mul (Double.sub (Fin v) (Fin mn)) (of_Z 1) with
  | Fin a => L - 1 = Z.max 0 (Z.min (Qfloor a) (L - 1))
  | PInf => L - 1 = L - 1
  | NInf => L - 1 = 0
  | NaN => False
  end.
Proof.
  intros HL Hmn Hv. rewrite double_sub_fin.
  assert (H32 : 2 ^ 32 = 4294967296) by reflexivity.
  assert (H53 : 2 ^ 53 = 9007199254740992) by reflexivity.
  assert (Ht : (inject_Z (L - 1) <= v - mn)%Q).
  { unfold Z.sub. rewrite inject_Z_plus, inject_Z_opp.
    change (inject_Z 1) with 1%Q. lra. }
  destruct (to_double_ge_integer (v - mn) (L - 1)) as [-> | (d & -> & Hd)];
    [ lia | exact Ht | reflexivity | ].
  unfold Double.mul, of_Z.
  assert (Hd1 : (inject_Z (L - 1) <= d * inject_Z 1)%Q).
  { change (inject_Z 1) with 1%Q. lra. }
  destruct (to_double_ge_integer (d * inject_Z 1) (L - 1)) as [-> | (a & -> & Ha)];
    [ lia | exact Hd1 | reflexivity | ].
  apply Qfloor_ge_int in Ha. lia.
Qed.

(** Whatever is not NaN has an entry. *)
Lemma position_has_entry (p : jsnum) (L : Z) :
  1 <= L -> p <> NaN ->
  exists k, 0 <= k <= L - 1
    /\ match p with
       | Fin a => k = Z.max 0 (Z.min (Qfloor a) (L - 1))
       | PInf => k = L - 1
       | NInf => k = 0
       | NaN => False
       end.
Proof.
  intros HL Hp. destruct p as [a | | | ].
  - exists (Z.max 0 (Z.min (Qfloor a) (L - 1))). split; [ lia | reflexivity ].
  - exists (L - 1). split; [ lia | reflexivity ].
  - exists 0. split; [ lia | reflexivity ].
  - contradiction.
Qed.

(** The scaled position is NaN only when the difference overflows and the
    increment is zero. *)
Lemma double_position_not_nan (v mn inc : Q) :
  ~ (inc == 0)%Q \/ (Qabs (v - mn) <= 2 ^ 1023)%Q ->
  Double.mul (Double.sub (Fin v) (Fin mn)) (Fin inc) <> NaN.
Proof.
  intros H. rewrite double_sub_fin.
  assert (Hfin : forall d, Double.mul (Fin d) (Fin inc) <> NaN).
  { intros d. unfold Double.mul.
    destruct (to_double_cases (d * inc)) as [-> | [-> | (r & ->)]]; discriminate. }
  destruct H as [Hinc | Hbound].
  - destruct (to_double_cases (v - mn)) as [-> | [-> | (d & ->)]];
      [ | | apply Hfin ];
      cbn [Double.mul JsNum.mul]; unfold inf_times;
      destruct (Qcompare_spec inc 0) as [E | E | E];
      try discriminate; contradiction.
  - destruct (to_double_bounded _ Hbound) as (d & ->). apply Hfin.
Qed.

(** *** Positions inside the window *)

Lemma Qmult_le_left (x y z : Q) :
  (0 <= z)%Q -> (x <= y)%Q -> (z * x <= z * y)%Q.
Proof.
  intros Hz Hxy. rewrite (Qmult_comm z x), (Qmult_comm z y).
  now apply Qmult_le_compat_r.
Qed.

(** The entry of a position does not change when the position is moved by
    less than its distance to the interior bin boundaries. *)
Lemma entry_stable (L : Z) (x a m : Q) :
  1 <= L -> (0 <= x)%Q -> (x <= inject_Z L)%Q ->
  (x - m <= a)%Q -> (a <= x + m)%Q ->
  (forall k, 1 <= k <= L - 1 -> (m < Qabs (x - inject_Z k))%Q) ->
  Z.max 0 (Z.min (Qfloor a) (L - 1)) = Z.max 0 (Z.min (Qfloor x) (L - 1)).
Proof.
  intros HL Hx0 HxL Hlow Hhigh Hmargin.
  pose proof (Qfloor_le x) as Hf1. pose proof (Qlt_floor x) as Hf2.
  rewrite inject_Z_plus in Hf2. change (inject_Z 1) with 1%Q in Hf2.
  assert (Hf0 : 0 <= Qfloor x) by (apply Qfloor_ge_int; exact Hx0).
  assert (HfL : Qfloor x <= L) by (apply Qfloor_le_int; exact HxL).
  set (f := Qfloor x) in *. clearbody f.
  set (T := Z.min f (L - 1)).
  assert (HT : (inject_Z T <= x)%Q).
  { apply Qle_trans with (inject_Z f); [ | exact Hf1 ].
    rewrite <- Zle_Qle. unfold T. lia. }
  assert (Hbelow : 1 <= T -> T <= Qfloor a).
  { intros H1. apply Qfloor_ge_int.
    specialize (Hmargin T ltac:(unfold T in *; lia)).
    rewrite Qabs_pos in Hmargin by lra. lra. }
  assert (Habove : T < L - 1 -> Qfloor a <= T).
  { intros H1.
    assert (HTf : T = f) by (unfold T in *; lia).
    specialize (Hmargin (T + 1) ltac:(unfold T in *; lia)).
    rewrite inject_Z_plus in Hmargin. change (inject_Z 1) with 1%Q in Hmargin.
    rewrite Qabs_neg in Hmargin by (rewrite HTf; lra).
    assert (Hlt : (a < inject_Z (T + 1))%Q).
    { rewrite inject_Z_plus. change (inject_Z 1) with 1%Q. lra. }
    pose proof (Qfloor_le a) as Ha.
    assert (Hlt' : (inject_Z (Qfloor a) < inject_Z (T + 1))%Q) by lra.
    rewrite <- Zlt_Qlt in Hlt'. lia. }
  fold T. unfold T in *. lia.
Qed.

(** Away from the interior bin boundaries, the entries of a position and of
    its mirror image add up to [L - 1]. *)
Lemma entries_mirror (L : Z) (x : Q) :
  1 <= L -> (0 <= x)%Q -> (x <= inject_Z L)%Q ->
  (forall k, 1 <= k <= L - 1 -> ~ (x == inject_Z k)%Q) ->
  Z.max 0 (Z.min (Qfloor (inject_Z L - x)) (L - 1))
  = L - 1 - Z.max 0 (Z.min (Qfloor x) (L - 1)).
Proof.
  intros HL Hx0 HxL Hbin.
  pose proof (Qfloor_le x) as Hf1. pose proof (Qlt_floor x) as Hf2.
  pose proof (Qfloor_le (inject_Z L - x)) as Hg1.
  pose proof (Qlt_floor (inject_Z L - x)) as Hg2.
  set (f := Qfloor x) in *. set (g := Qfloor (inject_Z L - x)) in *.
  rewrite inject_Z_plus in Hf2, Hg2. change (inject_Z 1) with 1%Q in Hf2, Hg2.
  assert (Hf0 : 0 <= f) by (apply Qfloor_ge_int; exact Hx0).
  assert (HfL : f <= L) by (apply Qfloor_le_int; exact HxL).
  assert (Hg0 : 0 <= g) by (apply Qfloor_ge_int; change (inject_Z 0) with 0%Q; lra).
  assert (HgL : g <= L) by (apply Qfloor_le_int; lra).
  assert (Hsum : f + g = L - 1 \/ (x == inject_Z f)%Q).
  { destruct (Qlt_le_dec (inject_Z f) x) as [Hstrict | Hle].
    - left.
      assert (H1 : (inject_Z (f + g) < inject_Z L)%Q).
      { rewrite inject_Z_plus. lra. }
      assert (H2 : (inject_Z L < inject_Z (f + g + 2))%Q).
      { rewrite !inject_Z_plus. change (inject_Z 2) with 2%Q. lra. }
      rewrite <- Zlt_Qlt in H1, H2. lia.
    - right. lra. }
  destruct Hsum as [Hsum | Hint].
  - lia.
  - assert (Hg : g = L - f).
    { unfold g. rewrite <- (Qfloor_Z (L - f)). apply Qfloor_comp.
      unfold Z.sub. rewrite inject_Z_plus, inject_Z_opp. lra. }
    destruct (Z.eq_dec f 0) as [Hz | Hnz]; [ lia | ].
    destruct (Z.eq_dec f L) as [Hl | HnL]; [ lia | ].
    exfalso. apply (Hbin f); [ lia | exact Hint ].
Qed.

(** The scaled position of a value inside the window, as computed, is
    within [L * 2 ^ (-50)] of the exact [(value - min) * L / (max - min)]. *)
Lemma double_position_inside (L : Z) (mn mx v q : Q) :
  1 <= L <= 2 ^ 32 ->
  (2 ^ (-900) <= mx - mn)%Q -> (mx - mn <= 2 ^ 900)%Q ->
  (mn <= v)%Q -> (v <= mx)%Q ->
  (0 < q)%Q -> (q <= 2 ^ 934)%Q ->
  (inject_Z L * (1 - 2 ^ (-51)) <= q * (mx - mn))%Q ->
  (q * (mx - mn) <= inject_Z L * (1 + 2 ^ (-51)))%Q ->
  exists a,
    Double.mul (Double.sub (Fin v) (Fin mn)) (Fin q) = Fin a
    /\ ((v - mn) * (inject_Z L / (mx - mn)) - inject_Z L * 2 ^ (-50) <= a)%Q
    /\ (a <= (v - mn) * (inject_Z L / (mx - mn)) + inject_Z L * 2 ^ (-50))%Q.
Proof.
  intros HL Hlow Hhigh Hv1 Hv2 Hq Hqmax Hinc1 Hinc2.
  assert (HL1 : (1 <= inject_Z L)%Q).
  { change 1%Q with (inject_Z 1). rewrite <- Zle_Qle. lia. }
  assert (HL2 : (inject_Z L <= 2 ^ 32)%Q).
  { rewrite <- pow2_inject by lia. rewrite <- Zle_Qle. lia. }
  rewrite double_sub_fin.
  set (R := (mx - mn)%Q) in *.
  assert (Ht0 : (0 <= v - mn)%Q) by lra.
  assert (HtR : (v - mn <= R)%Q) by (unfold R; lra).
  clearbody R. set (t := (v - mn)%Q) in *. clearbody t.
  set (l := inject_Z L) in *. clearbody l.
  assert (HR0 : (0 < R)%Q) by lra.
  (* the share of the window below the value *)
  set (s := (t / R)%Q).
  assert (Hs : (t == s * R)%Q) by (unfold s; field; lra).
  assert (Hs0 : (0 <= s)%Q) by (unfold s; apply Qle_shift_div_l; lra).
  assert (Hs1 : (s <= 1)%Q) by (unfold s; apply Qle_shift_div_r; lra).
  assert (Hx : (t * (l / R) == s * l)%Q) by (unfold s; field; lra).
  clearbody s.
  (* the exact product of the difference and the increment *)
  assert (HW1 : (s * (l * (1 - 2 ^ (-51))) <= t * q)%Q).
  { assert (H : (s * (l * (1 - 2 ^ (-51))) <= s * (q * R))%Q)
      by (apply Qmult_le_left; lra).
    assert (Heq : (t * q == s * (q * R))%Q) by (rewrite Hs; ring).
    lra. }
  assert (HW2 : (t * q <= s * (l * (1 + 2 ^ (-51))))%Q).
  { assert (H : (s * (q * R) <= s * (l * (1 + 2 ^ (-51))))%Q)
      by (apply Qmult_le_left; lra).
    assert (Heq : (t * q == s * (q * R))%Q) by (rewrite Hs; ring).
    lra. }
  assert (HX0 : (0 <= s * l)%Q) by (apply Qmult_le_0_compat; lra).
  assert (HX1 : (s * l <= l)%Q).
  { assert (H : (s * l <= 1 * l)%Q) by (apply Qmult_le_compat_r; lra). lra. }
  (* the least positive double, scaled *)
  assert (Heta : (2 ^ (-1075) * q <= 2 ^ (-141))%Q).
  { assert (H : (2 ^ (-1075) * q <= 2 ^ (-1075) * 2 ^ 934)%Q)
      by (apply Qmult_le_left; lra).
    lra. }
  assert (Heta0 : (0 <= 2 ^ (-1075) * q)%Q)
    by (apply Qmult_le_0_compat; lra).
  destruct (to_double_finite t) as (d & -> & Hd0 & Hd1 & Hd2 & _); [ lra | lra | ].
  unfold Double.mul.
  assert (HP1 : ((t - (t * 2 ^ (-53) + 2 ^ (-1075))) * q <= d * q)%Q)
    by (apply Qmult_le_compat_r; lra).
  assert (HP2 : (d * q <= (t + (t * 2 ^ (-53) + 2 ^ (-1075))) * q)%Q)
    by (apply Qmult_le_compat_r; lra).
  assert (HP0 : (0 <= d * q)%Q) by (apply Qmult_le_0_compat; lra).
  set (W := (t * q)%Q) in *.
  assert (HPl : (W - (W * 2 ^ (-53) + 2 ^ (-1075) * q) <= d * q)%Q).
  { assert (Heq : ((t - (t * 2 ^ (-53) + 2 ^ (-1075))) * q
                   == W - (W * 2 ^ (-53) + 2 ^ (-1075) * q))%Q)
      by (unfold W; ring).
    lra. }
  assert (HPh : (d * q <= W + (W * 2 ^ (-53) + 2 ^ (-1075) * q))%Q).
  { assert (Heq : ((t + (t * 2 ^ (-53) + 2 ^ (-1075))) * q
                   == W + (W * 2 ^ (-53) + 2 ^ (-1075) * q))%Q)
      by (unfold W; ring).
    lra. }
  clearbody W. set (E := (2 ^ (-1075) * q)%Q) in *. clearbody E.
  set (X := (s * l)%Q) in *.
  assert (HW1' : (X - X * 2 ^ (-51) <= W)%Q).
  { assert (Heq : (s * (l * (1 - 2 ^ (-51))) == X - X * 2 ^ (-51))%Q)
      by (unfold X; ring).
    lra. }
  assert (HW2' : (W <= X + X * 2 ^ (-51))%Q).
  { assert (Heq : (s * (l * (1 + 2 ^ (-51))) == X + X * 2 ^ (-51))%Q)
      by (unfold X; ring).
    lra. }
  clearbody X. clear HW1 HW2 HP1 HP2.
  set (P := (d * q)%Q) in *. clearbody P.
  destruct (to_double_finite P) as (a & -> & _ & Ha1 & Ha2 & _); [ lra | lra | ].
  exists a. split; [ reflexivity | ]. rewrite Hx. split; lra.
Qed.

(** ** Out-of-range values *)

(** C3 (as amended).  Index resolution as the code computes it, in doubles,
    for a table of [1 <= L <= 2 ^ 32] entries and a window whose width
    [max - min] lies between [2 ^ (-900)] and [2 ^ 900], with the increment
    that either entry point computes (that of [colorFromValue], or that of
    [mapColors] with its override for the windows [0, 17] and [0, 18]):
    without clamping, a value below [min] or above [max] resolves to the
    sentinel [-1]; with clamping, a value below [min] resolves to entry 0
    (entry [L - 1] when flipped), and a value above [max] resolves to entry
    [L - 1] (entry 0 when flipped) provided the increment is
    [L / (max - min)] or the value is at least [L - 1], which every value
    above [max] is when [L <= max + 1]; the result is the entry times 4. *)
Theorem out_of_range_resolution
    (L : Z) (mn mx v : Q) (flip : bool) (inc : jsnum) :
  1 <= L <= 2 ^ 32 ->
  (2 ^ (-900) <= mx - mn)%Q -> (mx - mn <= 2 ^ 900)%Q ->
  inc = Double.window_increment (Fin mn) (Fin mx) (of_Z L)
  \/ inc = Double.mapColors_increment (Fin mn) (Fin mx) (of_Z L) ->
  ((v < mn)%Q \/ (mx < v)%Q ->
   Double.getColorMapIndex (Fin v) (Fin mn) (Fin mx) inc false flip (of_Z L)
   = of_Z (-1))
  /\ ((v < mn)%Q ->
      Double.getColorMapIndex (Fin v) (Fin mn) (Fin mx) inc true flip (of_Z L)
      = of_Z ((if flip then L - 1 else 0) * 4))
  /\ ((mx < v)%Q ->
      inc = Double.window_increment (Fin mn) (Fin mx) (of_Z L)
      \/ (inject_Z L - 1 <= v)%Q ->
      Double.getColorMapIndex (Fin v) (Fin mn) (Fin mx) inc true flip (of_Z L)
      = of_Z ((if flip then 0 else L - 1) * 4)).
Proof.
  intros HL Hlow Hhigh Hinc.
  destruct (double_window_increment L mn mx HL Hlow Hhigh)
    as (q & Hwindow & Hq & _ & Hscale & _).
  assert (Hclamped : forall v', (Qltb v' mn || Qltb mx v') && negb true = false)
    by (intros v'; apply andb_false_r).
  (* the increment is that of the window, or the 1 of the override *)
  assert (Hcases : inc = Fin q \/ (inc = of_Z 1 /\ (mn == 0)%Q)).
  { destruct Hinc as [-> | ->]; [ now left | ].
    unfold Double.mapColors_increment.
    destruct ((Fin mn === of_Z 0)
              && ((Fin mx === of_Z 17) || (Fin mx === of_Z 18)))%js eqn:E;
      [ right | now left ].
    apply andb_true_iff in E. destruct E as [E _].
    cbn [seq of_Z] in E. apply Qeqb_true in E.
    now split. }
  split; [ | split ].
  - now apply double_index_sentinel.
  - intros Hv.
    rewrite (double_index_resolved v mn mx inc true flip L 0 HL (Hclamped v)).
    + destruct flip; f_equal; lia.
    + destruct Hcases as [-> | [-> _]].
      * apply double_position_low; [ lia | lra | exact Hq ].
      * apply double_position_low; [ lia | lra | reflexivity ].
  - intros Hv Hwhich.
    rewrite (double_index_resolved v mn mx inc true flip L (L - 1) HL
               (Hclamped v)).
    + destruct flip; f_equal; lia.
    + assert (Hplain : inc = Fin q ->
                match Double.mul (Double.sub (Fin v) (Fin mn)) inc with
                | Fin a => L - 1 = Z.max 0 (Z.min (Qfloor a) (L - 1))
                | PInf => L - 1 = L - 1
                | NInf => L - 1 = 0
                | NaN => False
                end).
      { intros ->. apply (double_position_high L mn mx v q); try assumption.
        lra. }
      destruct Hwhich as [Hw | Hlast].
      * apply Hplain. now rewrite Hw.
      * destruct Hcases as [Hc | [-> Hmn]]; [ now apply Hplain | ].
        now apply double_position_unit.
Qed.

Lemma out_of_range_resolution_witness :
  Double.getColorMapIndex (Fin 5) (Fin 0) (Fin 4)
    (Double.window_increment (Fin 0) (Fin 4) (of_Z 5)) true false (of_Z 5)
  = of_Z ((5 - 1) * 4)
  /\ Double.getColorMapIndex (Fin 20) (Fin 0) (Fin 17)
       (Double.mapColors_increment (Fin 0) (Fin 17) (of_Z 18)) true false
       (of_Z 18)
     = of_Z ((18 - 1) * 4).
Proof.
  split.
  - refine (proj2 (proj2 (out_of_range_resolution 5 0 4 5 false _ _ _ _ _)) _ _).
    + lia.
    + vm_compute. discriminate.
    + vm_compute. discriminate.
    + left. reflexivity.
    + reflexivity.
    + left. reflexivity.
  - refine (proj2 (proj2 (out_of_range_resolution 18 0 17 20 false _ _ _ _ _)) _ _).
    + lia.
    + vm_compute. discriminate.
    + vm_compute. discriminate.
    + right. reflexivity.
    + reflexivity.
    + right. vm_compute. discriminate.
Defined.

(** In the window [0, 17] [mapColors] resolves with increment 1: on a table
    of 256 entries the clamped value 20 lands on entry 20, not on the last
    entry 255. *)
Lemma out_of_range_label_window :
  Double.getColorMapIndex (Fin 20) (Fin 0) (Fin 17)
    (Double.mapColors_increment (Fin 0) (Fin 17) (of_Z 256)) true false
    (of_Z 256)
  = of_Z (20 * 4)
  /\ Double.getColorMapIndex (Fin 20) (Fin 0) (Fin 17)
       (Double.mapColors_increment (Fin 0) (Fin 17) (of_Z 256)) true false
       (of_Z 256)
     <> of_Z ((256 - 1) * 4).
Proof. split; [ vm_compute; reflexivity | vm_compute; discriminate ]. Qed.

(** Beyond the widths of the theorem: when [max - min] overflows, the
    increment is 0, and a value whose distance to [min] overflows as well
    resolves to NaN, clamped or not. *)
Lemma out_of_range_overflow :
  let mn := Fin (- inject_Z (2 ^ 1023)) in
  let mx := Fin (inject_Z (2 ^ 1023)) in
  let v := Fin (inject_Z (3 * 2 ^ 1022)) in
  Double.sub mx mn = PInf
  /\ Double.window_increment mn mx (of_Z 5) = of_Z 0
  /\ Double.getColorMapIndex v mn mx (Double.window_increment mn mx (of_Z 5))
       true false (of_Z 5) = NaN.
Proof. repeat split; vm_compute; reflexivity. Qed.

(** ** Flip *)

(** C2 (as amended).  Index resolution as the code computes it, in doubles,
    for a table of [1 <= L <= 2 ^ 32] entries, a window whose width lies
    between [2 ^ (-900)] and [2 ^ 900] and the increment [L / (max - min)].
    Let [v] be a value in [min, max] and [v'] a value in [min, max] that is
    the mirrored value [max + min - v] up to [err * (max - min)]; [err] is 0
    when the mirrored value is taken exactly.  If the scaled position
    [(v - min) * L / (max - min)] is farther than [L * (err + 2 ^ (-50))]
    from each interior bin boundary [1, ..., L - 1], then resolving [v] with
    [flip = true] gives the same offset as resolving [v'] with
    [flip = false]. *)
Theorem flip_mirrors_value (L : Z) (mn mx v v' err : Q) (clamp : bool) :
  1 <= L <= 2 ^ 32 ->
  (2 ^ (-900) <= mx - mn)%Q -> (mx - mn <= 2 ^ 900)%Q ->
  (mn <= v)%Q -> (v <= mx)%Q -> (mn <= v')%Q -> (v' <= mx)%Q ->
  (Qabs (v' - (mx + mn - v)) <= err * (mx - mn))%Q ->
  (forall k, 1 <= k <= L - 1 ->
     (inject_Z L * (err + 2 ^ (-50))
      < Qabs ((v - mn) * (inject_Z L / (mx - mn)) - inject_Z k))%Q) ->
  let inc := Double.window_increment (Fin mn) (Fin mx) (of_Z L) in
  Double.getColorMapIndex (Fin v) (Fin mn) (Fin mx) inc clamp true (of_Z L)
  = Double.getColorMapIndex (Fin v') (Fin mn) (Fin mx) inc clamp false (of_Z L).
Proof.
  intros HL Hlow Hhigh Hv1 Hv2 Hm1 Hm2 Hmirror Hmargin inc. unfold inc.
  destruct (double_window_increment L mn mx HL Hlow Hhigh)
    as (q & -> & Hq & Hqmax & Hinc1 & Hinc2).
  destruct (double_position_inside L mn mx v q) as (a & Ea & Ha1 & Ha2);
    try assumption.
  destruct (double_position_inside L mn mx v' q) as (a' & Ea' & Ha1' & Ha2');
    try assumption.
  assert (HL1 : (1 <= inject_Z L)%Q).
  { change 1%Q with (inject_Z 1). rewrite <- Zle_Qle. lia. }
  assert (HR0 : (0 < mx - mn)%Q) by lra.
  set (l := inject_Z L) in *.
  set (x := ((v - mn) * (l / (mx - mn)))%Q) in *.
  set (x' := ((v' - mn) * (l / (mx - mn)))%Q) in *.
  (* the exact positions: inside the table, and mirror images up to the
     tolerance *)
  assert (Hx0 : (0 <= x)%Q).
  { unfold x. apply Qmult_le_0_compat; [ lra | ].
    apply Qle_shift_div_l; lra. }
  assert (HxL : (x <= l)%Q).
  { assert (H : ((v - mn) * (l / (mx - mn)) <= (mx - mn) * (l / (mx - mn)))%Q).
    { apply Qmult_le_compat_r; [ lra | ]. apply Qle_shift_div_l; lra. }
    assert (Heq : ((mx - mn) * (l / (mx - mn)) == l)%Q) by (field; lra).
    unfold x. lra. }
  apply Qabs_Qle_condition in Hmirror. destruct Hmirror as [Hmir1 Hmir2].
  assert (Herr : (0 <= err)%Q).
  { destruct (Qlt_le_dec err 0) as [Hneg | Hpos]; [ exfalso | exact Hpos ].
    assert (H : (err * (mx - mn) < 0 * (mx - mn))%Q)
      by (apply Qmult_lt_compat_r; lra).
    lra. }
  assert (Hdiff : (x' - (l - x)
                   == (v' - (mx + mn - v)) * (l / (mx - mn)))%Q)
    by (unfold x, x'; field; lra).
  assert (Hr : (0 <= l / (mx - mn))%Q) by (apply Qle_shift_div_l; lra).
  assert (Hel : (err * (mx - mn) * (l / (mx - mn)) == l * err)%Q)
    by (field; lra).
  assert (Hx'1 : (l - x - l * err <= x')%Q).
  { assert (H : ((- (err * (mx - mn))) * (l / (mx - mn))
                 <= (v' - (mx + mn - v)) * (l / (mx - mn)))%Q)
      by (apply Qmult_le_compat_r; lra).
    lra. }
  assert (Hx'2 : (x' <= l - x + l * err)%Q).
  { assert (H : ((v' - (mx + mn - v)) * (l / (mx - mn))
                 <= (err * (mx - mn)) * (l / (mx - mn)))%Q)
      by (apply Qmult_le_compat_r; lra).
    lra. }
  clearbody x x'.
  (* the entries *)
  assert (Hk : Z.max 0 (Z.min (Qfloor a) (L - 1))
               = Z.max 0 (Z.min (Qfloor x) (L - 1))).
  { apply (entry_stable L x a (l * (err + 2 ^ (-50)))); try lia;
      try assumption; lra. }
  assert (Hk' : Z.max 0 (Z.min (Qfloor a') (L - 1))
                = Z.max 0 (Z.min (Qfloor (l - x)) (L - 1))).
  { apply (entry_stable L (l - x) a' (l * (err + 2 ^ (-50)))); try lia;
      try (fold l; lra).
    intros k Hkr. specialize (Hmargin (L - k) ltac:(lia)).
    assert (Heq : (l - x - inject_Z k == - (x - inject_Z (L - k)))%Q).
    { unfold Z.sub. rewrite inject_Z_plus, inject_Z_opp. fold l. ring. }
    rewrite Heq, Qabs_opp. exact Hmargin. }
  assert (Hsum : Z.max 0 (Z.min (Qfloor (l - x)) (L - 1))
                 = L - 1 - Z.max 0 (Z.min (Qfloor x) (L - 1))).
  { apply entries_mirror; try lia; try assumption.
    intros k Hkr Heq. specialize (Hmargin k Hkr).
    assert (H0 : (x - inject_Z k == 0)%Q) by lra.
    rewrite H0 in Hmargin. change (Qabs 0) with 0%Q in Hmargin.
    assert (H : (0 <= l * (err + 2 ^ (-50)))%Q)
      by (apply Qmult_le_0_compat; lra).
    lra. }
  assert (E1 : (Qltb v mn || Qltb mx v) && negb clamp = false).
  { apply andb_false_iff. left. apply orb_false_iff.
    split; now apply Qltb_false. }
  assert (E2 : (Qltb v' mn || Qltb mx v') && negb clamp = false).
  { apply andb_false_iff. left. apply orb_false_iff.
    split; now apply Qltb_false. }
  rewrite (double_index_resolved v mn mx (Fin q) clamp true L
             (Z.max 0 (Z.min (Qfloor a) (L - 1))) HL E1)
    by (now rewrite Ea).
  rewrite (double_index_resolved v' mn mx (Fin q) clamp false L
             (Z.max 0 (Z.min (Qfloor a') (L - 1))) HL E2)
    by (now rewrite Ea').
  f_equal. lia.
Qed.

Lemma flip_mirrors_value_witness :
  Double.getColorMapIndex (Fin (5 # 2)) (Fin 0) (Fin 4)
    (Double.window_increment (Fin 0) (Fin 4) (of_Z 5)) false true (of_Z 5)
  = Double.getColorMapIndex (Fin (3 # 2)) (Fin 0) (Fin 4)
      (Double.window_increment (Fin 0) (Fin 4) (of_Z 5)) false false (of_Z 5).
Proof.
  refine (flip_mirrors_value 5 0 4 (5 # 2) (3 # 2) 0 false _ _ _ _ _ _ _ _ _).
  - lia.
  - vm_compute. discriminate.
  - vm_compute. discriminate.
  - discriminate.
  - discriminate.
  - discriminate.
  - discriminate.
  - vm_compute. discriminate.
  - intros k Hk.
    assert (Hcases : k = 1 \/ k = 2 \/ k = 3 \/ k = 4) by lia.
    destruct Hcases as [-> | [-> | [-> | ->]]]; vm_compute; reflexivity.
Defined.

(** On a table of 4 entries over the window [0, 4] the value 1 sits on a bin
    boundary: flipped it resolves to entry 2, while its mirror image 3
    resolves, unflipped, to entry 3. *)
Lemma flip_mirror_fails_on_boundary :
  Double.getColorMapIndex (Fin 1) (Fin 0) (Fin 4)
    (Double.window_increment (Fin 0) (Fin 4) (of_Z 4)) false true (of_Z 4)
  = of_Z 8
  /\ Double.sub (Double.add (Fin 4) (Fin 0)) (Fin 1) = Fin 3
  /\ Double.getColorMapIndex (Fin 3) (Fin 0) (Fin 4)
       (Double.window_increment (Fin 0) (Fin 4) (of_Z 4)) false false (of_Z 4)
     = of_Z 12
  /\ Double.getColorMapIndex (Fin 1) (Fin 0) (Fin 4)
       (Double.window_increment (Fin 0) (Fin 4) (of_Z 4)) false true (of_Z 4)
     <> Double.getColorMapIndex (Fin 3) (Fin 0) (Fin 4)
          (Double.window_increment (Fin 0) (Fin 4) (of_Z 4)) false false
          (of_Z 4).
Proof.
  split; [ vm_compute; reflexivity | ].
  split; [ vm_compute; reflexivity | ].
  split; [ vm_compute; reflexivity | vm_compute; discriminate ].
Qed.

(** Next to a bin boundary rounding decides: on a table of 5 entries over
    the window [0, 7], the double nearest to 2.8 has its scaled position
    just below 2 and resolves, flipped, to entry 2, while its mirror image
    as computed, next to 4.2, resolves to entry 3. *)
Lemma flip_mirror_fails_near_boundary :
  let v := to_double (14 # 5) in
  let inc := Double.window_increment (of_Z 0) (of_Z 7) (of_Z 5) in
  v = Fin (3152519739159347 # 1125899906842624)
  /\ Double.getColorMapIndex v (of_Z 0) (of_Z 7) inc false true (of_Z 5)
     = of_Z 8
  /\ Double.getColorMapIndex
       (Double.sub (Double.add (of_Z 7) (of_Z 0)) v) (of_Z 0) (of_Z 7) inc
       false false (of_Z 5)
     = of_Z 12.
Proof. repeat split; vm_compute; reflexivity. Qed.

(** ** Parsing *)

Lemma parse_line_skips_short (st : parse_state) (line : list ascii) :
  (List.length (split_spaces [] false (trim line)) < 3)%nat ->
  parse_line st line = st.
Proof.
  intros Hshort. unfold parse_line. destruct st as [color_map_colors ic].
  assert (E : (List.length (ColorMap.slice 0 5 (split_spaces [] false (trim line))) <? 3)%nat
              = true).
  { apply Nat.ltb_lt. unfold ColorMap.slice. cbn [skipn].
    rewrite length_firstn. lia. }
  now rewrite E.
Qed.

(** C7.  The text ["0 0 0\n1 0 0\n0 1 0\n0 0 1\n1 1 1"] parses to the flat
    array of 20 numbers [0,0,0,1, 1,0,0,1, 0,1,0,1, 0,0,1,1, 1,1,1,1], alpha
    set to 1 on every line; mapping the single intensity 2.5 through it with
    [min = 0], [max = 4], [scale = 1], [clamp = false], [flip = false] uses
    the increment 5/4, resolves table entry 3 (offset 12) and writes the
    color [0,0,1,1]. *)
Theorem five_color_scenario :
  let s := createColorMap (Some five_colors) None [array_of [Fin (5 # 2)]] in
  let options :=
    mkMapOptions (Some (of_Z 0)) (Some (of_Z 4)) None None None
      (Some (of_Z 1)) (Some false) (Some false) None None None in
  colors (cmap s) = Some 1%nat
  /\ lookup (objects s) 1%nat
     = array_of (List.map of_Z [0;0;0;1; 1;0;0;1; 0;1;0;1; 0;0;1;1; 1;1;1;1])
  /\ mapColors_increment (of_Z 0) (of_Z 4) (of_nat 20 / of_Z 4)%js = Fin (5 # 4)
  /\ getColorMapIndex (Fin (5 # 2)) (of_Z 0) (of_Z 4) (Fin (5 # 4))
       false false (of_Z 5) = of_Z (3 * 4)
  /\ fst (mapColors 0%nat (Some options) None s) = Some 2%nat
  /\ lookup (objects (snd (mapColors 0%nat (Some options) None s))) 2%nat
     = TypedArray Float32 [of_Z 0; of_Z 0; of_Z 1; of_Z 1].
Proof. repeat split; vm_compute; reflexivity. Qed.

(** C8.  The single line ["3 1 0 0 1"] puts [1,0,0,1] at offsets 12 to 15
    (label 3 times 4), leaves offsets 0 to 11 as holes and moves the
    continuation point to 16, where a following dense line is written; a
    line of fewer than 3 fields changes nothing. *)
Theorem sparse_label_line :
  parse_colors "3 1 0 0 1"
  = (PlainArray
       (mkArray (repeat None 12
                   ++ [Some (of_Z 1); Some (of_Z 0); Some (of_Z 0); Some (of_Z 1)])
                []),
     of_Z 16)
  /\ parse_colors ("3 1 0 0 1" ++ newline ++ "0 1 0")
     = (PlainArray
          (mkArray (repeat None 12
                      ++ [Some (of_Z 1); Some (of_Z 0); Some (of_Z 0); Some (of_Z 1);
                          Some (of_Z 0); Some (of_Z 1); Some (of_Z 0); Some (of_Z 1)])
                   []),
        of_Z 20)
  /\ parse_colors ("1 2" ++ newline ++ "3 1 0 0 1" ++ newline ++ "7")
     = parse_colors "3 1 0 0 1"
  /\ (forall st line,
        (List.length (split_spaces [] false (trim line)) < 3)%nat ->
        parse_line st line = st).
Proof.
  split; [ vm_compute; reflexivity | ].
  split; [ vm_compute; reflexivity | ].
  split; [ vm_compute; reflexivity | ].
  exact parse_line_skips_short.
Qed.

Lemma sparse_label_line_witness :
  parse_line (empty_array, of_Z 0) (list_ascii_of_string "1 2")
  = (empty_array, of_Z 0).
Proof.
  refine (proj2 (proj2 (proj2 sparse_label_line)) _ _ _).
  vm_compute. lia.
Defined.

(** ** The store *)

Lemma length_list_set {A} (l : list A) (n : nat) (v : A) :
  List.length (list_set l n v) = List.length l.
Proof.
  revert n. induction l as [| x l IH]; intros [| n]; cbn; auto.
Qed.

Lemma nth_list_set_other {A} (l : list A) (n m : nat) (v d : A) :
  n <> m -> nth m (list_set l n v) d = nth m l d.
Proof.
  revert n m.
  induction l as [| x l IH]; intros [| n] [| m] H; cbn; try congruence.
  apply IH. congruence.
Qed.

Lemma nth_list_set_same {A} (l : list A) (n : nat) (v d : A) :
  (n < List.length l)%nat -> nth n (list_set l n v) d = v.
Proof.
  revert n. induction l as [| x l IH]; intros [| n] H; cbn in *; try lia; auto.
  apply IH. lia.
Qed.

Lemma lookup_write_other (h : heap) (l l' : loc) (k v : jsnum) :
  l <> l' -> lookup (write h l k v) l' = lookup h l'.
Proof. intros H. unfold write, update, lookup. now apply nth_list_set_other. Qed.

Lemma length_write (h : heap) (l : loc) (k v : jsnum) :
  List.length (write h l k v) = List.length h.
Proof. unfold write, update. apply length_list_set. Qed.

Lemma lookup_write4_other (d l : loc) (ic : jsnum) rhs (h : heap) :
  d <> l -> lookup (write4 d ic rhs h) l = lookup h l.
Proof.
  intros H. unfold write4. now rewrite !lookup_write_other.
Qed.

Lemma length_write4 (d : loc) (ic : jsnum) rhs (h : heap) :
  List.length (write4 d ic rhs h) = List.length h.
Proof. unfold write4. now rewrite !length_write. Qed.

Section MapLoopFrame.

Variables (min max increment : jsnum) (clamp flip : bool).
Variables (color_map_length scale contrast brightness : jsnum).
Variables (default_colors : obj) (default_color_offset : jsnum).
Variable (colorOptions : option color_options).
Variable (color_map_colors : color_source).
Variable (destination : loc).

Let body :=
  map_value min max increment clamp flip color_map_length scale contrast
    brightness default_colors default_color_offset colorOptions
    color_map_colors destination.

Let loop :=
  map_values min max increment clamp flip color_map_length scale contrast
    brightness default_colors default_color_offset colorOptions
    color_map_colors destination.

(** One turn of the loop writes the destination and nothing else. *)
Lemma map_value_frame (value : jsnum) (i : nat) (h : heap) (l : loc) :
  destination <> l -> lookup (body value i h) l = lookup h l.
Proof.
  intros H. unfold body, map_value.
  destruct (_ <? _)%js; [ now apply lookup_write4_other | ].
  destruct colorOptions as [opts |]; [ | now apply lookup_write4_other ].
  destruct (existsb _ _); now apply lookup_write4_other.
Qed.

Lemma map_value_length (value : jsnum) (i : nat) (h : heap) :
  List.length (body value i h) = List.length h.
Proof.
  unfold body, map_value.
  destruct (_ <? _)%js; [ now apply length_write4 | ].
  destruct colorOptions as [opts |]; [ | now apply length_write4 ].
  destruct (existsb _ _); now apply length_write4.
Qed.

Lemma map_values_frame (vals : list jsnum) (i : nat) (h : heap) (l : loc) :
  destination <> l -> lookup (loop vals i h) l = lookup h l.
Proof.
  intros H. unfold loop. revert i h.
  induction vals as [| value rest IH]; intros i h; cbn [map_values];
    [ reflexivity | ].
  rewrite IH. now apply map_value_frame.
Qed.

Lemma map_values_length (vals : list jsnum) (i : nat) (h : heap) :
  List.length (loop vals i h) = List.length h.
Proof.
  unfold loop. revert i h.
  induction vals as [| value rest IH]; intros i h; cbn [map_values];
    [ reflexivity | ].
  rewrite IH. now apply map_value_length.
Qed.

End MapLoopFrame.

Lemma lookup_alloc_old (h : heap) (o : obj) (l : loc) :
  (l < List.length h)%nat -> lookup (snd (alloc h o)) l = lookup h l.
Proof. intros H. unfold alloc, lookup. cbn. now apply app_nth1. Qed.

(** A loop that writes a buffer allocated at the end of the store leaves
    the older objects alone. *)
Lemma map_values_fresh_frame
    min max increment clamp flip color_map_length scale contrast brightness
    default_colors default_color_offset colorOptions color_map_colors
    (h : heap) (o : obj) (vals : list jsnum) (i : nat) (l : loc) :
  (l < List.length h)%nat ->
  lookup
    (map_values min max increment clamp flip color_map_length scale contrast
       brightness default_colors default_color_offset colorOptions
       color_map_colors (List.length h) vals i (h ++ [o])) l
  = lookup h l.
Proof.
  intros Hl. rewrite map_values_frame by lia.
  unfold lookup. now apply app_nth1.
Qed.

(** ** mapColors: what it writes *)

(** C10.  When [mapColors] returns a destination buffer, the color map
    (its [colors] reference and its [clamp], [flip], [scale], [contrast] and
    [brightness] fields) is as before, and every array of the store other
    than the destination is as before: in particular the caller's intensity
    array, which is only read to build a copy, and the colors array.  When no
    destination is supplied the buffer is a new object and no array that
    existed before the call is changed. *)
Theorem mapColors_frame
    (intensity_values : loc) (options : option map_options)
    (filterColorCb : option filter) (s s' : store) (destination : loc) :
  mapColors intensity_values options filterColorCb s = (Some destination, s') ->
  cmap s' = cmap s
  /\ (forall l, (l < List.length (objects s))%nat -> l <> destination ->
                lookup (objects s') l = lookup (objects s) l)
  /\ (match options with
      | Some o => mo_destination o = None
      | None => True
      end ->
      destination = List.length (objects s)
      /\ forall l, (l < List.length (objects s))%nat ->
                   lookup (objects s') l = lookup (objects s) l).
Proof.
  unfold mapColors. intros H.
  set (opts := match options with Some o => o | None => no_map_options end) in *.
  set (copy := map _ (lookup (objects s) intensity_values)) in *.
  destruct (mo_destination opts) as [d |] eqn:Ed.
  - (* the caller's buffer *)
    match type of H with
    | context [match ?c with Some _ => _ | None => _ end] => destruct c
    end; [ | discriminate ].
    injection H as <- <-. cbn [cmap objects].
    split; [ reflexivity | ]. split.
    + intros l _ Hl. apply map_values_frame. congruence.
    + intros Hnone. exfalso. unfold opts in Ed.
      destruct options as [o |]; [ congruence | discriminate ].
  - (* a new buffer *)
    unfold alloc in H.
    match type of H with
    | context [match ?c with Some _ => _ | None => _ end] => destruct c
    end; [ | discriminate ].
    injection H as <- <-. cbn [cmap objects].
    split; [ reflexivity | ].
    split.
    + intros l Hl _. now apply map_values_fresh_frame.
    + intros _. split; [ reflexivity | ].
      intros l Hl. now apply map_values_fresh_frame.
Qed.

Lemma mapColors_frame_witness :
  let s := createColorMap (Some five_colors) None [array_of [Fin (5 # 2)]] in
  let s' := snd (mapColors 0%nat (Some (window 0 4)) None s) in
  cmap s' = cmap s /\ lookup (objects s') 0%nat = lookup (objects s) 0%nat.
Proof.
  intros s s'.
  destruct (mapColors_frame 0%nat (Some (window 0 4)) None s s' 2%nat eq_refl)
    as (Hmap & Hothers & _).
  split; [ exact Hmap | ].
  apply Hothers; [ vm_compute; lia | discriminate ].
Defined.

(** ** mapColors: when it returns nothing *)

(** C4 (as amended).  [mapColors] returns [undefined] whenever the active
    color table is falsy: the color map has no colors and no filter is
    given, or the filter returns a falsy value (or hands back the absent
    colors).  An array is never falsy: in every other case, that is when
    the colors are present and no filter is given or the filter hands them
    back, and when the filter returns an array of its own, an empty one
    included, [mapColors] returns the destination buffer: the one passed in
    the options, or else a fresh one. *)
Theorem mapColors_undefined_when_falsy
    (intensity_values : loc) (options : option map_options)
    (filterColorCb : option filter) (s : store) :
  let given := option_map (lookup (objects s)) (colors (cmap s)) in
  let falsy :=
    match filterColorCb with
    | None => colors (cmap s) = None
    | Some cb =>
        cb given = Falsy \/ (cb given = SameArray /\ colors (cmap s) = None)
    end in
  let fresh := List.length (objects s) in
  let destination :=
    match options with
    | Some o => match mo_destination o with Some d => d | None => fresh end
    | None => fresh
    end in
  (falsy -> fst (mapColors intensity_values options filterColorCb s) = None)
  /\ (~ falsy ->
      fst (mapColors intensity_values options filterColorCb s)
      = Some destination).
Proof.
  intros given falsy fresh destination. unfold mapColors. fold given.
  destruct (match mo_destination _ with Some d => _ | None => _ end)
    as [d h] eqn:Ed.
  assert (Hd : d = destination).
  { unfold destination, fresh.
    destruct options as [o |]; cbn [mo_destination no_map_options] in Ed;
      [ destruct (mo_destination o) | ];
      unfold alloc in Ed; now injection Ed as <- _. }
  subst d. clear Ed.
  unfold falsy. split.
  - destruct filterColorCb as [cb |].
    + intros [-> | [-> ->]]; reflexivity.
    + intros ->. reflexivity.
  - intros Hfalsy. destruct filterColorCb as [cb |].
    + destruct (cb given) eqn:E.
      * destruct (colors (cmap s)) as [c |]; [ reflexivity | ].
        exfalso. apply Hfalsy. right. now split.
      * reflexivity.
      * exfalso. apply Hfalsy. now left.
    + destruct (colors (cmap s)) as [c |]; [ reflexivity | ].
      exfalso. now apply Hfalsy.
Qed.

Lemma mapColors_undefined_when_falsy_witness :
  fst (mapColors 0%nat None (Some (fun _ => Falsy))
         (createColorMap (Some five_colors) None [array_of [of_Z 1]]))
  = None
  /\ fst (mapColors 0%nat None None
            (createColorMap (Some five_colors) None [array_of [of_Z 1]]))
     = Some 2%nat.
Proof.
  split.
  - refine (proj1 (mapColors_undefined_when_falsy 0%nat None
                     (Some (fun _ => Falsy)) _) _).
    left. reflexivity.
  - refine (proj2 (mapColors_undefined_when_falsy 0%nat None None
                     (createColorMap (Some five_colors) None
                        [array_of [of_Z 1]])) _).
    vm_compute. discriminate.
Defined.

(** A filter that returns an empty array: the active table is empty, yet
    [mapColors] returns the destination buffer (here filled with NaN). *)
Lemma mapColors_empty_table :
  let s := createColorMap (Some four_colors) None [array_of [of_Z 1]] in
  let r := mapColors 0%nat (Some (window 0 2))
             (Some (fun _ => NewArray empty_array)) s in
  length empty_array = 0%nat
  /\ fst r = Some 2%nat
  /\ fst r <> None
  /\ lookup (objects (snd r)) 2%nat = TypedArray Float32 [NaN; NaN; NaN; NaN].
Proof.
  split; [ reflexivity | ].
  split; [ reflexivity | ].
  split; [ vm_compute; discriminate | reflexivity ].
Qed.

(** ** mapColors: the values it maps *)

Lemma nVal_NaN (max maxSpectrum : jsnum) : nVal max maxSpectrum NaN = NaN.
Proof. unfold nVal, gt. now destruct max. Qed.

Lemma map_from_const (f : jsnum -> jsnum) (l : list jsnum) (i : nat) :
  map_from (fun v _ => f v) l i = List.map f l.
Proof.
  revert i. induction l as [| v l IH]; intros i; cbn; [ reflexivity | ].
  now rewrite IH.
Qed.

(** On a plain array and on a typed array of floats, the copy that
    [mapColors] works on holds [max - 0.0001] in place of each value above
    [max] and at most [maxSpectrum], and every other value as it was. *)
Lemma spectrum_copy_values (max maxSpectrum : jsnum) (o : obj) :
  match o with
  | PlainArray _ => True
  | TypedArray k _ => k = Float64
  end ->
  values (map (fun value _ => nVal max maxSpectrum value) o)
  = List.map (nVal max maxSpectrum) (values o).
Proof.
  destruct o as [a | k data]; intros Hk; cbn [map values elems].
  - generalize 0%nat. induction (elems a) as [| e l IH]; intros i; cbn;
      [ reflexivity | ].
    rewrite IH. destruct e; [ reflexivity | now rewrite nVal_NaN ].
  - rewrite map_from_const, List.map_map.
    apply List.map_ext. intros v. now rewrite Hk.
Qed.

(** On a typed array the copy holds each value as the element type stores
    it: a [Float32Array] rounds the replacement [max - 0.0001] to single
    precision. *)
Lemma spectrum_copy_typed
    (max maxSpectrum : jsnum) (k : elemkind) (data : list jsnum) :
  values (map (fun value _ => nVal max maxSpectrum value) (TypedArray k data))
  = List.map (fun value => store_conv k (nVal max maxSpectrum value)) data.
Proof. cbn [map values]. now rewrite map_from_const, List.map_map. Qed.

(** C6.  On a [Uint8Array] the copy is a [Uint8Array] again: with [max = 2]
    the value 3 is replaced by [2 - 0.0001], which the copy stores as 1.
    Index resolution then sees 1 and picks table entry 2 (green), where the
    plain array holding the same value keeps 1.9999 and picks entry 3
    (blue). *)
Theorem spectrum_clamp_on_integer_array :
  let s :=
    createColorMap (Some four_colors) None
      [TypedArray Uint8 [of_Z 3]; array_of [of_Z 3]] in
  nVal (of_Z 2) (of_Z 4) (of_Z 3) = Fin (19999 # 10000)
  /\ map (fun value _ => nVal (of_Z 2) (of_Z 4) value) (TypedArray Uint8 [of_Z 3])
     = TypedArray Uint8 [of_Z 1]
  /\ map (fun value _ => nVal (of_Z 2) (of_Z 4) value) (array_of [of_Z 3])
     = array_of [Fin (19999 # 10000)]
  /\ lookup (objects (snd (mapColors 0%nat (Some (window 0 2)) None s))) 3%nat
     = TypedArray Float32 [of_Z 0; of_Z 1; of_Z 0; of_Z 1]
  /\ lookup (objects (snd (mapColors 1%nat (Some (window 0 2)) None s))) 3%nat
     = TypedArray Float32 [of_Z 0; of_Z 0; of_Z 1; of_Z 1].
Proof. repeat split; vm_compute; reflexivity. Qed.

(** ** colorFromValue against mapColors *)

(** Outside the two label windows, and with the color map's own [clamp] and
    [flip], [colorFromValue] resolves the index that [mapColors] resolves. *)
Lemma colorFromValue_index_plain
    (cm : ColorMap.color_map) (table : obj) (value : jsnum)
    (options : value_options) :
  let min := undef_default (vo_min options) (of_Z 0) in
  let max := undef_default (vo_max options) (of_Z 255) in
  let color_map_length := (of_nat (length table) / of_Z 4)%js in
  ((min === of_Z 0) && ((max === of_Z 17) || (max === of_Z 18)))%js = false ->
  colorFromValue_index cm table value options
  = getColorMapIndex value min max
      (mapColors_increment min max color_map_length)
      (clamp cm) (flip cm) color_map_length.
Proof.
  intros min max color_map_length H. unfold colorFromValue_index.
  fold min max color_map_length. now rewrite mapColors_increment_plain.
Qed.

(** The index that [mapColors] resolves is the specification's
    [resolveIndex]. *)
Lemma mapColors_index_refines_specification
    (value min max : jsnum) (clamp flip : bool) (color_map_length : jsnum) :
  getColorMapIndex value min max
    (mapColors_increment min max color_map_length) clamp flip color_map_length
  = Specification.resolveIndex value min max clamp flip color_map_length.
Proof. reflexivity. Qed.

(** C9.  In the window [0, 17] over a table of 4 entries, [mapColors]
    resolves the value 1 with increment 1, to entry 1 (offset 4, red), as
    the specification's [resolveIndex] does, while [colorFromValue] resolves
    it with increment 4/17, to entry 0 (offset 0, black). *)
Theorem colorFromValue_misses_label_window :
  let s := createColorMap (Some four_colors) None [array_of [of_Z 1]] in
  mapColors_increment (of_Z 0) (of_Z 17) (of_Z 4) = of_Z 1
  /\ Specification.resolveIndex (of_Z 1) (of_Z 0) (of_Z 17)
       (clamp (cmap s)) (flip (cmap s)) (of_Z 4) = of_Z 4
  /\ getColorMapIndex (of_Z 1) (of_Z 0) (of_Z 17)
       (mapColors_increment (of_Z 0) (of_Z 17) (of_Z 4))
       (clamp (cmap s)) (flip (cmap s)) (of_Z 4) = of_Z 4
  /\ colorFromValue_index (cmap s) (lookup (objects s) 1%nat) (of_Z 1)
       (value_window 0 17) = of_Z 0
  /\ lookup (objects (snd (mapColors 0%nat (Some (window 0 17)) None s))) 2%nat
     = TypedArray Float32 [of_Z 1; of_Z 0; of_Z 0; of_Z 1]
  /\ colorFromValue (of_Z 1) (Some (value_window 0 17)) s
     = Color (array_of [of_Z 0; of_Z 0; of_Z 0; of_Z 1]).
Proof. repeat split; vm_compute; reflexivity. Qed.

(** ** getSliceImage: a volume without a color map *)

Section MissingColorMap.

Variable createImageData : jsnum -> jsnum -> completion ImageData.
Variable nearestNeighbor : list jsnum -> nat -> nat -> jsnum -> jsnum -> list jsnum.
Variable buffer_bytes : obj -> list jsnum.
Variable volumes : list volume.
Variables (max_width max_height : jsnum).
Variables (riskMaskSlice anatSlice : option slice).
Variables (contrast brightness : option jsnum).

Let render :=
  render_slice createImageData nearestNeighbor buffer_bytes volumes
    max_width max_height riskMaskSlice anatSlice contrast brightness.

Let render_all :=
  render_slices createImageData nearestNeighbor buffer_bytes volumes
    max_width max_height riskMaskSlice anatSlice contrast brightness.




End MissingColorMap.



(** ** blendImages *)

Lemma to_uint8_clamp_comp (q q' : Q) :
  (q == q')%Q -> to_uint8_clamp (Fin q) = to_uint8_clamp (Fin q').
Proof.
  intros H. unfold to_uint8_clamp.
  rewrite (Qleb_morph q q' 0 0 H (Qeq_refl 0%Q)).
  rewrite (Qleb_morph 255 255 q q' (Qeq_refl 255%Q) H).
  rewrite (Qfloor_comp _ _ H).
  assert (E : (q - inject_Z (Qfloor q') == q' - inject_Z (Qfloor q'))%Q)
    by now rewrite H.
  now rewrite (Qcompare_comp _ _ E _ _ (Qeq_refl (1 # 2)%Q)).
Qed.

(** A byte scaled by nothing and added to nothing. *)
Lemma clamp_zero_plus (v : jsnum) :
  store_conv Uint8Clamped (of_Z 0 * of_Z 0 + v)%js = store_conv Uint8Clamped v.
Proof.
  rewrite mul_of_Z. cbn [Z.mul store_conv]. f_equal.
  destruct v as [q | | |]; try reflexivity.
  unfold add, of_Z, fin. apply to_uint8_clamp_comp.
  rewrite Qred_correct. change (inject_Z 0) with 0%Q. ring.
Qed.

Lemma clamp_zero_times (v : jsnum) :
  store_conv Uint8Clamped (of_Z 0 * v)%js = of_Z 0.
Proof.
  cbn [store_conv]. f_equal.
  destruct v as [q | | |]; reflexivity.
Qed.

Lemma clamp_byte_times_one (n : Z) :
  0 <= n <= 255 -> store_conv Uint8Clamped (of_Z n * of_Z 1)%js = of_Z n.
Proof.
  intros Hn. rewrite mul_of_Z, Z.mul_1_r. cbn [store_conv]. f_equal.
  unfold of_Z, to_uint8_clamp.
  destruct (Qleb (inject_Z n) 0) eqn:E0.
  - apply Qleb_true in E0. change 0%Q with (inject_Z 0) in E0.
    rewrite <- Zle_Qle in E0. lia.
  - destruct (Qleb 255 (inject_Z n)) eqn:E1.
    + apply Qleb_true in E1. change 255%Q with (inject_Z 255) in E1.
      rewrite <- Zle_Qle in E1. lia.
    + rewrite Qfloor_Z.
      assert (E : (inject_Z n - inject_Z n ?= 1 # 2)%Q = Lt).
      { apply -> Qlt_alt. lra. }
      now rewrite E.
Qed.

Lemma for_loop_invariant {S : Type} (P : nat -> S -> Prop)
    (body : nat -> S -> S) (count : nat) :
  forall (from : nat) (s : S),
  P from s ->
  (forall k s, (from <= k < from + count)%nat -> P k s -> P (Datatypes.S k) (body k s)) ->
  P (from + count)%nat (for_loop count from body s).
Proof.
  induction count as [| count IH]; intros from s Hs Hstep; cbn [for_loop].
  - now rewrite Nat.add_0_r.
  - replace (from + Datatypes.S count)%nat with (Datatypes.S from + count)%nat by lia.
    apply IH.
    + apply Hstep; [ lia | exact Hs ].
    + intros k s' Hk. apply Hstep. lia.
Qed.

Section BlendLemmas.

Variable opacitys : list jsnum.

(** Image [i] at one target pixel touches the four bytes of that pixel
    only. *)
Lemma blend_image_other (y x pixel i : nat) (image : ImageData)
    (st : blend_state) (q : nat) :
  (q < pixel \/ pixel + 4 <= q)%nat ->
  nth q (target_data (blend_image opacitys y x pixel i image st)) NaN
  = nth q (target_data st) NaN.
Proof.
  intros Hq. unfold blend_image.
  destruct (_ && _)%bool; [ | reflexivity ].
  cbn [target_data]. unfold set_byte.
  destruct (_ || _)%bool; rewrite ?nth_list_set_other by lia; reflexivity.
Qed.

Lemma blend_image_length (y x pixel i : nat) (image : ImageData)
    (st : blend_state) :
  List.length (target_data (blend_image opacitys y x pixel i image st))
  = List.length (target_data st).
Proof.
  unfold blend_image.
  destruct (_ && _)%bool; [ | reflexivity ].
  cbn [target_data]. unfold set_byte.
  destruct (_ || _)%bool; now rewrite ?length_list_set.
Qed.

(** Inside the image, the position of the image's next pixel moves on by
    four bytes. *)
Lemma blend_image_iter (y x pixel i : nat) (image : ImageData)
    (st : blend_state) :
  (y < height image)%nat -> (x < width image)%nat ->
  image_iter (blend_image opacitys y x pixel i image st)
  = list_set (image_iter st) i ((nth i (image_iter st) 0 + 4) mod 2 ^ 32).
Proof.
  intros Hy Hx. unfold blend_image.
  apply Nat.ltb_lt in Hy, Hx. rewrite Hy, Hx. reflexivity.
Qed.

End BlendLemmas.

Lemma gt_of_Z_zero (n : Z) : (of_Z n >? of_Z 0)%js = (0 <? n).
Proof.
  unfold gt, of_Z. rewrite lt_Fin.
  destruct (0 <? n) eqn:E.
  - apply Qltb_true. rewrite <- Zlt_Qlt. now apply Z.ltb_lt.
  - apply Qltb_false. rewrite <- Zle_Qle. now apply Z.ltb_ge.
Qed.

Lemma nth_set_byte_same (d : list jsnum) (n : nat) (v : jsnum) :
  (n < List.length d)%nat ->
  nth n (set_byte d n v) NaN = store_conv Uint8Clamped v.
Proof. intros H. unfold set_byte. now apply nth_list_set_same. Qed.

Lemma nth_set_byte_other (d : list jsnum) (n m : nat) (v : jsnum) :
  n <> m -> nth m (set_byte d n v) NaN = nth m d NaN.
Proof. intros H. unfold set_byte. now apply nth_list_set_other. Qed.

Lemma length_set_byte (d : list jsnum) (n : nat) (v : jsnum) :
  List.length (set_byte d n v) = List.length d.
Proof. unfold set_byte. apply length_list_set. Qed.

(** Reads of a byte buffer after a sequence of stores. *)
Ltac simplify_bytes :=
  repeat first
    [ rewrite nth_set_byte_same by (rewrite ?length_set_byte; lia)
    | rewrite nth_set_byte_other by lia ].

Section BlendTwo.

Variable opacitys : list jsnum.
Variables a b : ImageData.
Variables W H : nat.
Variables x0 y0 : nat.
Variables red green blue : Z.

Hypothesis a_width : width a = W.
Hypothesis a_height : height a = H.
Hypothesis b_width : width b = W.
Hypothesis b_height : height b = H.
Hypothesis x0_inside : (x0 < W)%nat.
Hypothesis y0_inside : (y0 < H)%nat.
Hypothesis size : Z.of_nat (4 * W * H) <= 2 ^ 32.

Let p := ((y0 * W + x0) * 4)%nat.

Hypothesis a_red : nth p (data a) NaN = of_Z red.
Hypothesis a_green : nth (p + 1) (data a) NaN = of_Z green.
Hypothesis a_blue : nth (p + 2) (data a) NaN = of_Z blue.
Hypothesis red_byte : 0 <= red <= 255.
Hypothesis green_byte : 0 <= green <= 255.
Hypothesis blue_byte : 0 <= blue <= 255.
Hypothesis b_red : nth p (data b) NaN = of_Z 0.
Hypothesis b_green : nth (p + 1) (data b) NaN = of_Z 0.
Hypothesis b_blue : nth (p + 2) (data b) NaN = of_Z 0.

Let untouched (td : list jsnum) : Prop :=
  nth p td NaN = of_Z 0 /\ nth (p + 1) td NaN = of_Z 0
  /\ nth (p + 2) td NaN = of_Z 0.

Let blended (td : list jsnum) : Prop :=
  nth p td NaN = store_conv Uint8Clamped (of_Z red * nth 0 opacitys NaN)%js
  /\ nth (p + 1) td NaN
     = store_conv Uint8Clamped (of_Z green * nth 0 opacitys NaN)%js
  /\ nth (p + 2) td NaN
     = store_conv Uint8Clamped (of_Z blue * nth 0 opacitys NaN)%js
  /\ nth (p + 3) td NaN = of_Z 255.

Let inv (n : nat) (st : blend_state) : Prop :=
  List.length (target_data st) = (4 * W * H)%nat
  /\ image_iter st
     = [Z.of_nat (n * 4) mod 2 ^ 32; Z.of_nat (n * 4) mod 2 ^ 32]
  /\ ((n <= y0 * W + x0)%nat -> untouched (target_data st))
  /\ ((y0 * W + x0 < n)%nat -> blended (target_data st)).

Lemma p_inside : (p + 3 < 4 * W * H)%nat.
Proof. unfold p. nia. Qed.

(** The two images at the pixel of interest. *)
Lemma blend_at_pixel (st : blend_state) :
  List.length (target_data st) = (4 * W * H)%nat ->
  image_iter st = [Z.of_nat p; Z.of_nat p] ->
  untouched (target_data st) ->
  blended (target_data
             (blend_image opacitys y0 x0 p 1 b
                (blend_image opacitys y0 x0 p 0 a st))).
Proof.
  intros Hlen Hiter (H0 & H1 & H2).
  pose proof p_inside as Hp.
  assert (Ea : ((y0 <? height a) && (x0 <? width a))%nat = true).
  { rewrite a_width, a_height. apply andb_true_iff.
    split; now apply Nat.ltb_lt. }
  assert (Eb : ((y0 <? height b) && (x0 <? width b))%nat = true).
  { rewrite b_width, b_height. apply andb_true_iff.
    split; now apply Nat.ltb_lt. }
  unfold blend_image at 2. rewrite Ea. cbn [Nat.eqb].
  rewrite Hiter. cbn [nth]. rewrite Nat2Z.id.
  rewrite a_red, a_green, a_blue, !gt_of_Z_zero.
  unfold blend_image. rewrite Eb. cbn [Nat.eqb image_iter target_data list_set nth].
  rewrite Nat2Z.id. rewrite b_red, b_green, b_blue, !gt_of_Z_zero.
  cbn [Z.ltb Z.compare orb].
  destruct ((0 <? red) || (0 <? green) || (0 <? blue))%bool eqn:Ecolor.
  - unfold blended. simplify_bytes.
    rewrite H0, H1, H2, !clamp_zero_plus.
    repeat split; reflexivity.
  - apply orb_false_iff in Ecolor. destruct Ecolor as [Ecolor Eblue].
    apply orb_false_iff in Ecolor. destruct Ecolor as [Ered Egreen].
    apply Z.ltb_ge in Ered, Egreen, Eblue.
    unfold blended.
    replace red with 0 by lia. replace green with 0 by lia.
    replace blue with 0 by lia.
    simplify_bytes.
    rewrite H0, H1, H2, !clamp_zero_times.
    repeat split; reflexivity.
Qed.

(** One target pixel: both images are inside their bounds there. *)
Lemma blend_pixel_step (x y : nat) (st : blend_state) :
  (x < W)%nat -> (y < H)%nat ->
  inv (y * W + x) st ->
  inv (S (y * W + x)) (blend_pixel opacitys [a; b] W y x st).
Proof.
  intros Hx Hy (Hlen & Hiter & Hbefore & Hafter).
  unfold blend_pixel. cbn [blend_images_at].
  set (n := (y * W + x)%nat) in *.
  assert (Hya : (y < height a)%nat) by now rewrite a_height.
  assert (Hxa : (x < width a)%nat) by now rewrite a_width.
  assert (Hyb : (y < height b)%nat) by now rewrite b_height.
  assert (Hxb : (x < width b)%nat) by now rewrite b_width.
  pose proof p_inside as Hp.
  split; [ now rewrite !blend_image_length | ].
  split.
  { rewrite (blend_image_iter _ _ _ _ _ _ _ Hyb Hxb).
    rewrite (blend_image_iter _ _ _ _ _ _ _ Hya Hxa).
    rewrite Hiter. cbn [list_set nth].
    rewrite Zplus_mod_idemp_l.
    replace (Z.of_nat (S n * 4)) with (Z.of_nat (n * 4) + 4) by lia.
    reflexivity. }
  split.
  - intros Hle. unfold untouched.
    rewrite !blend_image_other by (unfold p; lia).
    apply Hbefore. lia.
  - intros Hlt.
    destruct (Nat.eq_dec n (y0 * W + x0)) as [Heq | Hne].
    + assert (Hsame : y = y0 /\ x = x0).
      { unfold n in Heq.
        assert (Ey : y = ((y * W + x) / W)%nat)
          by (apply (Nat.div_unique _ W y x); lia).
        assert (Ey0 : y0 = ((y * W + x) / W)%nat)
          by (apply (Nat.div_unique _ W y0 x0); lia).
        assert (y = y0) by congruence. subst y. split; [ reflexivity | lia ]. }
      destruct Hsame as [-> ->].
      fold p. apply blend_at_pixel.
      * exact Hlen.
      * rewrite Hiter. fold p.
        rewrite Z.mod_small; [ reflexivity | ]. lia.
      * apply Hbefore. unfold n. lia.
    + unfold blended.
      rewrite !blend_image_other by (unfold p; lia).
      apply Hafter. lia.
Qed.

(** The two loops over the target. *)
Lemma blend_loops (st : blend_state) :
  inv 0 st ->
  inv (H * W)
    (for_loop H 0
       (fun y => for_loop W 0 (fun x => blend_pixel opacitys [a; b] W y x))
       st).
Proof.
  intros Hst.
  apply (for_loop_invariant (fun y s => inv (y * W) s) _ H 0 st Hst).
  intros y s Hy Hs.
  replace (S y * W)%nat with (y * W + W)%nat by lia.
  apply (for_loop_invariant (fun x s => inv (y * W + x) s) _ W 0 s).
  - now rewrite Nat.add_0_r.
  - intros x s' Hx Hs'. cbv beta.
    replace (y * W + S x)%nat with (S (y * W + x)) by lia.
    apply blend_pixel_step; [ lia | lia | exact Hs' ].
Qed.

Lemma blend_two_images (td : list jsnum) :
  td = repeat (of_Z 0) (4 * W * H) ->
  blended
    (target_data
       (for_loop H 0
          (fun y => for_loop W 0 (fun x => blend_pixel opacitys [a; b] W y x))
          (mkBlend td [0; 0]))).
Proof.
  intros ->.
  pose proof p_inside as Hp.
  assert (Hzero : forall q, (q < 4 * W * H)%nat ->
            nth q (repeat (of_Z 0) (4 * W * H)) NaN = of_Z 0).
  { intros q Hq. now apply nth_repeat_lt. }
  assert (Hinv : inv 0 (mkBlend (repeat (of_Z 0) (4 * W * H)) [0; 0])).
  { split; [ apply repeat_length | ].
    split; [ reflexivity | ].
    split; [ | lia ].
    intros _. repeat split; apply Hzero; lia. }
  apply blend_loops in Hinv.
  destruct Hinv as (_ & _ & _ & Hafter).
  apply Hafter. nia.
Qed.

End BlendTwo.

(** C1 (as amended).  Two images that have the target's width and height
    are blended into a zero-filled target of at most 2^32 bytes.  At every
    pixel where the second image (in ascending order of [display_zindex]) is
    exactly black, the output RGB is the first image's RGB multiplied by the
    opacity entry at position 0, as the [Float32Array] of opacities holds
    it, and stored as a clamped byte, and the output alpha is 255; when that
    opacity entry is 1, the default, the output RGB is the first image's raw
    RGB.  (A byte times a single-precision number is exact in doubles.) *)
Theorem blend_black_keeps_base
    (first second a b target : ImageData) (blend_opacitys : list jsnum)
    (x y : nat) (red green blue : Z) :
  sort_images [first; second] = [a; b] ->
  width a = width target -> height a = height target ->
  width b = width target -> height b = height target ->
  data target = repeat (of_Z 0) (4 * width target * height target) ->
  Z.of_nat (4 * width target * height target) <= 2 ^ 32 ->
  (x < width target)%nat -> (y < height target)%nat ->
  let p := ((y * width target + x) * 4)%nat in
  nth p (data a) NaN = of_Z red ->
  nth (p + 1) (data a) NaN = of_Z green ->
  nth (p + 2) (data a) NaN = of_Z blue ->
  0 <= red <= 255 -> 0 <= green <= 255 -> 0 <= blue <= 255 ->
  nth p (data b) NaN = of_Z 0 ->
  nth (p + 1) (data b) NaN = of_Z 0 ->
  nth (p + 2) (data b) NaN = of_Z 0 ->
  let out := data (blendImages [first; second] target blend_opacitys) in
  let opacity := to_float32 (nth 0 blend_opacitys NaN) in
  nth p out NaN = store_conv Uint8Clamped (of_Z red * opacity)%js
  /\ nth (p + 1) out NaN = store_conv Uint8Clamped (of_Z green * opacity)%js
  /\ nth (p + 2) out NaN = store_conv Uint8Clamped (of_Z blue * opacity)%js
  /\ nth (p + 3) out NaN = of_Z 255
  /\ (nth 0 blend_opacitys NaN = of_Z 1 ->
      nth p out NaN = of_Z red
      /\ nth (p + 1) out NaN = of_Z green
      /\ nth (p + 2) out NaN = of_Z blue).
Proof.
  intros Hsort Haw Hah Hbw Hbh Hzero Hsize Hx Hy p
         Har Hag Hab Hr Hg Hb Hbr Hbg Hbb out opacity.
  assert (Hentry : nth 0 (List.map (store_conv Float32) blend_opacitys) NaN
                   = opacity).
  { change NaN with (store_conv Float32 NaN) at 1. now rewrite map_nth. }
  assert (Hblend :
    nth p out NaN = store_conv Uint8Clamped (of_Z red * opacity)%js
    /\ nth (p + 1) out NaN = store_conv Uint8Clamped (of_Z green * opacity)%js
    /\ nth (p + 2) out NaN = store_conv Uint8Clamped (of_Z blue * opacity)%js
    /\ nth (p + 3) out NaN = of_Z 255).
  { unfold out, blendImages. rewrite Hsort. cbn [List.length repeat data].
    rewrite <- Hentry.
    exact (blend_two_images (List.map (store_conv Float32) blend_opacitys)
             a b (width target) (height target)
             x y red green blue Haw Hah Hbw Hbh Hx Hy Hsize
             Har Hag Hab Hr Hg Hb Hbr Hbg Hbb (data target) Hzero). }
  destruct Hblend as (Hred & Hgreen & Hblue & Halpha).
  repeat split; try assumption.
  - rewrite Hred. unfold opacity. rewrite H. now apply clamp_byte_times_one.
  - rewrite Hgreen. unfold opacity. rewrite H. now apply clamp_byte_times_one.
  - rewrite Hblue. unfold opacity. rewrite H. now apply clamp_byte_times_one.
Qed.

Lemma blend_black_keeps_base_witness :
  let base := mkImageData 1 1 [of_Z 200; of_Z 100; of_Z 50; of_Z 255] None in
  let black := mkImageData 1 1 [of_Z 0; of_Z 0; of_Z 0; of_Z 255] None in
  let target := mkImageData 1 1 (repeat (of_Z 0) 4) None in
  let out := data (blendImages [base; black] target [of_Z 1; of_Z 1]) in
  nth 0 out NaN = of_Z 200 /\ nth 1 out NaN = of_Z 100
  /\ nth 2 out NaN = of_Z 50 /\ nth 3 out NaN = of_Z 255.
Proof.
  intros base black target out.
  destruct (blend_black_keeps_base base black base black target
              [of_Z 1; of_Z 1] 0 0 200 100 50
              eq_refl eq_refl eq_refl eq_refl eq_refl eq_refl
              ltac:(vm_compute; discriminate) Nat.lt_0_1 Nat.lt_0_1
              eq_refl eq_refl eq_refl ltac:(lia) ltac:(lia) ltac:(lia)
              eq_refl eq_refl eq_refl)
    as (_ & _ & _ & Halpha & Hraw).
  destruct (Hraw eq_refl) as (Hred & Hgreen & Hblue).
  repeat split; assumption.
Defined.

(** With opacity 1/2 at position 0 the base pixel (200, 100, 50) comes out
    as (100, 50, 25) under a black pixel of the second image. *)
Lemma blend_base_is_scaled :
  let base := mkImageData 1 1 [of_Z 200; of_Z 100; of_Z 50; of_Z 255] None in
  let black := mkImageData 1 1 [of_Z 0; of_Z 0; of_Z 0; of_Z 255] None in
  let target := mkImageData 1 1 (repeat (of_Z 0) 4) None in
  let out := data (blendImages [base; black] target [Fin (1 # 2); of_Z 1]) in
  sort_images [base; black] = [base; black]
  /\ out = [of_Z 100; of_Z 50; of_Z 25; of_Z 255]
  /\ nth 0 out NaN <> nth 0 (data base) NaN.
Proof.
  split; [ reflexivity | ].
  split; [ reflexivity | vm_compute; discriminate ].
Qed.

(** The opacities are held in single precision: with the double nearest to
    0.3 at position 0, a red of 255 comes out as 77, where the product with
    the double itself would give 76. *)
Lemma blend_opacity_in_single_precision :
  let base := mkImageData 1 1 [of_Z 255; of_Z 0; of_Z 0; of_Z 255] None in
  let black := mkImageData 1 1 [of_Z 0; of_Z 0; of_Z 0; of_Z 255] None in
  let target := mkImageData 1 1 (repeat (of_Z 0) 4) None in
  let opacity := to_double (3 # 10) in
  store_conv Uint8Clamped (of_Z 255 * opacity)%js = of_Z 76
  /\ data (blendImages [base; black] target [opacity; of_Z 1])
     = [of_Z 77; of_Z 0; of_Z 0; of_Z 255].
Proof. split; vm_compute; reflexivity. Qed.

(** * Further properties *)

(** ** Index resolution: bounds, endpoints, order *)

(** X1.  Index resolution as the code computes it, in doubles, for finite
    arguments and a table of [1 <= L <= 2 ^ 32] entries, whatever the finite
    increment, provided the increment is not zero or the difference
    [value - min] does not overflow (an infinite difference times a zero
    increment is the one way to NaN): [getColorMapIndex] returns the
    sentinel [-1] only when clamping is off and the value lies outside the
    window; otherwise it returns the offset [4 * k] of a table entry
    [0 <= k <= L - 1], so the four reads that follow stay inside the flat
    array. *)
Theorem index_inside_table
    (v mn mx inc : Q) (clamp flip : bool) (L : Z) :
  1 <= L <= 2 ^ 32 ->
  ~ (inc == 0)%Q \/ (Qabs (v - mn) <= 2 ^ 1023)%Q ->
  (clamp = false /\ ((v < mn)%Q \/ (mx < v)%Q)
   /\ Double.getColorMapIndex (Fin v) (Fin mn) (Fin mx) (Fin inc) clamp flip
        (of_Z L) = of_Z (-1))
  \/ ((clamp = true \/ ((mn <= v)%Q /\ (v <= mx)%Q))
      /\ exists k, 0 <= k <= L - 1
           /\ Double.getColorMapIndex (Fin v) (Fin mn) (Fin mx) (Fin inc)
                clamp flip (of_Z L) = of_Z (4 * k)).
Proof.
  intros HL Hnan.
  destruct ((Qltb v mn || Qltb mx v) && negb clamp) eqn:E.
  - left. apply andb_true_iff in E. destruct E as [Eout Eclamp].
    apply negb_true_iff in Eclamp. apply orb_true_iff in Eout. subst clamp.
    assert (Hout : (v < mn)%Q \/ (mx < v)%Q).
    { destruct Eout as [H | H]; apply Qltb_true in H; auto. }
    split; [ reflexivity | ]. split; [ exact Hout | ].
    now apply double_index_sentinel.
  - right. split.
    + apply andb_false_iff in E. destruct E as [Eout | Eclamp].
      * right. apply orb_false_iff in Eout. destruct Eout as [H1 H2].
        apply Qltb_false in H1, H2. now split.
      * left. now apply negb_false_iff in Eclamp.
    + destruct (position_has_entry
                  (Double.mul (Double.sub (Fin v) (Fin mn)) (Fin inc)) L)
        as (k & Hk & Hentry);
        [ lia | now apply double_position_not_nan | ].
      rewrite (double_index_resolved v mn mx (Fin inc) clamp flip L k HL E Hentry).
      destruct flip.
      * exists (L - 1 - k). split; [ lia | f_equal; lia ].
      * exists k. split; [ lia | f_equal; lia ].
Qed.

Lemma index_inside_table_witness :
  (false = false /\ ((7 < 0)%Q \/ (4 < 7)%Q)
   /\ Double.getColorMapIndex (Fin 7) (Fin 0) (Fin 4) (Fin (5 # 4)) false false
        (of_Z 5) = of_Z (-1))
  \/ ((false = true \/ ((0 <= 7)%Q /\ (7 <= 4)%Q))
      /\ exists k, 0 <= k <= 5 - 1
           /\ Double.getColorMapIndex (Fin 7) (Fin 0) (Fin 4) (Fin (5 # 4))
                false false (of_Z 5) = of_Z (4 * k)).
Proof.
  apply (index_inside_table 7 0 4 (5 # 4) false false 5).
  - lia.
  - left. discriminate.
Defined.

(** X2.  In doubles, with the increment [L / (max - min)] of a window whose
    width lies between [2 ^ (-900)] and [2 ^ 900] and a table of
    [1 <= L <= 2 ^ 32] entries: the value [max] itself resolves to the last
    entry and the value [min] to the first (the other way round when
    flipped), with or without clamping: the upper end of the window is not
    out of bounds. *)
Theorem window_ends_resolve (L : Z) (mn mx : Q) (clamp flip : bool) :
  1 <= L <= 2 ^ 32 ->
  (2 ^ (-900) <= mx - mn)%Q -> (mx - mn <= 2 ^ 900)%Q ->
  let inc := Double.window_increment (Fin mn) (Fin mx) (of_Z L) in
  Double.getColorMapIndex (Fin mx) (Fin mn) (Fin mx) inc clamp flip (of_Z L)
  = of_Z ((if flip then 0 else L - 1) * 4)
  /\ Double.getColorMapIndex (Fin mn) (Fin mn) (Fin mx) inc clamp flip (of_Z L)
     = of_Z ((if flip then L - 1 else 0) * 4).
Proof.
  intros HL Hlow Hhigh inc. unfold inc.
  destruct (double_window_increment L mn mx HL Hlow Hhigh)
    as (q & -> & Hq & _ & Hinc & _).
  assert (Hlt : (mn < mx)%Q) by (pose proof (pow2_pos (-900)); lra).
  assert (E1 : (Qltb mx mn || Qltb mx mx) && negb clamp = false).
  { apply andb_false_iff. left. apply orb_false_iff.
    split; apply Qltb_false; lra. }
  assert (E2 : (Qltb mn mn || Qltb mx mn) && negb clamp = false).
  { apply andb_false_iff. left. apply orb_false_iff.
    split; apply Qltb_false; lra. }
  split.
  - rewrite (double_index_resolved mx mn mx (Fin q) clamp flip L (L - 1) HL E1).
    + destruct flip; f_equal; lia.
    + apply (double_position_high L mn mx mx q); try assumption. lra.
  - rewrite (double_index_resolved mn mn mx (Fin q) clamp flip L 0 HL E2).
    + destruct flip; f_equal; lia.
    + apply (double_position_low L mn mn q); try assumption; [ lia | lra ].
Qed.

Lemma window_ends_resolve_witness :
  Double.getColorMapIndex (Fin 4) (Fin 0) (Fin 4)
    (Double.window_increment (Fin 0) (Fin 4) (of_Z 5)) false false (of_Z 5)
  = of_Z ((5 - 1) * 4).
Proof.
  refine (proj1 (window_ends_resolve 5 0 4 false false _ _ _)).
  - lia.
  - vm_compute. discriminate.
  - vm_compute. discriminate.
Defined.

(** X3.  Index resolution follows the order of the values: for a positive
    increment and two values that are both resolved (clamping on, or both
    inside the window), the smaller value gets the smaller or equal offset,
    and the larger or equal one when flipped. *)
Theorem index_monotone
    (v1 v2 mn mx inc : Q) (clamp flip : bool) (L : Z) :
  (0 < inc)%Q -> (v1 <= v2)%Q ->
  clamp = true \/ ((mn <= v1)%Q /\ (v2 <= mx)%Q) ->
  exists k1 k2,
    getColorMapIndex (Fin v1) (Fin mn) (Fin mx) (Fin inc) clamp flip (of_Z L)
    = of_Z k1
    /\ getColorMapIndex (Fin v2) (Fin mn) (Fin mx) (Fin inc) clamp flip (of_Z L)
       = of_Z k2
    /\ if flip then k2 <= k1 else k1 <= k2.
Proof.
  intros Hinc Hle Hin. rewrite !getColorMapIndex_fin.
  assert (E1 : (Qltb v1 mn || Qltb mx v1) && negb clamp = false).
  { destruct Hin as [-> | [H1 H2]]; [ apply andb_false_r | ].
    apply andb_false_iff. left. apply orb_false_iff.
    split; apply Qltb_false; lra. }
  assert (E2 : (Qltb v2 mn || Qltb mx v2) && negb clamp = false).
  { destruct Hin as [-> | [H1 H2]]; [ apply andb_false_r | ].
    apply andb_false_iff. left. apply orb_false_iff.
    split; apply Qltb_false; lra. }
  rewrite E1, E2. cbv zeta.
  assert (Hfloor : Qfloor ((v1 - mn) * inc) <= Qfloor ((v2 - mn) * inc)).
  { apply Qfloor_resp_le. nra. }
  eexists. eexists. split; [ reflexivity | ]. split; [ reflexivity | ].
  destruct flip; lia.
Qed.

Lemma index_monotone_witness :
  exists k1 k2,
    getColorMapIndex (Fin 1) (Fin 0) (Fin 4) (Fin (5 # 4)) true false (of_Z 5)
    = of_Z k1
    /\ getColorMapIndex (Fin 3) (Fin 0) (Fin 4) (Fin (5 # 4)) true false (of_Z 5)
       = of_Z k2
    /\ k1 <= k2.
Proof.
  refine (index_monotone 1 3 0 4 (5 # 4) true false 5 _ _ _).
  - reflexivity.
  - discriminate.
  - left. reflexivity.
Defined.




Lemma getColorMapIndex_nan
    (min max increment : jsnum) (clamp flip : bool) (color_map_length : jsnum) :
  getColorMapIndex NaN min max increment clamp flip color_map_length = NaN.
Proof.
  unfold getColorMapIndex, gt.
  replace (NaN <? min)%js with false by reflexivity.
  replace (max <? NaN)%js with false by (now destruct max).
  cbn [orb andb].
  replace (NaN - min)%js with NaN by (unfold sub; now destruct (neg min)).
  cbn [mul].
  replace (JsNum.min NaN (color_map_length - of_Z 1)%js) with NaN by reflexivity.
  cbn [JsNum.max floor of_Z].
  destruct flip; [ | reflexivity ].
  unfold sub at 1. cbn [neg].
  now destruct (color_map_length - of_Z 1)%js.
Qed.

(** X5.  A NaN intensity is never reported out of range: whatever the
    window, the increment, the table length and the [clamp] and [flip]
    flags, [getColorMapIndex] returns NaN for it, which is not below 0, so
    [mapColors] goes on to read the color table at NaN. *)
Theorem nan_value_resolves_to_nan
    (min max increment : jsnum) (clamp flip : bool) (color_map_length : jsnum) :
  getColorMapIndex NaN min max increment clamp flip color_map_length = NaN
  /\ (getColorMapIndex NaN min max increment clamp flip color_map_length
        <? of_Z 0)%js = false.
Proof.
  rewrite getColorMapIndex_nan. split; reflexivity.
Qed.

(** ** mapColors: each pixel from its own value *)

Lemma add_of_Z (a b : Z) : (of_Z a + of_Z b)%js = of_Z (a + b).
Proof.
  unfold add, of_Z. apply fin_of_Z. now rewrite inject_Z_plus.
Qed.

Lemma as_index_of_Z (z : Z) :
  0 <= z < 2 ^ 32 - 1 -> as_index (of_Z z) = Some (Z.to_nat z).
Proof.
  intros Hz. unfold as_index, of_Z.
  rewrite (Qred_inject_Z (inject_Z z) z (Qeq_refl _)). cbn [inject_Z Qden Qnum].
  assert (E1 : (0 <=? z) = true) by (apply Z.leb_le; lia).
  assert (E2 : (z <? 2 ^ 32 - 1) = true) by (apply Z.ltb_lt; lia).
  now rewrite E1, E2.
Qed.

Lemma as_index_of_nat (n : nat) :
  Z.of_nat n < 2 ^ 32 - 1 -> as_index (of_nat n) = Some n.
Proof.
  intros Hn. unfold of_nat. rewrite as_index_of_Z by lia.
  now rewrite Nat2Z.id.
Qed.

Lemma of_nat_plus (n c : nat) :
  (of_nat n + of_Z (Z.of_nat c))%js = of_nat (n + c).
Proof. unfold of_nat. rewrite add_of_Z. f_equal. lia. Qed.

Lemma lookup_update_same (h : heap) (l : loc) (o : obj) :
  (l < List.length h)%nat -> lookup (update h l o) l = o.
Proof. intros H. unfold lookup, update. now apply nth_list_set_same. Qed.

(** A store into a typed array held in the store. *)
Lemma write_typed (h : heap) (d : loc) (k : elemkind) (data : list jsnum)
    (n : nat) (v : jsnum) :
  lookup h d = TypedArray k data -> (d < List.length h)%nat ->
  Z.of_nat n < 2 ^ 32 - 1 ->
  lookup (write h d (of_nat n) v) d
  = TypedArray k (list_set data n (store_conv k v)).
Proof.
  intros Hd Hlen Hn. unfold write.
  rewrite lookup_update_same by exact Hlen.
  rewrite Hd. cbn [set]. now rewrite as_index_of_nat.
Qed.

Lemma write4_typed (d : loc) (n : nat) (rhs : heap -> nat -> jsnum)
    (h : heap) (k : elemkind) (data : list jsnum) :
  lookup h d = TypedArray k data -> (d < List.length h)%nat ->
  Z.of_nat (n + 3) < 2 ^ 32 - 1 ->
  (forall h' ch, (forall l, l <> d -> lookup h' l = lookup h l) ->
                 rhs h' ch = rhs h ch) ->
  lookup (write4 d (of_nat n) rhs h) d
  = TypedArray k
      (list_set
         (list_set
            (list_set (list_set data n (store_conv k (rhs h 0%nat)))
               (n + 1) (store_conv k (rhs h 1%nat)))
            (n + 2) (store_conv k (rhs h 2%nat)))
         (n + 3) (store_conv k (rhs h 3%nat))).
Proof.
  intros Hd Hlen Hn Hrhs. unfold write4.
  change (of_Z 1) with (of_Z (Z.of_nat 1)).
  change (of_Z 2) with (of_Z (Z.of_nat 2)).
  change (of_Z 3) with (of_Z (Z.of_nat 3)).
  rewrite !of_nat_plus.
  set (h1 := write h d (of_nat n) (rhs h 0%nat)).
  assert (H1 : lookup h1 d = TypedArray k (list_set data n (store_conv k (rhs h 0%nat))))
    by (apply write_typed; auto; lia).
  assert (F1 : forall l, l <> d -> lookup h1 l = lookup h l)
    by (intros l Hl; apply lookup_write_other; congruence).
  assert (L1 : (d < List.length h1)%nat) by (unfold h1; now rewrite length_write).
  rewrite (Hrhs h1 1%nat F1).
  set (h2 := write h1 d (of_nat (n + 1)) (rhs h 1%nat)).
  assert (H2 : lookup h2 d
               = TypedArray k
                   (list_set (list_set data n (store_conv k (rhs h 0%nat)))
                      (n + 1) (store_conv k (rhs h 1%nat))))
    by (apply write_typed; auto; lia).
  assert (F2 : forall l, l <> d -> lookup h2 l = lookup h l).
  { intros l Hl. unfold h2. rewrite lookup_write_other by congruence. now apply F1. }
  assert (L2 : (d < List.length h2)%nat) by (unfold h2; now rewrite length_write).
  rewrite (Hrhs h2 2%nat F2).
  set (h3 := write h2 d (of_nat (n + 2)) (rhs h 2%nat)).
  assert (H3 : lookup h3 d
               = TypedArray k
                   (list_set
                      (list_set (list_set data n (store_conv k (rhs h 0%nat)))
                         (n + 1) (store_conv k (rhs h 1%nat)))
                      (n + 2) (store_conv k (rhs h 2%nat))))
    by (apply write_typed; auto; lia).
  assert (F3 : forall l, l <> d -> lookup h3 l = lookup h l).
  { intros l Hl. unfold h3. rewrite lookup_write_other by congruence. now apply F2. }
  assert (L3 : (d < List.length h3)%nat) by (unfold h3; now rewrite length_write).
  rewrite (Hrhs h3 3%nat F3).
  apply write_typed; auto; lia.
Qed.

Section MapLoopPixels.

Variables (min max increment : jsnum) (clamp flip : bool).
Variables (color_map_length scale contrast brightness : jsnum).
Variables (default_colors : obj) (default_color_offset : jsnum).
Variable (colorOptions : option color_options).
Variable (color_map_colors : color_source).
Variable (destination : loc).
Variable (k : elemkind).

Hypothesis separate : color_map_colors <> InStore destination.

Let body :=
  map_value min max increment clamp flip color_map_length scale contrast
    brightness default_colors default_color_offset colorOptions
    color_map_colors destination.

Let loop :=
  map_values min max increment clamp flip color_map_length scale contrast
    brightness default_colors default_color_offset colorOptions
    color_map_colors destination.

(** What the body computes for channel [ch] of the value at position [i],
    reading the color table from the store [h]. *)
Let pixel (h : heap) (value : jsnum) (i ch : nat) : jsnum :=
  let color_map_index :=
    getColorMapIndex value min max increment clamp flip color_map_length in
  if (color_map_index <? of_Z 0)%js then
    shade scale contrast brightness default_colors
      (of_nat (i * 4) * default_color_offset)%js ch
  else
    match colorOptions with
    | Some opts =>
        if existsb (color_matches value i (co_leftCount opts)) (co_colors opts)
        then shade scale contrast brightness (source_obj h color_map_colors)
               color_map_index ch
        else shade scale contrast brightness (co_defaultColor opts) (of_Z 0) ch
    | None =>
        shade scale contrast brightness (source_obj h color_map_colors)
          color_map_index ch
    end.

Lemma source_obj_frame (h h' : heap) :
  (forall l, l <> destination -> lookup h' l = lookup h l) ->
  source_obj h' color_map_colors = source_obj h color_map_colors.
Proof.
  intros Hframe. destruct color_map_colors as [l | o]; [ | reflexivity ].
  cbn [source_obj]. apply Hframe. congruence.
Qed.

Lemma pixel_frame (h h' : heap) (value : jsnum) (i ch : nat) :
  (forall l, l <> destination -> lookup h' l = lookup h l) ->
  pixel h' value i ch = pixel h value i ch.
Proof.
  intros Hframe. unfold pixel. now rewrite (source_obj_frame h h' Hframe).
Qed.

(** One turn of the loop on a typed-array destination. *)
Lemma map_value_typed (value : jsnum) (i : nat) (h : heap) (data : list jsnum) :
  lookup h destination = TypedArray k data ->
  (destination < List.length h)%nat ->
  Z.of_nat (i * 4 + 3) < 2 ^ 32 - 1 ->
  lookup (body value i h) destination
  = TypedArray k
      (list_set
         (list_set
            (list_set
               (list_set data (i * 4) (store_conv k (pixel h value i 0)))
               (i * 4 + 1) (store_conv k (pixel h value i 1)))
            (i * 4 + 2) (store_conv k (pixel h value i 2)))
         (i * 4 + 3) (store_conv k (pixel h value i 3))).
Proof.
  intros Hd Hlen Hi. unfold body, map_value, pixel.
  destruct (_ <? _)%js.
  - rewrite (write4_typed _ _ _ _ k data Hd Hlen Hi); [ reflexivity | ].
    reflexivity.
  - destruct colorOptions as [opts |].
    + destruct (existsb _ _).
      * rewrite (write4_typed _ _ _ _ k data Hd Hlen Hi); [ reflexivity | ].
        intros h' ch Hframe. now rewrite (source_obj_frame h h' Hframe).
      * rewrite (write4_typed _ _ _ _ k data Hd Hlen Hi); [ reflexivity | ].
        reflexivity.
    + rewrite (write4_typed _ _ _ _ k data Hd Hlen Hi); [ reflexivity | ].
      intros h' ch Hframe. now rewrite (source_obj_frame h h' Hframe).
Qed.

(** The loop on a typed-array destination that is long enough: the buffer
    keeps its kind and length, the four entries of each position hold what
    the body computes for that position's value on the store as it was
    before the loop, and the entries of other positions are as before. *)
Lemma map_values_typed (vals : list jsnum) :
  forall (i : nat) (h : heap) (data : list jsnum),
  lookup h destination = TypedArray k data ->
  (destination < List.length h)%nat ->
  ((i + List.length vals) * 4 <= List.length data)%nat ->
  Z.of_nat ((i + List.length vals) * 4) < 2 ^ 32 ->
  exists data',
    lookup (loop vals i h) destination = TypedArray k data'
    /\ List.length data' = List.length data
    /\ (forall j ch, (j < List.length vals)%nat -> (ch < 4)%nat ->
          nth ((i + j) * 4 + ch) data' NaN
          = store_conv k (pixel h (nth j vals NaN) (i + j) ch))
    /\ (forall q, (q < i * 4 \/ (i + List.length vals) * 4 <= q)%nat ->
          nth q data' NaN = nth q data NaN).
Proof.
  unfold loop.
  induction vals as [| value rest IH]; intros i h data Hd Hlen Hfit Hbound.
  - exists data. cbn. repeat split; auto. intros j ch Hj. lia.
  - cbn [map_values List.length] in *.
    pose proof (map_value_typed value i h data Hd Hlen ltac:(lia)) as Hstep.
    fold body in Hstep |- *.
    set (data1 := list_set _ (i * 4 + 3) _) in Hstep.
    assert (Hlen1 : List.length data1 = List.length data)
      by (unfold data1; now rewrite !length_list_set).
    assert (Hframe : forall l, l <> destination ->
              lookup (body value i h) l = lookup h l).
    { intros l Hl. apply map_value_frame. congruence. }
    destruct (IH (S i) (body value i h) data1 Hstep) as (data' & Hfin & Hlen' & Hpix & Hrest).
    + unfold body. now rewrite map_value_length.
    + rewrite Hlen1. lia.
    + replace ((S i + List.length rest) * 4)%nat
        with ((i + S (List.length rest)) * 4)%nat by lia. exact Hbound.
    + exists data'. split; [ exact Hfin | ]. split; [ congruence | ]. split.
      * intros j ch Hj Hch. destruct j as [| j].
        -- rewrite Nat.add_0_r. cbn [nth].
           rewrite Hrest by lia. unfold data1.
           destruct ch as [| [| [| [| ch]]]]; try lia;
             rewrite ?Nat.add_0_r;
             repeat first
               [ rewrite nth_list_set_same by (rewrite ?length_list_set; lia)
               | rewrite nth_list_set_other by lia ];
             reflexivity.
        -- cbn [nth].
           replace ((i + S j) * 4 + ch)%nat with ((S i + j) * 4 + ch)%nat by lia.
           rewrite Hpix by lia.
           replace (S i + j)%nat with (i + S j)%nat by lia.
           f_equal. apply pixel_frame. exact Hframe.
      * intros q Hq. rewrite Hrest by lia. unfold data1.
        rewrite !nth_list_set_other by lia. reflexivity.
Qed.

End MapLoopPixels.

(** ** mapColors: the buffer it returns *)

Lemma length_map_array (f : jsnum -> nat -> jsnum) (o : obj) :
  length (map f o) = length o.
Proof.
  destruct o as [a | k data]; cbn [map length elems].
  - generalize 0%nat. induction (elems a) as [| e l IH]; intros i; cbn; auto.
  - rewrite length_map. generalize 0%nat.
    induction data as [| v l IH]; intros i; cbn; auto.
Qed.

Lemma length_values (o : obj) : List.length (values o) = length o.
Proof. destruct o; cbn; [ apply length_map | reflexivity ]. Qed.

Lemma typed_in_store (h : heap) (d : loc) (k : elemkind) (data : list jsnum) :
  lookup h d = TypedArray k data -> (d < List.length h)%nat.
Proof.
  intros Hd. destruct (Nat.lt_ge_cases d (List.length h)) as [H | H]; auto.
  unfold lookup in Hd. rewrite nth_overflow in Hd by exact H. discriminate.
Qed.

(** A write keeps the kind and the length of a typed array. *)
Lemma write_shape (h : heap) (d : loc) (key v : jsnum)
    (k : elemkind) (n : nat) :
  (exists data, lookup h d = TypedArray k data /\ List.length data = n) ->
  exists data, lookup (write h d key v) d = TypedArray k data
               /\ List.length data = n.
Proof.
  intros (data & Hd & Hn).
  pose proof (typed_in_store h d k data Hd) as Hlen.
  unfold write. rewrite lookup_update_same by exact Hlen.
  rewrite Hd. cbn [set]. destruct (as_index key) as [m |].
  - eexists. split; [ reflexivity | ]. now rewrite length_list_set.
  - now exists data.
Qed.

Lemma write4_shape (d : loc) (ic : jsnum) rhs (h : heap)
    (k : elemkind) (n : nat) :
  (exists data, lookup h d = TypedArray k data /\ List.length data = n) ->
  exists data, lookup (write4 d ic rhs h) d = TypedArray k data
               /\ List.length data = n.
Proof.
  intros H. unfold write4. now repeat apply write_shape.
Qed.

Lemma map_values_shape
    min max increment clamp flip color_map_length scale contrast brightness
    default_colors default_color_offset colorOptions color_map_colors
    (d : loc) (k : elemkind) (n : nat) (vals : list jsnum) :
  forall (i : nat) (h : heap),
  (exists data, lookup h d = TypedArray k data /\ List.length data = n) ->
  exists data,
    lookup
      (map_values min max increment clamp flip color_map_length scale contrast
         brightness default_colors default_color_offset colorOptions
         color_map_colors d vals i h) d = TypedArray k data
    /\ List.length data = n.
Proof.
  induction vals as [| value rest IH]; intros i h H; cbn [map_values]; auto.
  apply IH. unfold map_value.
  destruct (_ <? _)%js; [ now apply write4_shape | ].
  destruct colorOptions as [opts |]; [ | now apply write4_shape ].
  destruct (existsb _ _); now apply write4_shape.
Qed.

Lemma lookup_alloc_new (h : heap) (o : obj) :
  lookup (h ++ [o]) (List.length h) = o.
Proof. unfold lookup. rewrite app_nth2 by lia. now rewrite Nat.sub_diag. Qed.

(** X6.  When no destination is supplied and [mapColors] returns a buffer,
    the buffer is a new [Float32Array] of exactly four entries per
    intensity value, whatever the options, the filter and the color table
    are. *)
Theorem mapColors_new_buffer
    (intensity_values : loc) (options : option map_options)
    (filterColorCb : option filter) (s s' : store) (destination : loc) :
  match options with
  | Some o => mo_destination o = None
  | None => True
  end ->
  mapColors intensity_values options filterColorCb s = (Some destination, s') ->
  destination = List.length (objects s)
  /\ exists data,
       lookup (objects s') destination = TypedArray Float32 data
       /\ List.length data
          = (4 * length (lookup (objects s) intensity_values))%nat.
Proof.
  intros Hnone. unfold mapColors.
  set (opts := match options with Some o => o | None => no_map_options end).
  assert (Ed : mo_destination opts = None).
  { unfold opts. destruct options; [ exact Hnone | reflexivity ]. }
  rewrite Ed. unfold alloc.
  match goal with
  | |- context [match ?c with Some _ => _ | None => _ end = _] => destruct c
  end; [ | discriminate ].
  intros H. injection H as <- <-. cbn [objects].
  split; [ reflexivity | ].
  set (copy := map _ (lookup (objects s) intensity_values)).
  replace (4 * length (lookup (objects s) intensity_values))%nat
    with (length copy * 4)%nat
    by (unfold copy; rewrite length_map_array; lia).
  apply map_values_shape.
  exists (repeat (of_Z 0) (length copy * 4)).
  split; [ apply lookup_alloc_new | apply repeat_length ].
Qed.

Lemma mapColors_new_buffer_witness :
  let s := createColorMap (Some five_colors) None
             [array_of [of_Z 1; of_Z 2; of_Z 3]] in
  exists data,
    lookup (objects (snd (mapColors 0%nat None None s))) 2%nat
    = TypedArray Float32 data
    /\ List.length data = 12%nat.
Proof.
  intros s.
  exact (proj2 (mapColors_new_buffer 0%nat None None s
                  (snd (mapColors 0%nat None None s)) 2%nat I eq_refl)).
Defined.

(** ** mapColors: what each pixel holds *)

(** The loop of [mapColors] on a typed-array destination that is not the
    color table and has room for every value. *)
Lemma mapColors_pixels_typed
    (intensity_values : loc) (o : map_options) (s : store)
    (cl : loc) (k : elemkind) :
  colors (cmap s) = Some cl ->
  let min := undef_default (mo_min o) (of_Z 0) in
  let max := undef_default (mo_max o) (of_Z 255) in
  let maxSpectrum := or_default (mo_maxSpectrum o) (of_Z 4) in
  let copy :=
    map (fun value _ => nVal max maxSpectrum value)
      (lookup (objects s) intensity_values) in
  let default_colors :=
    match mo_default_colors o with
    | Some d => d
    | None => array_of [of_Z 0; of_Z 0; of_Z 0; of_Z 1]
    end in
  let target :=
    match mo_destination o with
    | Some d => (d, objects s)
    | None => alloc (objects s) (new_typed Float32 (length copy * 4))
    end in
  let destination := fst target in
  let h := snd target in
  let table := lookup h cl in
  let color_map_length := (of_nat (length table) / of_Z 4)%js in
  let scale := undef_default (mo_scale o) (scale (cmap s)) in
  let clamp :=
    match mo_clamp o with Some b => b | None => clamp (cmap s) end in
  let flip := match mo_flip o with Some b => b | None => flip (cmap s) end in
  let brightness :=
    (undef_default (mo_brightness o) (brightness (cmap s)) * scale)%js in
  let contrast :=
    (undef_default (mo_contrast o) (contrast (cmap s)) * scale)%js in
  let default_color_offset :=
    if (length default_colors =? 4)%nat then of_Z 0 else of_Z 1 in
  let increment := mapColors_increment min max color_map_length in
  cl <> destination ->
  (exists data, lookup h destination = TypedArray k data
                /\ (length copy * 4 <= List.length data)%nat) ->
  Z.of_nat (length copy * 4) < 2 ^ 32 ->
  exists data',
    fst (mapColors intensity_values (Some o) None s) = Some destination
    /\ lookup (objects (snd (mapColors intensity_values (Some o) None s)))
         destination = TypedArray k data'
    /\ forall i ch, (i < length copy)%nat -> (ch < 4)%nat ->
         nth (i * 4 + ch) data' NaN
         = store_conv k
             (let value := nth i (values copy) NaN in
              let color_map_index :=
                getColorMapIndex value min max increment clamp flip
                  color_map_length in
              if (color_map_index <? of_Z 0)%js then
                shade scale contrast brightness default_colors
                  (of_nat (i * 4) * default_color_offset)%js ch
              else
                match mo_colorOptions o with
                | Some opts =>
                    if existsb (color_matches value i (co_leftCount opts))
                         (co_colors opts)
                    then shade scale contrast brightness table
                           color_map_index ch
                    else shade scale contrast brightness
                           (co_defaultColor opts) (of_Z 0) ch
                | None =>
                    shade scale contrast brightness table color_map_index ch
                end).
Proof.
  intros Hcl min max maxSpectrum copy default_colors target destination h
         table color_map_length scale clamp flip brightness contrast
         default_color_offset increment Hsep (data & Hd & Hfit) Hbound.
  assert (Hrun :
    mapColors intensity_values (Some o) None s
    = (Some destination,
       mkStore
         (map_values min max increment clamp flip color_map_length scale
            contrast brightness default_colors default_color_offset
            (mo_colorOptions o) (InStore cl) destination (values copy) 0 h)
         (cmap s))).
  { unfold mapColors. fold min max maxSpectrum. fold copy. fold default_colors.
    fold target. rewrite Hcl. cbn [option_map].
    rewrite (surjective_pairing target). reflexivity. }
  rewrite Hrun. cbn [fst snd objects].
  destruct (map_values_typed min max increment clamp flip color_map_length
              scale contrast brightness default_colors default_color_offset
              (mo_colorOptions o) (InStore cl) destination k
              ltac:(congruence) (values copy) 0%nat h data Hd
              (typed_in_store _ _ _ _ Hd))
    as (data' & Hfin & _ & Hpix & _).
  - rewrite length_values. cbn [Nat.add]. exact Hfit.
  - rewrite length_values. cbn [Nat.add]. exact Hbound.
  - exists data'. split; [ reflexivity | ]. split; [ exact Hfin | ].
    intros i ch Hi Hch.
    specialize (Hpix i ch). rewrite length_values in Hpix.
    cbn [Nat.add] in Hpix. now rewrite Hpix.
Qed.

Lemma get_typed (k : elemkind) (data : list jsnum) (n : nat) :
  Z.of_nat n < 2 ^ 32 - 1 ->
  get (TypedArray k data) (of_nat n) = nth n data NaN.
Proof. intros Hn. cbn [get]. now rewrite as_index_of_nat. Qed.

Lemma nth_values_copy (max maxSpectrum : jsnum) (o : obj) (i : nat) :
  (i < length o)%nat ->
  nth i (values (map (fun value _ => nVal max maxSpectrum value) o)) NaN
  = match o with
    | PlainArray _ => nVal max maxSpectrum (nth i (values o) NaN)
    | TypedArray k _ => store_conv k (nVal max maxSpectrum (nth i (values o) NaN))
    end.
Proof.
  intros Hi. destruct o as [a | k data].
  - rewrite (spectrum_copy_values max maxSpectrum (PlainArray a) I).
    rewrite <- (nVal_NaN max maxSpectrum) at 1. apply map_nth.
  - rewrite spectrum_copy_typed. cbn [values length] in *.
    rewrite (nth_indep _ NaN (store_conv k (nVal max maxSpectrum NaN)))
      by (now rewrite length_map).
    apply (map_nth (fun value => store_conv k (nVal max maxSpectrum value))).
Qed.

(** Two arrays of the same kind: both plain, or typed arrays of one element
    type. *)
Lemma nth_values_copy_same (max maxSpectrum : jsnum) (o1 o2 : obj) (i : nat) :
  match o1, o2 with
  | PlainArray _, PlainArray _ => True
  | TypedArray k1 _, TypedArray k2 _ => k1 = k2
  | _, _ => False
  end ->
  (i < length o1)%nat -> (i < length o2)%nat ->
  nth i (values o1) NaN = nth i (values o2) NaN ->
  nth i (values (map (fun value _ => nVal max maxSpectrum value) o1)) NaN
  = nth i (values (map (fun value _ => nVal max maxSpectrum value) o2)) NaN.
Proof.
  intros Hkind H1 H2 Hval. rewrite !nth_values_copy by assumption.
  destruct o1, o2; try contradiction; rewrite Hval; [ reflexivity | ].
  now rewrite Hkind.
Qed.

(** The pixels of a call without destination, in the new buffer. *)
Lemma mapColors_fresh_pixels
    (intensity_values : loc) (o : map_options) (s : store) (cl : loc) :
  colors (cmap s) = Some cl -> (cl < List.length (objects s))%nat ->
  mo_destination o = None ->
  Z.of_nat (length (lookup (objects s) intensity_values) * 4) < 2 ^ 32 ->
  let min := undef_default (mo_min o) (of_Z 0) in
  let max := undef_default (mo_max o) (of_Z 255) in
  let maxSpectrum := or_default (mo_maxSpectrum o) (of_Z 4) in
  let copy :=
    map (fun value _ => nVal max maxSpectrum value)
      (lookup (objects s) intensity_values) in
  let default_colors :=
    match mo_default_colors o with
    | Some d => d
    | None => array_of [of_Z 0; of_Z 0; of_Z 0; of_Z 1]
    end in
  let table := lookup (objects s) cl in
  let color_map_length := (of_nat (length table) / of_Z 4)%js in
  let scale := undef_default (mo_scale o) (scale (cmap s)) in
  let clamp :=
    match mo_clamp o with Some b => b | None => clamp (cmap s) end in
  let flip := match mo_flip o with Some b => b | None => flip (cmap s) end in
  let brightness :=
    (undef_default (mo_brightness o) (brightness (cmap s)) * scale)%js in
  let contrast :=
    (undef_default (mo_contrast o) (contrast (cmap s)) * scale)%js in
  let default_color_offset :=
    if (length default_colors =? 4)%nat then of_Z 0 else of_Z 1 in
  let increment := mapColors_increment min max color_map_length in
  let result := mapColors intensity_values (Some o) None s in
  exists data',
    fst result = Some (List.length (objects s))
    /\ lookup (objects (snd result)) (List.length (objects s))
       = TypedArray Float32 data'
    /\ forall i ch,
         (i < length (lookup (objects s) intensity_values))%nat ->
         (ch < 4)%nat ->
         get (TypedArray Float32 data') (of_nat (i * 4 + ch))
         = store_conv Float32
             (let value := nth i (values copy) NaN in
              let color_map_index :=
                getColorMapIndex value min max increment clamp flip
                  color_map_length in
              if (color_map_index <? of_Z 0)%js then
                shade scale contrast brightness default_colors
                  (of_nat (i * 4) * default_color_offset)%js ch
              else
                match mo_colorOptions o with
                | Some opts =>
                    if existsb (color_matches value i (co_leftCount opts))
                         (co_colors opts)
                    then shade scale contrast brightness table
                           color_map_index ch
                    else shade scale contrast brightness
                           (co_defaultColor opts) (of_Z 0) ch
                | None =>
                    shade scale contrast brightness table color_map_index ch
                end).
Proof.
  intros Hcl Hin Hdest Hbound.
  pose proof (mapColors_pixels_typed intensity_values o s cl Float32 Hcl) as H.
  rewrite Hdest in H. cbv zeta in H. unfold alloc in H. cbn [fst snd] in H.
  match type of H with
  | context [lookup (objects s ++ [?buffer]) cl] =>
      assert (Htable : lookup (objects s ++ [buffer]) cl
                       = lookup (objects s) cl)
        by (unfold lookup; now apply app_nth1);
      rewrite Htable in H
  end.
  destruct H as (data' & Hfst & Hsnd & Hpix).
  - lia.
  - eexists. split; [ apply lookup_alloc_new | ].
    unfold new_typed. rewrite repeat_length. lia.
  - rewrite length_map_array. exact Hbound.
  - cbv zeta. exists data'. split; [ exact Hfst | ]. split; [ exact Hsnd | ].
    intros i ch Hi Hch. rewrite get_typed by lia.
    now rewrite Hpix by (rewrite ?length_map_array; assumption).
Qed.

(** X7.  Each pixel depends on its own intensity value only.  Two calls
    without destination on the same color map and with the same options,
    on intensity arrays of the same kind that hold the same value at
    position [i]: the four entries of pixel [i] are the same in the two
    returned buffers, whatever the other values and the lengths of the
    arrays are. *)
Theorem mapColors_pixel_local
    (values1 values2 : loc) (o : map_options) (s : store) (cl : loc)
    (i ch : nat) :
  colors (cmap s) = Some cl -> (cl < List.length (objects s))%nat ->
  mo_destination o = None ->
  match lookup (objects s) values1, lookup (objects s) values2 with
  | PlainArray _, PlainArray _ => True
  | TypedArray k1 _, TypedArray k2 _ => k1 = k2
  | _, _ => False
  end ->
  (i < length (lookup (objects s) values1))%nat ->
  (i < length (lookup (objects s) values2))%nat ->
  Z.of_nat (length (lookup (objects s) values1) * 4) < 2 ^ 32 ->
  Z.of_nat (length (lookup (objects s) values2) * 4) < 2 ^ 32 ->
  nth i (values (lookup (objects s) values1)) NaN
  = nth i (values (lookup (objects s) values2)) NaN ->
  (ch < 4)%nat ->
  let result1 := mapColors values1 (Some o) None s in
  let result2 := mapColors values2 (Some o) None s in
  let buffer := List.length (objects s) in
  fst result1 = Some buffer /\ fst result2 = Some buffer
  /\ get (lookup (objects (snd result1)) buffer) (of_nat (i * 4 + ch))
     = get (lookup (objects (snd result2)) buffer) (of_nat (i * 4 + ch)).
Proof.
  intros Hcl Hin Hdest Hkind Hi1 Hi2 Hbound1 Hbound2 Hval Hch. cbv zeta.
  destruct (mapColors_fresh_pixels values1 o s cl Hcl Hin Hdest Hbound1)
    as (data1 & Hfst1 & Hsnd1 & Hpix1).
  destruct (mapColors_fresh_pixels values2 o s cl Hcl Hin Hdest Hbound2)
    as (data2 & Hfst2 & Hsnd2 & Hpix2).
  split; [ exact Hfst1 | ]. split; [ exact Hfst2 | ].
  rewrite Hsnd1, Hsnd2, (Hpix1 i ch Hi1 Hch), (Hpix2 i ch Hi2 Hch).
  now rewrite (nth_values_copy_same _ _ _ _ i Hkind Hi1 Hi2 Hval).
Qed.

Lemma mapColors_pixel_local_witness :
  let s := createColorMap (Some five_colors) None
             [array_of [Fin (5 # 2)]; array_of [Fin (5 # 2); of_Z 9]] in
  let o := window 0 4 in
  get (lookup (objects (snd (mapColors 0%nat (Some o) None s))) 3%nat)
    (of_nat (0 * 4 + 2))
  = get (lookup (objects (snd (mapColors 1%nat (Some o) None s))) 3%nat)
      (of_nat (0 * 4 + 2)).
Proof.
  intros s o.
  exact (proj2 (proj2
    (mapColors_pixel_local 0%nat 1%nat o s 2%nat 0%nat 2%nat
       eq_refl ltac:(vm_compute; lia) eq_refl I
       ltac:(vm_compute; lia) ltac:(vm_compute; lia)
       ltac:(vm_compute; reflexivity) ltac:(vm_compute; reflexivity)
       eq_refl ltac:(lia)))).
Defined.

(** X8.  The default-color fallback.  In a call without destination and
    without [default_colors], with clamping off, a finite value that lies
    outside the window and is not in the [(max, maxSpectrum]] band gets the
    color [0, 0, 0, 1]: the buffer holds, in single precision,
    [contrast * scale * 0 + brightness * scale] for R, G and B and
    [scale * 1] for A, whatever [colorOptions] says.  The value is one that
    the intensity array holds as it is, and the two products by [scale] are
    exact in doubles (as they are for scale 1, and for scale 255 with the
    default brightness 0 and contrast 1), so that the arithmetic of the
    model is that of the code. *)
Theorem mapColors_default_color
    (intensity_values : loc) (o : map_options) (s : store) (cl : loc)
    (i : nat) (q mn mx : Q) :
  colors (cmap s) = Some cl -> (cl < List.length (objects s))%nat ->
  mo_destination o = None -> mo_default_colors o = None ->
  match mo_clamp o with Some b => b | None => clamp (cmap s) end = false ->
  undef_default (mo_min o) (of_Z 0) = Fin mn ->
  undef_default (mo_max o) (of_Z 255) = Fin mx ->
  match lookup (objects s) intensity_values with
  | PlainArray _ => True
  | TypedArray k _ => store_conv k (Fin q) = Fin q
  end ->
  (i < length (lookup (objects s) intensity_values))%nat ->
  Z.of_nat (length (lookup (objects s) intensity_values) * 4) < 2 ^ 32 ->
  nth i (values (lookup (objects s) intensity_values)) NaN = Fin q ->
  (q < mn)%Q \/ (mx < q)%Q ->
  ((Fin q >? Fin mx) && (Fin q <=? or_default (mo_maxSpectrum o) (of_Z 4)))%js
  = false ->
  let scale := undef_default (mo_scale o) (scale (cmap s)) in
  let brightness0 := undef_default (mo_brightness o) (brightness (cmap s)) in
  let contrast0 := undef_default (mo_contrast o) (contrast (cmap s)) in
  Double.mul brightness0 scale = (brightness0 * scale)%js ->
  Double.mul contrast0 scale = (contrast0 * scale)%js ->
  let result := mapColors intensity_values (Some o) None s in
  let buffer := lookup (objects (snd result)) (List.length (objects s)) in
  fst result = Some (List.length (objects s))
  /\ get buffer (of_nat (i * 4))
     = to_float32 (contrast0 * scale * of_Z 0 + brightness0 * scale)%js
  /\ get buffer (of_nat (i * 4 + 1))
     = to_float32 (contrast0 * scale * of_Z 0 + brightness0 * scale)%js
  /\ get buffer (of_nat (i * 4 + 2))
     = to_float32 (contrast0 * scale * of_Z 0 + brightness0 * scale)%js
  /\ get buffer (of_nat (i * 4 + 3)) = to_float32 (scale * of_Z 1)%js.
Proof.
  intros Hcl Hin Hdest Hdc Hclamp Hmin Hmax Harr Hi Hbound Hval Hout Hband
         scale brightness0 contrast0 _ _.
  set (brightness := (brightness0 * scale)%js).
  set (contrast := (contrast0 * scale)%js).
  pose proof (mapColors_fresh_pixels intensity_values o s cl Hcl Hin Hdest
                Hbound) as H.
  rewrite Hdc, Hclamp, Hmin, Hmax in H. cbv zeta in H.
  destruct H as (data' & Hfst & Hsnd & Hpix).
  cbv zeta. split; [ exact Hfst | ].
  rewrite Hsnd.
  assert (Hcopy : forall ch, (ch < 4)%nat ->
            get (TypedArray Float32 data') (of_nat (i * 4 + ch))
            = to_float32
                (shade scale contrast brightness
                   (array_of [of_Z 0; of_Z 0; of_Z 0; of_Z 1]) (of_Z 0) ch)).
  { intros ch Hch. rewrite (Hpix i ch Hi Hch).
    rewrite (nth_values_copy _ _ _ i Hi), Hval.
    assert (Hkept : match lookup (objects s) intensity_values with
                    | PlainArray _ =>
                        nVal (Fin mx) (or_default (mo_maxSpectrum o) (of_Z 4))
                          (Fin q)
                    | TypedArray k _ =>
                        store_conv k
                          (nVal (Fin mx)
                             (or_default (mo_maxSpectrum o) (of_Z 4)) (Fin q))
                    end = Fin q).
    { unfold nVal. rewrite Hband.
      now destruct (lookup (objects s) intensity_values). }
    rewrite Hkept.
    assert (Hsentinel : forall inc len flip,
              getColorMapIndex (Fin q) (Fin mn) (Fin mx) inc false flip len
              = of_Z (-1)).
    { intros inc len flip. unfold getColorMapIndex, gt. rewrite !lt_Fin.
      assert (E : Qltb q mn || Qltb mx q = true).
      { apply orb_true_iff.
        destruct Hout; [ left | right ]; now apply Qltb_true. }
      now rewrite E. }
    rewrite Hsentinel. cbn [store_conv].
    change (of_Z (-1) <? of_Z 0)%js with true. cbn iota.
    change (length (array_of [of_Z 0; of_Z 0; of_Z 0; of_Z 1]) =? 4)%nat
      with true. cbn iota.
    unfold of_nat at 1. rewrite mul_of_Z.
    now replace (Z.of_nat (i * 4) * 0) with 0 by lia. }
  replace (i * 4)%nat with (i * 4 + 0)%nat at 1 by lia.
  rewrite !Hcopy by lia.
  repeat split; reflexivity.
Qed.

Lemma mapColors_default_color_witness :
  let s := createColorMap (Some five_colors) None [array_of [of_Z 9]] in
  let o := mkMapOptions (Some (of_Z 0)) (Some (of_Z 4)) None None None
             None (Some false) None None None None in
  get (lookup (objects (snd (mapColors 0%nat (Some o) None s))) 2%nat)
    (of_nat 3)
  = of_Z 1.
Proof.
  intros s o.
  exact (proj2 (proj2 (proj2 (proj2
    (mapColors_default_color 0%nat o s 1%nat 0%nat 9 0 4
       eq_refl ltac:(vm_compute; lia) eq_refl eq_refl eq_refl eq_refl eq_refl
       I ltac:(vm_compute; lia) ltac:(vm_compute; reflexivity) eq_refl
       (or_intror eq_refl) eq_refl eq_refl eq_refl))))).
Defined.

(** X9.  A NaN intensity in a plain or float array, mapped without
    [colorOptions] into a caller's typed-array destination that has room for
    every value and is not the color table: when the table holds nothing
    under the key NaN, all four entries of that position are NaN as the
    destination stores it, that is 0, 0, 0, 0 in the [Uint8ClampedArray] of
    an image. *)
Theorem mapColors_nan_pixel
    (intensity_values : loc) (o : map_options) (s : store) (cl d : loc)
    (k : elemkind) (data : list jsnum) (i ch : nat) :
  colors (cmap s) = Some cl ->
  mo_destination o = Some d -> mo_colorOptions o = None ->
  cl <> d ->
  lookup (objects s) d = TypedArray k data ->
  (length (lookup (objects s) intensity_values) * 4 <= List.length data)%nat ->
  Z.of_nat (length (lookup (objects s) intensity_values) * 4) < 2 ^ 32 ->
  get (lookup (objects s) cl) NaN = NaN ->
  match lookup (objects s) intensity_values with
  | PlainArray _ => True
  | TypedArray k _ => k = Float32 \/ k = Float64
  end ->
  (i < length (lookup (objects s) intensity_values))%nat -> (ch < 4)%nat ->
  nth i (values (lookup (objects s) intensity_values)) NaN = NaN ->
  let result := mapColors intensity_values (Some o) None s in
  fst result = Some d
  /\ get (lookup (objects (snd result)) d) (of_nat (i * 4 + ch))
     = store_conv k NaN.
Proof.
  intros Hcl Hdest Hopts Hsep Hd Hfit Hbound Hnan Harr Hi Hch Hval.
  pose proof (mapColors_pixels_typed intensity_values o s cl k Hcl) as H.
  rewrite Hdest, Hopts in H. cbv zeta in H. cbn [fst snd] in H.
  destruct H as (data' & Hfst & Hsnd & Hpix).
  - exact Hsep.
  - exists data. split; [ exact Hd | ]. now rewrite length_map_array.
  - rewrite length_map_array. exact Hbound.
  - cbv zeta. split; [ exact Hfst | ].
    rewrite Hsnd, get_typed by lia.
    rewrite Hpix by (rewrite ?length_map_array; assumption).
    rewrite (nth_values_copy _ _ _ i Hi), Hval, nVal_NaN.
    assert (Hkept : match lookup (objects s) intensity_values with
                    | PlainArray _ => NaN
                    | TypedArray k0 _ => store_conv k0 NaN
                    end = NaN).
    { destruct (lookup (objects s) intensity_values) as [a | k0 data0];
        [ reflexivity | ].
      now destruct Harr as [-> | ->]. }
    rewrite Hkept.
    rewrite getColorMapIndex_nan.
    change (NaN <? of_Z 0)%js with false. cbn iota.
    f_equal. unfold shade.
    destruct ch as [| [| [| [| ch]]]]; try lia; cbn [add]; rewrite Hnan.
    + now destruct (_ * _)%js.
    + now destruct (_ * _)%js.
    + now destruct (_ * _)%js.
    + now destruct (undef_default (mo_scale o) (scale (cmap s))).
Qed.

Lemma mapColors_nan_pixel_witness :
  let s := createColorMap (Some five_colors) None
             [array_of [NaN]; TypedArray Uint8Clamped (repeat (of_Z 7) 4)] in
  let o := mkMapOptions (Some (of_Z 0)) (Some (of_Z 4)) None None (Some 1%nat)
             None None None None None None in
  get (lookup (objects (snd (mapColors 0%nat (Some o) None s))) 1%nat) (of_nat 3)
  = of_Z 0.
Proof.
  intros s o.
  exact (proj2
    (mapColors_nan_pixel 0%nat o s 2%nat 1%nat Uint8Clamped
       (repeat (of_Z 7) 4) 0%nat 3%nat
       eq_refl eq_refl eq_refl ltac:(discriminate) eq_refl
       ltac:(vm_compute; lia) ltac:(vm_compute; reflexivity) eq_refl I
       ltac:(vm_compute; lia) ltac:(lia) eq_refl)).
Defined.

(** ** blendImages: any number of images *)

Lemma clamp_byte (n : Z) :
  0 <= n <= 255 -> store_conv Uint8Clamped (of_Z n) = of_Z n.
Proof.
  intros Hn. rewrite <- (clamp_byte_times_one n Hn) at 2.
  now rewrite mul_of_Z, Z.mul_1_r.
Qed.


Section BlendMany.

Variable opacitys : list jsnum.

Lemma blend_images_at_other (y x pixel : nat) (images : list ImageData) :
  forall (i : nat) (st : blend_state) (q : nat),
  (q < pixel \/ pixel + 4 <= q)%nat ->
  nth q (target_data (blend_images_at opacitys y x pixel i images st)) NaN
  = nth q (target_data st) NaN.
Proof.
  induction images as [| image rest IH]; intros i st q Hq; cbn; auto.
  rewrite IH by exact Hq. now apply blend_image_other.
Qed.

Lemma blend_images_at_length (y x pixel : nat) (images : list ImageData) :
  forall (i : nat) (st : blend_state),
  List.length (target_data (blend_images_at opacitys y x pixel i images st))
  = List.length (target_data st).
Proof.
  induction images as [| image rest IH]; intros i st; cbn; auto.
  rewrite IH. apply blend_image_length.
Qed.

(** The target only ever holds integers. *)
Lemma blend_image_integers (y x pixel i : nat) (image : ImageData)
    (st : blend_state) :
  Forall (fun v => exists z, v = of_Z z) (target_data st) ->
  Forall (fun v => exists z, v = of_Z z)
    (target_data (blend_image opacitys y x pixel i image st)).
Proof.
  assert (Hset : forall d n v,
            Forall (fun v => exists z, v = of_Z z) d ->
            Forall (fun v => exists z, v = of_Z z) (set_byte d n v)).
  { intros d n v Hd. unfold set_byte. revert n.
    induction Hd as [| e d He Hd IH]; intros [| n]; cbn; constructor; auto.
    cbn [store_conv]. eexists. reflexivity. }
  intros H. unfold blend_image.
  destruct (_ && _)%bool; [ | exact H ].
  cbn [target_data]. destruct (_ || _)%bool; repeat apply Hset; exact H.
Qed.

Lemma blend_images_at_integers (y x pixel : nat) (images : list ImageData) :
  forall (i : nat) (st : blend_state),
  Forall (fun v => exists z, v = of_Z z) (target_data st) ->
  Forall (fun v => exists z, v = of_Z z)
    (target_data (blend_images_at opacitys y x pixel i images st)).
Proof.
  induction images as [| image rest IH]; intros i st H; cbn; auto.
  apply IH. now apply blend_image_integers.
Qed.

Lemma list_set_middle {A} (pre : list A) (x v : A) (l : list A) :
  list_set (pre ++ x :: l) (List.length pre) v = pre ++ v :: l.
Proof. induction pre as [| e pre IH]; cbn; [ reflexivity | now rewrite IH ]. Qed.

Lemma repeat_snoc_app {A} (a : A) (i : nat) (l : list A) :
  repeat a (S i) ++ l = repeat a i ++ a :: l.
Proof. induction i as [| i IH]; cbn in *; [ reflexivity | now rewrite IH ]. Qed.

Lemma list_set_repeat_app {A} (u u' v : A) (i : nat) (l : list A) :
  list_set (repeat u' i ++ u :: l) i v = repeat u' i ++ v :: l.
Proof.
  pose proof (list_set_middle (repeat u' i) u v l) as H.
  now rewrite repeat_length in H.
Qed.

Lemma nth_repeat_app {A} (u u' d : A) (i : nat) (l : list A) :
  nth i (repeat u' i ++ u :: l) d = u.
Proof.
  pose proof (nth_middle (repeat u' i) l u d) as H.
  now rewrite repeat_length in H.
Qed.

(** Inside every image, each image's next-pixel position moves on. *)
Lemma blend_images_at_iter (y x pixel : nat) (u : Z) (images : list ImageData) :
  Forall (fun image => (y < height image)%nat /\ (x < width image)%nat) images ->
  forall (i r : nat) (st : blend_state),
  image_iter st = repeat ((u + 4) mod 2 ^ 32) i
                    ++ repeat u (List.length images + r) ->
  image_iter (blend_images_at opacitys y x pixel i images st)
  = repeat ((u + 4) mod 2 ^ 32) (i + List.length images) ++ repeat u r.
Proof.
  induction 1 as [| image rest [Hy Hx] Hrest IH]; intros i r st Hst.
  - cbn in *. now rewrite Nat.add_0_r.
  - cbn [blend_images_at List.length] in *.
    replace (i + S (List.length rest))%nat
      with (S i + List.length rest)%nat by lia.
    cbn [Nat.add repeat] in Hst.
    apply IH. rewrite (blend_image_iter _ _ _ _ _ _ _ Hy Hx), Hst.
    rewrite nth_repeat_app, list_set_repeat_app.
    symmetry. apply repeat_snoc_app.
Qed.

Lemma blend_images_at_app (y x pixel : nat) (front back : list ImageData) :
  forall (i : nat) (st : blend_state),
  blend_images_at opacitys y x pixel i (front ++ back) st
  = blend_images_at opacitys y x pixel (i + List.length front) back
      (blend_images_at opacitys y x pixel i front st).
Proof.
  induction front as [| image rest IH]; intros i st; cbn.
  - now rewrite Nat.add_0_r.
  - rewrite IH. f_equal. lia.
Qed.

End BlendMany.

Lemma length_insert_image (x : ImageData) (l : list ImageData) :
  List.length (insert_image x l) = S (List.length l).
Proof.
  induction l as [| y l IH]; cbn; [ reflexivity | ].
  destruct (_ <? _)%js; cbn; auto.
Qed.

Lemma length_sort_images (images : list ImageData) :
  List.length (sort_images images) = List.length images.
Proof.
  unfold sort_images.
  assert (H : forall acc,
            List.length (fold_left (fun sorted x => insert_image x sorted)
                           images acc)
            = (List.length images + List.length acc)%nat).
  { induction images as [| x l IH]; intros acc; cbn; [ reflexivity | ].
    rewrite IH, length_insert_image. lia. }
  rewrite H. cbn. lia.
Qed.

(** X10.  Unless it is handed exactly one image, [blendImages] returns the
    target with its width, height, [display_zindex] and number of bytes
    unchanged, whatever the sizes of the images are: an image larger or
    smaller than the target never resizes it. *)
Theorem blend_keeps_target_size
    (images : list ImageData) (target : ImageData) (blend_opacitys : list jsnum) :
  List.length images <> 1%nat ->
  let out := blendImages images target blend_opacitys in
  width out = width target /\ height out = height target
  /\ display_zindex out = display_zindex target
  /\ List.length (data out) = List.length (data target).
Proof.
  intros Hmany out.
  assert (Hout : out =
    mkImageData (width target) (height target)
      (target_data
         (for_loop (height target) 0
            (fun y =>
               for_loop (width target) 0
                 (fun x => blend_pixel
                             (List.map (store_conv Float32) blend_opacitys)
                             (sort_images images) (width target) y x))
            (mkBlend (data target)
               (repeat 0 (List.length (sort_images images))))))
      (display_zindex target)).
  { unfold out, blendImages.
    destruct images as [| i1 [| i2 rest]]; try reflexivity.
    cbn in Hmany. congruence. }
  rewrite Hout. cbn [width height display_zindex data].
  repeat split.
  apply (for_loop_invariant
           (fun _ st => List.length (target_data st) = List.length (data target))
           _ (height target) 0); [ reflexivity | ].
  intros y st _ Hst.
  apply (for_loop_invariant
           (fun _ st => List.length (target_data st) = List.length (data target))
           _ (width target) 0); [ exact Hst | ].
  intros x st' _ Hst'. unfold blend_pixel.
  now rewrite blend_images_at_length.
Qed.

Lemma blend_keeps_target_size_witness :
  let big := mkImageData 2 2 (repeat (of_Z 9) 16) None in
  let target := mkImageData 1 1 (repeat (of_Z 0) 4) None in
  List.length (data (blendImages [big; big] target [of_Z 1; of_Z 1])) = 4%nat.
Proof.
  intros big target.
  exact (proj2 (proj2 (proj2
    (blend_keeps_target_size [big; big] target [of_Z 1; of_Z 1]
       ltac:(discriminate))))).
Defined.

Section BlendTop.

Variable opacitys : list jsnum.
Variable front : list ImageData.
Variable b : ImageData.
Variables W H : nat.
Variables x0 y0 : nat.
Variables red green blue : Z.

Hypothesis same_size :
  Forall (fun image => width image = W /\ height image = H) (front ++ [b]).
Hypothesis x0_inside : (x0 < W)%nat.
Hypothesis y0_inside : (y0 < H)%nat.
Hypothesis size : Z.of_nat (4 * W * H) <= 2 ^ 32.

Let p := ((y0 * W + x0) * 4)%nat.

Hypothesis b_red : nth p (data b) NaN = of_Z red.
Hypothesis b_green : nth (p + 1) (data b) NaN = of_Z green.
Hypothesis b_blue : nth (p + 2) (data b) NaN = of_Z blue.
Hypothesis red_byte : 0 <= red <= 255.
Hypothesis green_byte : 0 <= green <= 255.
Hypothesis blue_byte : 0 <= blue <= 255.
Hypothesis not_black : 0 < red \/ 0 < green \/ 0 < blue.
Hypothesis opaque : nth (List.length front) opacitys NaN = of_Z 1.

Let covered (td : list jsnum) : Prop :=
  nth p td NaN = of_Z red /\ nth (p + 1) td NaN = of_Z green
  /\ nth (p + 2) td NaN = of_Z blue /\ nth (p + 3) td NaN = of_Z 255.

Let integers (td : list jsnum) : Prop :=
  Forall (fun v => exists z, v = of_Z z) td.

Let inv (n : nat) (st : blend_state) : Prop :=
  List.length (target_data st) = (4 * W * H)%nat
  /\ image_iter st
     = repeat (Z.of_nat (n * 4) mod 2 ^ 32) (List.length (front ++ [b]))
  /\ integers (target_data st)
  /\ ((y0 * W + x0 < n)%nat -> covered (target_data st)).

Lemma images_inside (x y : nat) :
  (x < W)%nat -> (y < H)%nat ->
  forall images,
  Forall (fun image => width image = W /\ height image = H) images ->
  Forall (fun image => (y < height image)%nat /\ (x < width image)%nat) images.
Proof.
  intros Hx Hy images Himages.
  induction Himages as [| image rest [Hw Hh] _ IH]; constructor; auto.
  rewrite Hw, Hh. now split.
Qed.

Lemma integer_entry (td : list jsnum) (q : nat) :
  integers td -> (q < List.length td)%nat -> exists z, nth q td NaN = of_Z z.
Proof.
  intros Htd Hq. unfold integers in Htd. rewrite Forall_forall in Htd.
  apply Htd. now apply nth_In.
Qed.

(** The images at the pixel of interest: the last one covers the rest. *)
Lemma top_at_pixel (st : blend_state) :
  List.length (target_data st) = (4 * W * H)%nat ->
  image_iter st = repeat (Z.of_nat p) (List.length (front ++ [b])) ->
  integers (target_data st) ->
  covered (target_data (blend_images_at opacitys y0 x0 p 0 (front ++ [b]) st)).
Proof.
  intros Hlen Hiter Hint.
  assert (Hp : (p + 3 < 4 * W * H)%nat) by (unfold p; nia).
  rewrite blend_images_at_app. cbn [Nat.add blend_images_at].
  set (st1 := blend_images_at opacitys y0 x0 p 0 front st).
  assert (Hlen1 : List.length (target_data st1) = (4 * W * H)%nat)
    by (unfold st1; now rewrite blend_images_at_length).
  assert (Hint1 : integers (target_data st1))
    by (unfold st1; now apply blend_images_at_integers).
  pose proof same_size as Hsame.
  apply Forall_app in Hsame. destruct Hsame as [Hfront Hb].
  apply Forall_inv in Hb. destruct Hb as [Hbw Hbh].
  assert (Hiter1 : nth (List.length front) (image_iter st1) 0 = Z.of_nat p).
  { unfold st1.
    rewrite (blend_images_at_iter opacitys y0 x0 p (Z.of_nat p) front
               (images_inside x0 y0 x0_inside y0_inside front Hfront) 0 1 st).
    - cbn [Nat.add repeat]. apply nth_repeat_app.
    - cbn [repeat app]. rewrite Hiter, length_app. reflexivity. }
  destruct (integer_entry _ p Hint1 ltac:(lia)) as (z0 & Hz0).
  destruct (integer_entry _ (p + 1)%nat Hint1 ltac:(lia)) as (z1 & Hz1).
  destruct (integer_entry _ (p + 2)%nat Hint1 ltac:(lia)) as (z2 & Hz2).
  unfold blend_image.
  assert (Ein : ((y0 <? height b) && (x0 <? width b))%nat = true).
  { rewrite Hbw, Hbh. apply andb_true_iff. split; now apply Nat.ltb_lt. }
  rewrite Ein, Hiter1, Nat2Z.id, b_red, b_green, b_blue, !gt_of_Z_zero.
  assert (Ecolor : ((0 <? red) || (0 <? green) || (0 <? blue))%bool = true).
  { rewrite !orb_true_iff, !Z.ltb_lt. tauto. }
  rewrite Ecolor, opaque.
  assert (Eop : (if (List.length front =? 0)%nat then of_Z 0
                 else (of_Z 1 - of_Z 1)%js) = of_Z 0).
  { destruct (_ =? _)%nat; [ reflexivity | now rewrite sub_of_Z ]. }
  rewrite Eop. cbn [target_data]. unfold covered. simplify_bytes.
  rewrite Hz0, Hz1, Hz2, !mul_of_Z, !add_of_Z.
  replace (z0 * 0 + red * 1) with red by lia.
  replace (z1 * 0 + green * 1) with green by lia.
  replace (z2 * 0 + blue * 1) with blue by lia.
  rewrite !clamp_byte by lia.
  repeat split; reflexivity.
Qed.

Lemma top_pixel_step (x y : nat) (st : blend_state) :
  (x < W)%nat -> (y < H)%nat ->
  inv (y * W + x) st ->
  inv (S (y * W + x)) (blend_pixel opacitys (front ++ [b]) W y x st).
Proof.
  intros Hx Hy (Hlen & Hiter & Hint & Hafter).
  unfold blend_pixel. set (n := (y * W + x)%nat) in *.
  assert (Hp : (p + 3 < 4 * W * H)%nat) by (unfold p; nia).
  split; [ now rewrite blend_images_at_length | ].
  split.
  { rewrite (blend_images_at_iter opacitys y x (n * 4)
               (Z.of_nat (n * 4) mod 2 ^ 32) (front ++ [b])
               (images_inside x y Hx Hy _ same_size) 0 0 st).
    - cbn [Nat.add repeat]. rewrite app_nil_r, Zplus_mod_idemp_l.
      replace (Z.of_nat (S n * 4)) with (Z.of_nat (n * 4) + 4) by lia.
      reflexivity.
    - cbn [repeat app]. now rewrite Nat.add_0_r. }
  split; [ now apply blend_images_at_integers | ].
  intros Hlt.
  destruct (Nat.eq_dec n (y0 * W + x0)) as [Heq | Hne].
  - assert (Hsame : y = y0 /\ x = x0).
    { unfold n in Heq.
      assert (Ey : y = ((y * W + x) / W)%nat)
        by (apply (Nat.div_unique _ W y x); lia).
      assert (Ey0 : y0 = ((y * W + x) / W)%nat)
        by (apply (Nat.div_unique _ W y0 x0); lia).
      assert (y = y0) by congruence. subst y. split; [ reflexivity | lia ]. }
    destruct Hsame as [-> ->]. fold p. apply top_at_pixel.
    + exact Hlen.
    + rewrite Hiter. fold p. rewrite Z.mod_small; [ reflexivity | lia ].
    + exact Hint.
  - unfold covered.
    rewrite !blend_images_at_other by (unfold p; lia).
    apply Hafter. lia.
Qed.

Lemma blend_top_loops (td : list jsnum) :
  List.length td = (4 * W * H)%nat -> integers td ->
  covered
    (target_data
       (for_loop H 0
          (fun y =>
             for_loop W 0
               (fun x => blend_pixel opacitys (front ++ [b]) W y x))
          (mkBlend td (repeat 0 (List.length (front ++ [b])))))).
Proof.
  intros Hlen Hint.
  assert (Hinv : inv (H * W)
            (for_loop H 0
               (fun y =>
                  for_loop W 0
                    (fun x => blend_pixel opacitys (front ++ [b]) W y x))
               (mkBlend td (repeat 0 (List.length (front ++ [b])))))).
  { apply (for_loop_invariant (fun y s => inv (y * W) s) _ H 0).
    - split; [ exact Hlen | ]. split; [ reflexivity | ].
      split; [ exact Hint | ]. cbn. lia.
    - intros y s Hy Hs.
      replace (S y * W)%nat with (y * W + W)%nat by lia.
      apply (for_loop_invariant (fun x s => inv (y * W + x) s) _ W 0 s).
      + now rewrite Nat.add_0_r.
      + intros x s' Hx Hs'. cbv beta.
        replace (y * W + S x)%nat with (S (y * W + x)) by lia.
        apply top_pixel_step; [ lia | lia | exact Hs' ]. }
  destruct Hinv as (_ & _ & _ & Hafter). apply Hafter. nia.
Qed.

End BlendTop.

(** X11.  Two or more images that have the target's width and height are
    blended into a target of at most 2^32 bytes.  At every pixel where the
    last image in ascending [display_zindex] order is not black and the
    opacity entry at its position is 1, the output RGB is that image's RGB,
    whatever the images below it and their opacities are, and the output
    alpha is 255. *)
Theorem blend_top_image_wins
    (images front : list ImageData) (b target : ImageData)
    (blend_opacitys : list jsnum) (x y : nat) (red green blue : Z) :
  sort_images images = front ++ [b] -> front <> [] ->
  Forall (fun image => width image = width target
                       /\ height image = height target) (front ++ [b]) ->
  List.length (data target) = (4 * width target * height target)%nat ->
  Forall (fun v => exists z, v = of_Z z) (data target) ->
  Z.of_nat (4 * width target * height target) <= 2 ^ 32 ->
  (x < width target)%nat -> (y < height target)%nat ->
  let p := ((y * width target + x) * 4)%nat in
  nth p (data b) NaN = of_Z red ->
  nth (p + 1) (data b) NaN = of_Z green ->
  nth (p + 2) (data b) NaN = of_Z blue ->
  0 <= red <= 255 -> 0 <= green <= 255 -> 0 <= blue <= 255 ->
  0 < red \/ 0 < green \/ 0 < blue ->
  nth (List.length front) blend_opacitys NaN = of_Z 1 ->
  let out := data (blendImages images target blend_opacitys) in
  nth p out NaN = of_Z red /\ nth (p + 1) out NaN = of_Z green
  /\ nth (p + 2) out NaN = of_Z blue /\ nth (p + 3) out NaN = of_Z 255.
Proof.
  intros Hsort Hfront Hsize Hlen Hint Hbound Hx Hy p
         Hr Hg Hb Hrb Hgb Hbb Hcolor Hop out.
  assert (Hmany : (2 <= List.length images)%nat).
  { rewrite <- length_sort_images, Hsort, length_app. cbn.
    destruct front; [ congruence | cbn; lia ]. }
  unfold out, blendImages.
  destruct images as [| i1 [| i2 rest]]; cbn in Hmany; try lia.
  rewrite Hsort. cbn [data].
  assert (Hop' : nth (List.length front)
                   (List.map (store_conv Float32) blend_opacitys) NaN
                 = of_Z 1).
  { change NaN with (store_conv Float32 NaN) at 1.
    rewrite map_nth, Hop. reflexivity. }
  exact (blend_top_loops (List.map (store_conv Float32) blend_opacitys)
           front b (width target) (height target)
           x y red green blue Hsize Hx Hy Hbound Hr Hg Hb Hrb Hgb Hbb Hcolor
           Hop' (data target) Hlen Hint).
Qed.

Lemma blend_top_image_wins_witness :
  let base := mkImageData 1 1 [of_Z 200; of_Z 100; of_Z 50; of_Z 255] None in
  let top :=
    mkImageData 1 1 [of_Z 10; of_Z 20; of_Z 30; of_Z 255] (Some (of_Z 2)) in
  let target := mkImageData 1 1 (repeat (of_Z 0) 4) None in
  let out := data (blendImages [top; base] target [Fin (1 # 2); of_Z 1]) in
  nth 0 out NaN = of_Z 10 /\ nth 1 out NaN = of_Z 20
  /\ nth 2 out NaN = of_Z 30 /\ nth 3 out NaN = of_Z 255.
Proof.
  intros base top target out.
  refine (blend_top_image_wins [top; base] [base] top target
            [Fin (1 # 2); of_Z 1] 0 0 10 20 30
            eq_refl ltac:(discriminate) _ eq_refl _
            ltac:(vm_compute; discriminate) Nat.lt_0_1 Nat.lt_0_1
            eq_refl eq_refl eq_refl ltac:(lia) ltac:(lia) ltac:(lia)
            ltac:(lia) eq_refl).
  - repeat constructor.
  - repeat constructor; now exists 0.
Defined.

(** ** blendImages: the order of the images *)

Lemma insert_image_permutation (x : ImageData) (l : list ImageData) :
  Permutation (insert_image x l) (x :: l).
Proof.
  induction l as [| y l IH]; cbn; [ reflexivity | ].
  destruct (_ <? _)%js; [ reflexivity | ].
  rewrite IH. apply perm_swap.
Qed.

Lemma sort_images_fold (images acc : list ImageData) :
  Permutation (fold_left (fun sorted x => insert_image x sorted) images acc)
    (images ++ acc).
Proof.
  revert acc. induction images as [| x l IH]; intros acc; cbn; [ reflexivity | ].
  rewrite IH, insert_image_permutation. symmetry. apply Permutation_middle.
Qed.

(** The sort key of an image whose [display_zindex] is not infinite. *)
Lemma zindex_key (image : ImageData) :
  match display_zindex image with
  | Some (PInf | NInf) => False
  | _ => True
  end ->
  exists q, or_default (display_zindex image) (of_Z 0) = Fin q.
Proof.
  unfold or_default. destruct (display_zindex image) as [[q | | |] |];
    intros H; try contradiction.
  - destruct (truthy (Fin q)); eexists; reflexivity.
  - eexists; reflexivity.
  - eexists; reflexivity.
Qed.

Lemma compare_zindex_below (x y : ImageData) (a c : Q) :
  or_default (display_zindex x) (of_Z 0) = Fin a ->
  or_default (display_zindex y) (of_Z 0) = Fin c ->
  (compare_zindex x y <? of_Z 0)%js = Qltb a c.
Proof.
  intros Hx Hy. unfold compare_zindex. rewrite Hx, Hy.
  unfold sub, neg, add, fin, of_Z. rewrite lt_Fin.
  destruct (Qltb a c) eqn:E.
  - apply Qltb_true in E. apply Qltb_true.
    rewrite !Qred_correct. change (inject_Z 0) with 0%Q. lra.
  - apply Qltb_false in E. apply Qltb_false.
    rewrite !Qred_correct. change (inject_Z 0) with 0%Q. lra.
Qed.

Section SortImages.

Let finite_zindex (image : ImageData) : Prop :=
  match display_zindex image with
  | Some (PInf | NInf) => False
  | _ => True
  end.

Let ascending (earlier later : ImageData) : Prop :=
  (compare_zindex later earlier <? of_Z 0)%js = false.

Lemma ascending_trans (x y z : ImageData) :
  finite_zindex x -> finite_zindex y -> finite_zindex z ->
  ascending x y -> ascending y z -> ascending x z.
Proof.
  intros Fx Fy Fz.
  destruct (zindex_key x Fx) as (a & Ha).
  destruct (zindex_key y Fy) as (c & Hc).
  destruct (zindex_key z Fz) as (e & He).
  unfold ascending.
  rewrite (compare_zindex_below y x c a Hc Ha),
          (compare_zindex_below z y e c He Hc),
          (compare_zindex_below z x e a He Ha).
  rewrite !Qltb_false. lra.
Qed.

Lemma insert_image_sorted (x : ImageData) (l : list ImageData) :
  finite_zindex x -> Forall finite_zindex l ->
  StronglySorted ascending l ->
  StronglySorted ascending (insert_image x l).
Proof.
  intros Fx Fl Hl.
  induction Hl as [| y l Hl IH Hy]; cbn.
  - constructor; constructor.
  - apply Forall_cons_iff in Fl. destruct Fl as [Fy Fl].
    destruct (compare_zindex x y <? of_Z 0)%js eqn:E.
    + constructor; [ now constructor | ].
      assert (Hxy : ascending x y).
      { destruct (zindex_key x Fx) as (a & Ha).
        destruct (zindex_key y Fy) as (c & Hc).
        unfold ascending.
        rewrite (compare_zindex_below x y a c Ha Hc) in E.
        rewrite (compare_zindex_below y x c a Hc Ha).
        apply Qltb_true in E. apply Qltb_false. lra. }
      constructor; [ exact Hxy | ].
      rewrite Forall_forall in Hy, Fl |- *. intros z Hz.
      apply (ascending_trans x y z); auto.
    + constructor; [ now apply IH | ].
      rewrite (insert_image_permutation x l).
      constructor; [ exact E | exact Hy ].
Qed.

Lemma sort_fold_sorted (images : list ImageData) :
  forall acc,
  Forall finite_zindex images -> Forall finite_zindex acc ->
  StronglySorted ascending acc ->
  StronglySorted ascending
    (fold_left (fun sorted x => insert_image x sorted) images acc).
Proof.
  induction images as [| x l IH]; intros acc Fl Facc Hacc; cbn; auto.
  apply Forall_cons_iff in Fl. destruct Fl as [Fx Fl].
  apply IH; auto.
  - rewrite (insert_image_permutation x acc). now constructor.
  - now apply insert_image_sorted.
Qed.

(** An image that compares below none of the images already sorted goes
    behind them all. *)
Lemma insert_image_last (x : ImageData) (l : list ImageData) :
  Forall (fun earlier => ascending earlier x) l ->
  insert_image x l = l ++ [x].
Proof.
  induction 1 as [| y l Hy _ IH]; cbn; [ reflexivity | ].
  unfold ascending in Hy. now rewrite Hy, IH.
Qed.

Lemma sort_fold_ascending (images : list ImageData) :
  forall acc,
  StronglySorted ascending (acc ++ images) ->
  fold_left (fun sorted x => insert_image x sorted) images acc = acc ++ images.
Proof.
  induction images as [| x l IH]; intros acc Hsorted; cbn.
  - now rewrite app_nil_r.
  - assert (Hx : Forall (fun earlier => ascending earlier x) acc).
    { clear IH. induction acc as [| y acc IHacc]; [ constructor | ].
      cbn in Hsorted. apply StronglySorted_inv in Hsorted.
      destruct Hsorted as [Hrest Hy].
      constructor; [ | now apply IHacc ].
      rewrite Forall_forall in Hy. apply Hy.
      apply in_or_app. right. now left. }
    rewrite (insert_image_last x acc Hx).
    rewrite IH; rewrite <- app_assoc; [ reflexivity | exact Hsorted ].
Qed.

End SortImages.

(** X12.  The images are blended in ascending order of [display_zindex],
    an undefined, zero or NaN [display_zindex] counting as 0: when no
    [display_zindex] is infinite, the sorted list holds the same images and
    no image in it compares below an image before it. *)
Theorem sort_images_ascending (images : list ImageData) :
  Forall (fun image =>
            match display_zindex image with
            | Some (PInf | NInf) => False
            | _ => True
            end) images ->
  Permutation (sort_images images) images
  /\ StronglySorted
       (fun earlier later => (compare_zindex later earlier <? of_Z 0)%js = false)
       (sort_images images).
Proof.
  intros Hfinite. split.
  - unfold sort_images. rewrite sort_images_fold. now rewrite app_nil_r.
  - unfold sort_images. apply sort_fold_sorted; auto; constructor.
Qed.

Lemma sort_images_ascending_witness :
  let low := mkImageData 1 1 [] None in
  let high := mkImageData 1 1 [] (Some (of_Z 3)) in
  StronglySorted
    (fun earlier later => (compare_zindex later earlier <? of_Z 0)%js = false)
    (sort_images [high; low; high]).
Proof.
  intros low high.
  refine (proj2 (sort_images_ascending [high; low; high] _)).
  repeat constructor.
Defined.

(** X13.  The sort is stable on input that is already in order: when no
    image compares below an image before it, in particular when every
    [display_zindex] is undefined, the images are blended in the order in
    which they were given. *)
Theorem sort_images_keeps_order (images : list ImageData) :
  StronglySorted
    (fun earlier later => (compare_zindex later earlier <? of_Z 0)%js = false)
    images ->
  sort_images images = images.
Proof.
  intros Hsorted. unfold sort_images.
  now rewrite sort_fold_ascending.
Qed.

Lemma sort_images_keeps_order_witness :
  let first := mkImageData 1 1 [of_Z 1] None in
  let second := mkImageData 1 1 [of_Z 2] None in
  sort_images [first; second; first] = [first; second; first].
Proof.
  intros first second.
  refine (sort_images_keeps_order [first; second; first] _).
  repeat constructor.
Defined.

(** ** getSliceImage: masks, skipped slices and events *)

Lemma nth_map_from (f : jsnum -> nat -> jsnum) (l : list jsnum) :
  forall (from i : nat), (i < List.length l)%nat ->
  nth i (map_from f l from) NaN = f (nth i l NaN) (from + i)%nat.
Proof.
  induction l as [| v l IH]; intros from i Hi; cbn in Hi; [ lia | ].
  destruct i as [| i]; cbn.
  - now rewrite Nat.add_0_r.
  - rewrite IH by lia. f_equal. lia.
Qed.

Lemma length_map_from (f : jsnum -> nat -> jsnum) (l : list jsnum) (from : nat) :
  List.length (map_from f l from) = List.length l.
Proof. revert from. induction l; intros from; cbn; auto. Qed.

Lemma store_conv_zero (k : elemkind) : store_conv k (of_Z 0) = of_Z 0.
Proof. destruct k; reflexivity. Qed.

(** X14.  Masking a risk heat map held in a typed array: the masked copy
    has the same kind and length; a voxel is kept exactly when the volume's
    [riskId] is truthy and the mask's voxel at the same position is strictly
    equal to it, and is 0 otherwise.  So a volume whose [riskId] is
    undefined, 0 or NaN is blanked entirely. *)
Theorem mask_data_voxels
    (riskId : option jsnum) (mask : slice) (k : elemkind) (data : list jsnum) :
  exists masked,
    mask_data riskId mask (TypedArray k data) = TypedArray k masked
    /\ List.length masked = List.length data
    /\ (forall i, (i < List.length data)%nat ->
          nth i masked NaN
          = match riskId with
            | Some id =>
                if truthy id && (get (slice_data mask) (of_nat i) === id)%js
                then store_conv k (nth i data NaN)
                else of_Z 0
            | None => of_Z 0
            end)
    /\ (match riskId with Some id => truthy id = false | None => True end ->
        masked = repeat (of_Z 0) (List.length data)).
Proof.
  unfold mask_data. cbn [map]. eexists. split; [ reflexivity | ].
  split; [ now rewrite length_map, length_map_from | ].
  assert (Hvoxel : forall i, (i < List.length data)%nat ->
    nth i
      (List.map (store_conv k)
         (map_from
            (fun val sliceIndex =>
               match riskId with
               | Some id =>
                   if truthy id
                      && (get (slice_data mask) (of_nat sliceIndex) === id)%js
                   then val else of_Z 0
               | None => of_Z 0
               end) data 0)) NaN
    = match riskId with
      | Some id =>
          if truthy id && (get (slice_data mask) (of_nat i) === id)%js
          then store_conv k (nth i data NaN)
          else of_Z 0
      | None => of_Z 0
      end).
  { intros i Hi.
    rewrite (nth_indep _ NaN (store_conv k NaN))
      by (now rewrite length_map, length_map_from).
    rewrite map_nth, nth_map_from by exact Hi. cbn [Nat.add].
    destruct riskId as [id |]; [ | apply store_conv_zero ].
    destruct (_ && _)%bool; [ reflexivity | apply store_conv_zero ]. }
  split; [ exact Hvoxel | ].
  intros Hfalsy.
  apply (nth_ext _ _ NaN NaN).
  - now rewrite length_map, length_map_from, repeat_length.
  - intros i Hi. rewrite length_map, length_map_from in Hi.
    rewrite Hvoxel by exact Hi. rewrite nth_repeat_lt by exact Hi.
    destruct riskId as [id |]; [ | reflexivity ]. now rewrite Hfalsy.
Qed.

Lemma mask_data_voxels_witness :
  let mask := mkSlice None None (TypedArray Uint8 [of_Z 5; of_Z 0]) None in
  exists masked,
    mask_data (Some (of_Z 0)) mask (TypedArray Float32 [of_Z 7; of_Z 8])
    = TypedArray Float32 masked
    /\ masked = repeat (of_Z 0) 2.
Proof.
  intros mask.
  destruct (mask_data_voxels (Some (of_Z 0)) mask Float32 [of_Z 7; of_Z 8])
    as (masked & Hmasked & _ & _ & Hblank).
  exists masked. split; [ exact Hmasked | ]. apply Hblank. reflexivity.
Defined.


Section GetSliceImageProps.

Variable createImageData : jsnum -> jsnum -> completion ImageData.
Variable nearestNeighbor : list jsnum -> nat -> nat -> jsnum -> jsnum -> list jsnum.
Variable buffer_bytes : obj -> list jsnum.
Variable volumes : list volume.
Variables (max_width max_height : jsnum).
Variables (riskMaskSlice anatSlice : option slice).
Variables (contrast brightness : option jsnum).

Let render :=
  render_slice createImageData nearestNeighbor buffer_bytes volumes
    max_width max_height riskMaskSlice anatSlice contrast brightness.

Let render_all :=
  render_slices createImageData nearestNeighbor buffer_bytes volumes
    max_width max_height riskMaskSlice anatSlice contrast brightness.

Let quiet (w : world) (outcome : completion unit) (w' : world) : Prop :=
  events w' = events w
  \/ (outcome = Throw (Error no_color_map_message)
      /\ exists i, events w'
                   = events w ++ [(i, "error"%string, no_color_map_message)]).



(** The events after one slice: as before, or the error event together
    with the missing-color-map error. *)
Lemma render_slice_events (slice : slice) (i : nat) (w : world) :
  (exists image, fst (render slice i w) = Normal image
                 /\ events (snd (render slice i w)) = events w)
  \/ (exists e, fst (render slice i w) = Throw e
                /\ (events (snd (render slice i w)) = events w
                    \/ (e = Error no_color_map_message
                        /\ events (snd (render slice i w))
                           = events w
                               ++ [(i, "error"%string, no_color_map_message)]))).
Proof.
  unfold render, render_slice.
  destruct (slice_width slice) as [sw |]; [ | left; eexists; split; reflexivity ].
  destruct (slice_height slice) as [sh |]; [ | left; eexists; split; reflexivity ].
  destruct (nth_error volumes i) as [volume |];
    [ | right; eexists; split; [ reflexivity | now left ] ].
  destruct (color_map volume) as [cm |];
    [ | right; eexists; split; [ reflexivity | right; now split ] ].
  unfold bind, lift, ret.
  destruct (createImageData sw sh) as [source_image | e];
    [ | right; eexists; split; [ reflexivity | now left ] ].
  destruct (createImageData max_width max_height) as [target_image | e];
    [ | right; eexists; split; [ reflexivity | now left ] ].
  destruct (String.eqb (datatype volume) "rgb8").
  - destruct (set_bytes (data source_image) _) as [source_data | e];
      [ | right; eexists; split; [ reflexivity | now left ] ].
    destruct (set_bytes (data target_image) _) as [target_data | e];
      [ left | right ]; eexists; split; try reflexivity. now left.
  - unfold alloc.
    match goal with
    | |- context [ColorMap.mapColors ?a ?b ?c ?d] =>
        destruct (ColorMap.mapColors a b c d) as [r s']
    end.
    destruct (set_bytes (data target_image) _) as [target_data | e];
      [ left | right ]; eexists; split; try reflexivity. now left.
Qed.

Lemma render_slices_events (slices : list slice) :
  forall i images w,
  (exists result, fst (render_all slices i images w) = Normal result
                  /\ events (snd (render_all slices i images w)) = events w)
  \/ (exists e, fst (render_all slices i images w) = Throw e
                /\ (events (snd (render_all slices i images w)) = events w
                    \/ (e = Error no_color_map_message
                        /\ exists j,
                             events (snd (render_all slices i images w))
                             = events w
                                 ++ [(j, "error"%string, no_color_map_message)]))).
Proof.
  induction slices as [| slice rest IH]; intros i images w.
  - left. eexists. split; reflexivity.
  - unfold render_all. cbn [render_slices]. unfold bind. fold render.
    destruct (render_slice_events slice i w)
      as [(image & Hfst & Hev) | (e & Hfst & Hev)];
      destruct (render slice i w) as [[image' | e'] w1]; cbn [fst snd] in *;
      try discriminate.
    + fold render_all.
      destruct (IH (S i)
                  (match image' with
                   | Some image => images ++ [image]
                   | None => images
                   end) w1)
        as [(result & Hr & Hevr) | (e & Hr & Hevr)].
      * left. exists result. split; [ exact Hr | congruence ].
      * right. exists e. split; [ exact Hr | ].
        destruct Hevr as [Hevr | [He (j & Hevr)]].
        -- left. congruence.
        -- right. split; [ exact He | ]. exists j. congruence.
    + right. exists e'. split; [ reflexivity | ].
      injection Hfst as ->.
      destruct Hev as [Hev | [He Hev]]; [ now left | right ].
      split; [ exact He | now exists i ].
Qed.

End GetSliceImageProps.

Section GetSliceImageResults.

Variable createImageData : jsnum -> jsnum -> completion ImageData.
Variable nearestNeighbor : list jsnum -> nat -> nat -> jsnum -> jsnum -> list jsnum.
Variable buffer_bytes : obj -> list jsnum.
Variable volumes : list volume.

Let image_of :=
  getSliceImage createImageData nearestNeighbor buffer_bytes volumes.


Lemma getSliceImage_quiet (slices : list slice)
    (zoom contrast brightness : option jsnum) (w : world) :
  match fst (image_of slices zoom contrast brightness w) with
  | Normal _ =>
      events (snd (image_of slices zoom contrast brightness w)) = events w
  | Throw e =>
      events (snd (image_of slices zoom contrast brightness w)) = events w
      \/ (e = Error no_color_map_message
          /\ exists i,
               events (snd (image_of slices zoom contrast brightness w))
               = events w ++ [(i, "error"%string, no_color_map_message)])
  end.
Proof.
  unfold image_of, getSliceImage.
  destruct slices as [| first rest]; [ now left | ].
  cbv zeta. unfold bind, lift, ret.
  match goal with
  | |- context [render_slices ?c ?n ?b ?v ?mw ?mh ?rm ?an ?ct ?br ?sl ?i ?im w] =>
      destruct (render_slices_events c n b v mw mh rm an ct br sl i im w)
        as [(result & Hfst & Hev) | (e & Hfst & Hev)];
      destruct (render_slices c n b v mw mh rm an ct br sl i im w)
        as [[images | e'] w1]
  end; cbn [fst snd] in *; try discriminate.
  - destruct (createImageData _ _) as [target | e]; cbn [fst snd];
      [ exact Hev | now left ].
  - injection Hfst as ->. exact Hev.
Qed.

End GetSliceImageResults.



(** X16.  Events of [getSliceImage]: a call that returns an image has
    triggered no event; a call that throws has triggered either none, or
    exactly one "error" event carrying the missing-color-map message, and
    then the exception is the [Error] with that message. *)
Theorem getSliceImage_events
    (createImageData : jsnum -> jsnum -> completion ImageData)
    (nearestNeighbor : list jsnum -> nat -> nat -> jsnum -> jsnum -> list jsnum)
    (buffer_bytes : obj -> list jsnum)
    (volumes : list volume) (slices : list slice)
    (zoom contrast brightness : option jsnum) (w : world) :
  let outcome :=
    getSliceImage createImageData nearestNeighbor buffer_bytes volumes
      slices zoom contrast brightness w in
  match fst outcome with
  | Normal _ => events (snd outcome) = events w
  | Throw e =>
      events (snd outcome) = events w
      \/ (e = Error no_color_map_message
          /\ exists i,
               events (snd outcome)
               = events w ++ [(i, "error"%string, no_color_map_message)])
  end.
Proof. cbv zeta. apply getSliceImage_quiet. Qed.

(** ** getAnatSlice and getRiskMaskSlice *)

Lemma find_slice_spec (pick : volume -> bool) (slices : list slice) :
  forall (volumes : list volume) (s : slice),
  find_slice pick slices volumes = Some s <->
  exists i v,
    nth_error slices i = Some s /\ nth_error volumes i = Some v
    /\ pick v = true
    /\ forall j vj, (j < i)%nat -> nth_error volumes j = Some vj ->
                    pick vj = false.
Proof.
  induction slices as [| s0 slices IH]; intros volumes s.
  - split; [ discriminate | ].
    intros (i & v & Hs & _). now destruct i.
  - destruct volumes as [| v0 volumes].
    + split; [ discriminate | ].
      intros (i & v & _ & Hv & _). now destruct i.
    + cbn [find_slice]. destruct (pick v0) eqn:Hpick.
      * split.
        -- intros [= <-]. exists 0%nat, v0. repeat split; auto. lia.
        -- intros (i & v & Hs & Hv & Hp & Hfirst).
           destruct i as [| i]; [ exact Hs | ].
           specialize (Hfirst 0%nat v0 (Nat.lt_0_succ _) eq_refl). congruence.
      * rewrite IH. split.
        -- intros (i & v & Hs & Hv & Hp & Hfirst).
           exists (S i), v. repeat split; auto.
           intros [| j] vj Hj Hvj; [ now injection Hvj as <- | ].
           apply (Hfirst j); [ lia | exact Hvj ].
        -- intros (i & v & Hs & Hv & Hp & Hfirst).
           destruct i as [| i]; [ cbn in Hv; congruence | ].
           exists i, v. repeat split; auto.
           intros j vj Hj Hvj. apply (Hfirst (S j)); [ lia | exact Hvj ].
Qed.

(** X17.  [getAnatSlice] and [getRiskMaskSlice] return the slice at the
    position of the first volume flagged [isAnat] (respectively
    [isRiskMask]), provided the slice list reaches that position, and
    nothing otherwise: the answer is a slice exactly when such a position
    exists. *)
Theorem anat_and_mask_slice_first_flagged
    (slices : list slice) (volumes : list volume) (s : slice) :
  (getAnatSlice slices volumes = Some s <->
   exists i v,
     nth_error slices i = Some s /\ nth_error volumes i = Some v
     /\ isAnat v = true
     /\ forall j vj, (j < i)%nat -> nth_error volumes j = Some vj ->
                     isAnat vj = false)
  /\ (getRiskMaskSlice slices volumes = Some s <->
      exists i v,
        nth_error slices i = Some s /\ nth_error volumes i = Some v
        /\ isRiskMask v = true
        /\ forall j vj, (j < i)%nat -> nth_error volumes j = Some vj ->
                        isRiskMask vj = false).
Proof. split; apply find_slice_spec. Qed.

(** ** colorFromValue: the hex string *)

Lemma to_hex_length (fuel : nat) :
  forall n acc, fuel <> O ->
  (List.length acc < List.length (to_hex fuel n acc))%nat.
Proof.
  induction fuel as [| fuel IH]; intros n acc Hfuel; [ congruence | ].
  cbn [to_hex]. destruct (n / 16 =? 0); [ cbn; lia | ].
  destruct fuel as [| fuel']; [ cbn; lia | ].
  eapply Nat.lt_trans; [ | apply IH; discriminate ]. cbn; lia.
Qed.

Lemma hex2_length (v : jsnum) : List.length (hex2 v) = 2%nat.
Proof.
  unfold hex2.
  assert (Hfuel : forall z, 0 <= z -> Z.to_nat (Z.log2 z + 1) <> O).
  { intros z Hz. pose proof (Z.log2_nonneg z). lia. }
  assert (Hlen : forall text : list ascii, (1 <= List.length text)%nat ->
            List.length
              (skipn (List.length ("0"%char :: text) - 2) ("0"%char :: text))
            = 2%nat).
  { intros text Htext. rewrite length_skipn. cbn [List.length]. lia. }
  apply Hlen. destruct v as [q | | |]; try (cbn; lia).
  destruct (Qfloor q <? 0) eqn:Hneg.
  - cbn [List.length]. lia.
  - apply Z.ltb_ge in Hneg.
    pose proof (to_hex_length (Z.to_nat (Z.log2 (Qfloor q) + 1)) (Qfloor q) []
                  (Hfuel _ Hneg)) as Hl.
    cbn [List.length] in Hl. lia.
Qed.

Lemma length_string_of_list (l : list ascii) :
  String.length (string_of_list_ascii l) = List.length l.
Proof. induction l as [| a l IH]; cbn; congruence. Qed.

(** X18.  Whenever [colorFromValue] answers with a hex string, the string
    has exactly six characters, two per color component, whatever the
    value, window, brightness and contrast (a component that is NaN gives
    the two characters "aN"). *)
Theorem colorFromValue_hex_six_characters
    (value : jsnum) (options : option value_options) (s : store) (text : string) :
  colorFromValue value options s = Hex text -> String.length text = 6%nat.
Proof.
  unfold colorFromValue. destruct (colors (cmap s)); [ | discriminate ].
  destruct (vo_hex _); [ | discriminate ].
  intros [= <-].
  now rewrite length_string_of_list, !length_app, !hex2_length.
Qed.

Lemma colorFromValue_hex_six_characters_witness :
  let s := createColorMap (Some four_colors) None [] in
  let options := Some (mkValueOptions true None None None None None) in
  colorFromValue (of_Z 200) options s = Hex "0000ff"
  /\ String.length "0000ff" = 6%nat.
Proof.
  intros s options.
  assert (Hhex : colorFromValue (of_Z 200) options s = Hex "0000ff")
    by (vm_compute; reflexivity).
  split; [ exact Hhex | ].
  exact (colorFromValue_hex_six_characters (of_Z 200) options s _ Hhex).
Defined.

(** ** createColorMap: the parse loop *)

Section ParseLines.

(** Writing position [n] of the elements of a plain array, and reading it. *)
Let put (l : list (option jsnum)) (n : nat) (v : jsnum) : list (option jsnum) :=
  if (n <? List.length l)%nat then list_set l n (Some v)
  else l ++ repeat None (n - List.length l) ++ [Some v].

Let read (l : list (option jsnum)) (n : nat) : jsnum :=
  match nth n l None with Some v => v | None => NaN end.

Lemma set_plain (a : jsarray) (k v : jsnum) (n : nat) :
  as_index k = Some n ->
  set (PlainArray a) k v = PlainArray (mkArray (put (elems a) n v) (named a)).
Proof.
  intros Hk. unfold set, put. rewrite Hk.
  now destruct (n <? List.length (elems a))%nat.
Qed.

Lemma get_plain (a : jsarray) (k : jsnum) (n : nat) :
  as_index k = Some n -> get (PlainArray a) k = read (elems a) n.
Proof.
  intros Hk. unfold get, read. rewrite Hk.
  destruct (nth_error (elems a) n) as [e |] eqn:He.
  - now rewrite (nth_error_nth _ _ None He).
  - apply nth_error_None in He. now rewrite nth_overflow.
Qed.

Lemma read_put_same (l : list (option jsnum)) (n : nat) (v : jsnum) :
  read (put l n v) n = v.
Proof.
  unfold read, put. destruct (n <? List.length l)%nat eqn:Hn.
  - apply Nat.ltb_lt in Hn. now rewrite nth_list_set_same.
  - apply Nat.ltb_ge in Hn.
    rewrite app_nth2 by lia. rewrite app_nth2 by (rewrite repeat_length; lia).
    rewrite repeat_length.
    now replace (n - List.length l - (n - List.length l))%nat with 0%nat by lia.
Qed.

Lemma read_put_other (l : list (option jsnum)) (n m : nat) (v : jsnum) :
  n <> m -> read (put l n v) m = read l m.
Proof.
  intros Hnm. unfold read, put. destruct (n <? List.length l)%nat eqn:Hn.
  - now rewrite nth_list_set_other.
  - apply Nat.ltb_ge in Hn.
    destruct (Nat.lt_ge_cases m (List.length l)) as [Hm | Hm].
    + now rewrite app_nth1.
    + rewrite app_nth2 by lia. rewrite (nth_overflow l) by lia.
      destruct (Nat.lt_ge_cases m n) as [Hlt | Hge].
      * rewrite app_nth1 by (rewrite repeat_length; lia).
        now rewrite nth_repeat.
      * rewrite nth_overflow; [ reflexivity | ].
        rewrite length_app, repeat_length. cbn [List.length]. lia.
Qed.

(** The four writes of one line at the integer offset [c]. *)
Lemma four_writes (a : jsarray) (c : Z) (v0 v1 v2 v3 : jsnum) :
  0 <= c -> c + 4 < 2 ^ 32 - 1 ->
  exists a',
    set (set (set (set (PlainArray a) (of_Z c + of_Z 0)%js v0)
                (of_Z c + of_Z 1)%js v1) (of_Z c + of_Z 2)%js v2)
      (of_Z c + of_Z 3)%js v3 = PlainArray a'
    /\ get (PlainArray a') (of_Z c) = v0
    /\ get (PlainArray a') (of_Z (c + 1)) = v1
    /\ get (PlainArray a') (of_Z (c + 2)) = v2
    /\ get (PlainArray a') (of_Z (c + 3)) = v3
    /\ (forall n, 0 <= n < 2 ^ 32 - 1 -> n < c \/ c + 4 <= n ->
          get (PlainArray a') (of_Z n) = get (PlainArray a) (of_Z n))
    /\ named a' = named a.
Proof.
  intros Hc Hmax. rewrite !add_of_Z. rewrite Z.add_0_r.
  assert (Hidx : forall n, 0 <= n < 2 ^ 32 - 1 ->
            as_index (of_Z n) = Some (Z.to_nat n))
    by (intros n Hn; now apply as_index_of_Z).
  rewrite (set_plain a _ v0 _ (Hidx c ltac:(lia))).
  rewrite (set_plain _ _ v1 _ (Hidx (c + 1) ltac:(lia))).
  rewrite (set_plain _ _ v2 _ (Hidx (c + 2) ltac:(lia))).
  rewrite (set_plain _ _ v3 _ (Hidx (c + 3) ltac:(lia))).
  cbn [elems named]. eexists. split; [ reflexivity | ].
  repeat split.
  - rewrite (get_plain _ _ _ (Hidx c ltac:(lia))). cbn [elems].
    rewrite !read_put_other by lia. apply read_put_same.
  - rewrite (get_plain _ _ _ (Hidx (c + 1) ltac:(lia))). cbn [elems].
    rewrite !read_put_other by lia. apply read_put_same.
  - rewrite (get_plain _ _ _ (Hidx (c + 2) ltac:(lia))). cbn [elems].
    rewrite !read_put_other by lia. apply read_put_same.
  - rewrite (get_plain _ _ _ (Hidx (c + 3) ltac:(lia))). cbn [elems].
    apply read_put_same.
  - intros n Hn Hout.
    rewrite !(get_plain _ _ _ (Hidx n Hn)). cbn [elems].
    now rewrite !read_put_other by lia.
Qed.

End ParseLines.

(** X19.  A dense line, of three or four fields, read at an integer offset
    [c]: the table gets the parsed fields at [c], [c+1], [c+2], the fourth
    at [c+3] or 1 when the line has only three; every other index reads as
    before, and the offset moves on by 4. *)
Theorem dense_line_writes_at_offset
    (a : jsarray) (c : Z) (line f0 f1 f2 : list ascii)
    (rest : list (list ascii)) :
  0 <= c -> c + 4 < 2 ^ 32 - 1 ->
  split_spaces [] false (trim line) = f0 :: f1 :: f2 :: rest ->
  (List.length rest <= 1)%nat ->
  exists a',
    parse_line (PlainArray a, of_Z c) line = (PlainArray a', of_Z (c + 4))
    /\ get (PlainArray a') (of_Z c) = parseFloat f0
    /\ get (PlainArray a') (of_Z (c + 1)) = parseFloat f1
    /\ get (PlainArray a') (of_Z (c + 2)) = parseFloat f2
    /\ get (PlainArray a') (of_Z (c + 3))
       = match rest with f3 :: _ => parseFloat f3 | [] => of_Z 1 end
    /\ (forall n, 0 <= n < 2 ^ 32 - 1 -> n < c \/ c + 4 <= n ->
          get (PlainArray a') (of_Z n) = get (PlainArray a) (of_Z n))
    /\ named a' = named a.
Proof.
  intros Hc Hmax Hfields Hrest. unfold parse_line. rewrite Hfields.
  destruct rest as [| f3 [| f4 rest]]; [ | | cbn in Hrest; lia ].
  - cbn -[set of_Z add parseFloat].
    destruct (four_writes a c (parseFloat f0) (parseFloat f1) (parseFloat f2)
                (of_Z 1) Hc Hmax) as (a' & -> & H).
    exists a'. split; [ now rewrite add_of_Z | exact H ].
  - cbn -[set of_Z add parseFloat].
    destruct (four_writes a c (parseFloat f0) (parseFloat f1) (parseFloat f2)
                (parseFloat f3) Hc Hmax) as (a' & -> & H).
    exists a'. split; [ now rewrite add_of_Z | exact H ].
Qed.

Lemma dense_line_writes_at_offset_witness :
  exists a',
    parse_line (empty_array, of_Z 4) (list_ascii_of_string "0.5 0 1")
    = (PlainArray a', of_Z 8)
    /\ get (PlainArray a') (of_Z 4) = Fin (1 # 2)
    /\ get (PlainArray a') (of_Z 7) = of_Z 1
    /\ get (PlainArray a') (of_Z 0) = NaN.
Proof.
  destruct (dense_line_writes_at_offset (mkArray [] []) 4
              (list_ascii_of_string "0.5 0 1")
              (list_ascii_of_string "0.5") (list_ascii_of_string "0")
              (list_ascii_of_string "1") []
              ltac:(lia) ltac:(lia) eq_refl (Nat.le_0_l 1))
    as (a' & Hline & H0 & _ & _ & H3 & Hother & _).
  exists a'. split; [ exact Hline | ].
  split; [ rewrite H0; reflexivity | ].
  split; [ exact H3 | ].
  rewrite (Hother 0 ltac:(lia) ltac:(lia)). reflexivity.
Defined.

(** X20.  A label line, of five or more fields whose first parses to the
    integer [label]: the four fields after the label are written at
    [4 * label .. 4 * label + 3], wherever the loop stood before; every
    other index reads as before, fields after the fifth are ignored, and
    the next dense line continues at [4 * label + 4]. *)
Theorem label_line_writes_at_label
    (o : obj) (a : jsarray) (ic : jsnum) (label : Z)
    (line lab f0 f1 f2 f3 : list ascii) (rest : list (list ascii)) :
  o = PlainArray a ->
  0 <= label -> label * 4 + 4 < 2 ^ 32 - 1 ->
  split_spaces [] false (trim line) = lab :: f0 :: f1 :: f2 :: f3 :: rest ->
  parseInt lab = of_Z label ->
  exists a',
    parse_line (o, ic) line = (PlainArray a', of_Z (label * 4 + 4))
    /\ get (PlainArray a') (of_Z (label * 4)) = parseFloat f0
    /\ get (PlainArray a') (of_Z (label * 4 + 1)) = parseFloat f1
    /\ get (PlainArray a') (of_Z (label * 4 + 2)) = parseFloat f2
    /\ get (PlainArray a') (of_Z (label * 4 + 3)) = parseFloat f3
    /\ (forall n, 0 <= n < 2 ^ 32 - 1 ->
          n < label * 4 \/ label * 4 + 4 <= n ->
          get (PlainArray a') (of_Z n) = get o (of_Z n))
    /\ named a' = named a.
Proof.
  intros -> Hlabel Hmax Hfields Hlab. unfold parse_line. rewrite Hfields.
  cbn -[set of_Z add mul parseFloat parseInt]. rewrite Hlab, mul_of_Z.
  destruct (four_writes a (label * 4) (parseFloat f0) (parseFloat f1)
              (parseFloat f2) (parseFloat f3) ltac:(lia) Hmax)
    as (a' & -> & H).
  exists a'. split; [ now rewrite add_of_Z | exact H ].
Qed.

Lemma label_line_writes_at_label_witness :
  exists a',
    parse_line (array_of [of_Z 9], of_Z 40)
      (list_ascii_of_string "2 1 0 0 0.5 ignored")
    = (PlainArray a', of_Z 12)
    /\ get (PlainArray a') (of_Z 8) = of_Z 1
    /\ get (PlainArray a') (of_Z 11) = Fin (1 # 2)
    /\ get (PlainArray a') (of_Z 0) = of_Z 9.
Proof.
  destruct (label_line_writes_at_label (array_of [of_Z 9]) _ (of_Z 40) 2
              (list_ascii_of_string "2 1 0 0 0.5 ignored")
              (list_ascii_of_string "2") (list_ascii_of_string "1")
              (list_ascii_of_string "0") (list_ascii_of_string "0")
              (list_ascii_of_string "0.5") [list_ascii_of_string "ignored"]
              eq_refl ltac:(lia) ltac:(lia) eq_refl eq_refl)
    as (a' & Hline & H0 & _ & _ & H3 & Hother & _).
  exists a'. split; [ exact Hline | ].
  split; [ exact H0 | ].
  split; [ exact H3 | ].
  exact (Hother 0 ltac:(lia) ltac:(lia)).
Defined.

(** X21.  A label that is not a number poisons the offset: a line of five
    or more fields whose first field parses to NaN leaves every array
    element as it was and sets the offset to NaN; and from the offset NaN a
    dense line again changes no element and leaves the offset NaN.  The
    values only land in the property named "NaN". *)
Theorem bad_label_poisons_offset
    (a : jsarray) (ic : jsnum) (line : list ascii) :
  let fields := split_spaces [] false (trim line) in
  (5 <= List.length fields)%nat /\ parseInt (nth 0 fields []) = NaN
  \/ (List.length fields <= 4)%nat /\ ic = NaN ->
  exists named',
    parse_line (PlainArray a, ic) line
    = (PlainArray (mkArray (elems a) named'), NaN).
Proof.
  intros fields Hcase. unfold parse_line. fold fields.
  destruct a as [cells names].
  destruct fields as [| g0 [| g1 [| g2 [| g3 [| g4 rest]]]]];
    cbn [List.length] in Hcase;
    destruct Hcase as [[Hlen Hlab] | [Hlen ->]]; try lia;
    try (cbn; eexists; reflexivity).
  cbn [nth] in Hlab.
  cbn -[set of_Z add mul parseFloat parseInt]. rewrite Hlab.
  cbn. eexists. reflexivity.
Qed.

Lemma bad_label_poisons_offset_witness :
  exists named',
    parse_line (array_of [of_Z 9], of_Z 0)
      (list_ascii_of_string "red 1 0 0 1")
    = (PlainArray (mkArray [Some (of_Z 9)] named'), NaN).
Proof.
  apply (bad_label_poisons_offset (mkArray [Some (of_Z 9)] []) (of_Z 0)
           (list_ascii_of_string "red 1 0 0 1")).
  left. split; [ vm_compute; lia | reflexivity ].
Defined.

(** X22.  The settings of a new color map: [scale] and [contrast] are
    never 0 or NaN (a requested falsy value is replaced by 1), [brightness]
    is never NaN, [clamp] is on unless it is switched off explicitly, and
    [flip] is off unless it is switched on.  The colors are undefined
    exactly when no text or the empty text is given; otherwise they are a
    new array, and every array of the store stays as it was. *)
Theorem createColorMap_settings
    (data : option string) (options : option create_options) (h : heap) :
  let s := createColorMap data options h in
  truthy (scale (cmap s)) = true
  /\ truthy (contrast (cmap s)) = true
  /\ brightness (cmap s) <> NaN
  /\ clamp (cmap s)
     = match options with
       | Some o => match cr_clamp o with Some b => b | None => true end
       | None => true
       end
  /\ flip (cmap s)
     = match options with
       | Some o => match cr_flip o with Some b => b | None => false end
       | None => false
       end
  /\ colors (cmap s)
     = match data with
       | Some (String _ _) => Some (List.length h)
       | _ => None
       end
  /\ forall l, (l < List.length h)%nat -> lookup (objects s) l = lookup h l.
Proof.
  assert (Hor : forall v d, truthy d = true -> truthy (or_default v d) = true).
  { intros [v |] d Hd; cbn; [ | exact Hd ].
    destruct (truthy v) eqn:Hv; [ exact Hv | exact Hd ]. }
  cbv zeta. unfold createColorMap.
  set (opts := match options with Some o => o | None => no_create_options end).
  assert (Hclamp : cr_clamp opts
                   = match options with Some o => cr_clamp o | None => None end)
    by (now destruct options).
  assert (Hflip : cr_flip opts
                  = match options with Some o => cr_flip o | None => None end)
    by (now destruct options).
  assert (Hbright : or_default (cr_brightness opts) (of_Z 0) <> NaN).
  { destruct (cr_brightness opts) as [v |]; cbn; [ | discriminate ].
    destruct v; cbn; try discriminate.
    destruct (negb _); discriminate. }
  destruct data as [[| c text] |]; cbn [alloc cmap objects scale contrast
    brightness clamp flip colors];
    (split; [ now apply Hor | ]); (split; [ now apply Hor | ]);
    (split; [ exact Hbright | ]);
    (split; [ rewrite Hclamp; now destruct options | ]);
    (split; [ rewrite Hflip; now destruct options | ]);
    (split; [ reflexivity | ]); intros l Hl; try reflexivity.
  unfold lookup. now rewrite app_nth1.
Qed.

(** ** createCanvas *)

Lemma starts_white_length (colors : obj) :
  starts_white colors = true -> (4 <= length colors)%nat.
Proof.
  unfold starts_white. intros H.
  apply andb_prop in H. destruct H as [_ H].
  destruct (cell colors 3) as [v |] eqn:Hcell; [ | discriminate ].
  destruct colors as [a | k data]; cbn [cell length] in *.
  - destruct (nth_error (elems a) 3) eqn:Hn; [ | discriminate ].
    assert (3 < List.length (elems a))%nat
      by (apply nth_error_Some; congruence). lia.
  - assert (3 < List.length data)%nat
      by (apply nth_error_Some; congruence). lia.
Qed.

Lemma length_slice_from (n : nat) (o : obj) :
  length (slice_from n o) = (length o - n)%nat.
Proof. destruct o; cbn; apply length_skipn. Qed.

Lemma cut_white_fuel (fuel : nat) :
  forall colors, (length colors <= fuel)%nat ->
  exists k,
    cut_white fuel colors = Nat.iter k (slice_from 4) colors
    /\ starts_white (cut_white fuel colors) = false
    /\ (forall j, (j < k)%nat ->
          starts_white (Nat.iter j (slice_from 4) colors) = true)
    /\ (4 * k <= length colors)%nat
    /\ length (cut_white fuel colors) = (length colors - 4 * k)%nat.
Proof.
  induction fuel as [| fuel IH]; intros colors Hlen.
  - exists 0%nat. cbn [cut_white Nat.iter nat_rect].
    split; [ reflexivity | ].
    split.
    + destruct (starts_white colors) eqn:Hw; [ | reflexivity ].
      apply starts_white_length in Hw. lia.
    + split; [ intros j Hj; lia | ]. split; lia.
  - cbn [cut_white]. destruct (starts_white colors) eqn:Hw.
    + pose proof (starts_white_length colors Hw) as H4.
      destruct (IH (slice_from 4 colors)) as (k & Hk & Hnot & Hbefore & Hle & Hl).
      { rewrite length_slice_from. lia. }
      rewrite length_slice_from in Hle, Hl.
      exists (S k). rewrite Nat.iter_succ_r.
      split; [ exact Hk | ]. split; [ exact Hnot | ].
      split; [ | split; lia ].
      intros [| j] Hj; [ exact Hw | ].
      rewrite Nat.iter_succ_r. apply Hbefore. lia.
    + exists 0%nat. cbn [Nat.iter nat_rect].
      split; [ reflexivity | ]. split; [ exact Hw | ].
      split; [ intros j Hj; lia | ]. split; lia.
Qed.

(** X23.  The loop of [createCanvas] that drops leading white entries ends
    within as many turns as the table has elements, and what it returns is
    the table after [k] times [slice(4)], where the first [k] entries are
    exactly the leading entries equal to (1, 1, 1, 1): each of them was
    white, and the returned table does not start with a white entry. *)
Theorem cut_white_drops_leading_white (colors : obj) :
  exists k,
    cut_white (length colors) colors = Nat.iter k (slice_from 4) colors
    /\ starts_white (cut_white (length colors) colors) = false
    /\ (forall j, (j < k)%nat ->
          starts_white (Nat.iter j (slice_from 4) colors) = true)
    /\ (4 * k <= length colors)%nat
    /\ length (cut_white (length colors) colors)
       = (length colors - 4 * k)%nat.
Proof. apply cut_white_fuel. apply Nat.le_refl. Qed.

Lemma mapColors_same_array (intensity_values : loc)
    (options : option map_options) (cb : filter) (s : store) :
  cb (option_map (lookup (objects s)) (colors (cmap s))) = SameArray ->
  mapColors intensity_values options (Some cb) s
  = mapColors intensity_values options None s.
Proof. intros H. unfold mapColors. now rewrite H. Qed.

Lemma mapColors_falsy (intensity_values : loc)
    (options : option map_options) (cb : filter) (s : store) :
  cb (option_map (lookup (objects s)) (colors (cmap s))) = Falsy ->
  fst (mapColors intensity_values options (Some cb) s) = None.
Proof.
  intros H. unfold mapColors. rewrite H.
  now destruct (match mo_destination _ with Some _ => _ | None => _ end).
Qed.

Lemma mapColors_cmap (intensity_values : loc)
    (options : option map_options) (cb : option filter) (s : store) :
  cmap (snd (mapColors intensity_values options cb s)) = cmap s.
Proof.
  unfold mapColors.
  destruct (match mo_destination _ with Some _ => _ | None => _ end)
    as [destination h].
  now destruct (match cb with Some _ => _ | None => _ end).
Qed.

Lemma mapColors_fresh_objects (intensity_values : loc)
    (cb : option filter) (s : store) (l : loc) :
  (l < List.length (objects s))%nat ->
  lookup (objects (snd (mapColors intensity_values None cb s))) l
  = lookup (objects s) l.
Proof.
  intros Hl. unfold mapColors. cbn [mo_destination no_map_options]. unfold alloc.
  destruct (match cb with Some _ => _ | None => _ end); cbn [snd objects].
  - now apply map_values_fresh_frame.
  - unfold lookup. now apply app_nth1.
Qed.

Lemma with_scale_back (c : ColorMap.color_map) (v : jsnum) :
  with_scale (with_scale c v) (scale c) = c.
Proof. now destruct c. Qed.

(** A call without options whose active color table is an array returns a
    new [Float32Array] of four entries per value. *)
Lemma mapColors_fresh_shape
    (intensity_values : loc) (cb : option filter) (s : store) :
  match cb with
  | Some cb =>
      cb (option_map (lookup (objects s)) (colors (cmap s))) <> Falsy
      /\ (cb (option_map (lookup (objects s)) (colors (cmap s))) = SameArray ->
          colors (cmap s) <> None)
  | None => colors (cmap s) <> None
  end ->
  fst (mapColors intensity_values None cb s) = Some (List.length (objects s))
  /\ exists data,
       lookup (objects (snd (mapColors intensity_values None cb s)))
         (List.length (objects s)) = TypedArray Float32 data
       /\ List.length data
          = (4 * length (lookup (objects s) intensity_values))%nat.
Proof.
  intros Hactive. unfold mapColors.
  cbn [mo_destination no_map_options]. unfold alloc.
  match goal with
  | |- context [match ?c with Some _ => _ | None => _ end] =>
      destruct c as [active |] eqn:Eactive
  end.
  - cbn [fst snd objects]. split; [ reflexivity | ].
    match goal with
    | |- context [new_typed Float32 (length ?c * 4)] => set (copy := c)
    end.
    replace (4 * length (lookup (objects s) intensity_values))%nat
      with (length copy * 4)%nat
      by (unfold copy; rewrite length_map_array; lia).
    apply map_values_shape.
    exists (repeat (of_Z 0) (length copy * 4)).
    split; [ apply lookup_alloc_new | apply repeat_length ].
  - exfalso. destruct cb as [cb |].
    + destruct Hactive as [Hfalsy Hsame].
      destruct (cb _) eqn:Ecb; try discriminate.
      * destruct (colors (cmap s)); [ discriminate | ]. now apply Hsame.
      * now apply Hfalsy.
    + destruct (colors (cmap s)); [ discriminate | now apply Hactive ].
Qed.

(** X24.  [createCanvas] on a color map that has colors, with or without
    [cutPrevColor] and [filterColors]: the colors of the legend come in a
    new [Float32Array] of 4 * 256 entries, every array that existed before
    is unchanged, and afterwards the color map is as it was, its own scale
    included. *)
Theorem createCanvas_restores_color_map
    (cutPrevColor : bool) (filterColors : option obj) (s : store) (cl : loc) :
  colors (cmap s) = Some cl ->
  let result := createCanvas_colors cutPrevColor filterColors s in
  let buffer := S (List.length (objects s)) in
  fst result = Some buffer
  /\ cmap (snd result) = cmap s
  /\ (exists data,
        lookup (objects (snd result)) buffer = TypedArray Float32 data
        /\ List.length data = 1024%nat)
  /\ forall l, (l < List.length (objects s))%nat ->
       lookup (objects (snd result)) l = lookup (objects s) l.
Proof.
  intros Hcl. cbv zeta. unfold createCanvas_colors, alloc.
  set (columns := array_of (List.map of_nat (List.seq 0 256))).
  set (s1 := mkStore (objects s ++ [columns]) (with_scale (cmap s) (of_Z 255))).
  assert (Hcl1 : colors (cmap s1) = Some cl) by exact Hcl.
  rewrite Hcl1.
  set (callback := fun colors : option obj =>
                     match colors with
                     | Some colors =>
                         legend_filter cutPrevColor filterColors colors
                     | None => Falsy
                     end).
  assert (Hsize : List.length (objects s1) = S (List.length (objects s))).
  { unfold s1. cbn [objects]. rewrite length_app. cbn [List.length]. lia. }
  assert (Hactive :
    callback (option_map (lookup (objects s1)) (colors (cmap s1))) <> Falsy
    /\ (callback (option_map (lookup (objects s1)) (colors (cmap s1)))
        = SameArray -> colors (cmap s1) <> None)).
  { rewrite Hcl1. cbn [option_map callback]. split; [ | discriminate ].
    unfold legend_filter.
    destruct (negb cutPrevColor); [ discriminate | ].
    destruct filterColors; [ discriminate | ].
    destruct (starts_white _); discriminate. }
  destruct (mapColors_fresh_shape (List.length (objects s)) (Some callback) s1
              Hactive) as (Hfst & data & Hbuffer & Hlength).
  pose proof (mapColors_cmap (List.length (objects s)) None (Some callback) s1)
    as Hcmap.
  pose proof (mapColors_fresh_objects (List.length (objects s)) (Some callback)
                s1) as Hframe.
  replace (match Some cl, cutPrevColor with
           | None, true => (None, s1)
           | _, _ =>
               let (colors, s0) :=
                 mapColors (List.length (objects s)) None (Some callback) s1 in
               (colors,
                mkStore (objects s0) (with_scale (cmap s0) (scale (cmap s))))
           end)
    with (let (colors, s0) :=
            mapColors (List.length (objects s)) None (Some callback) s1 in
          (colors,
           mkStore (objects s0) (with_scale (cmap s0) (scale (cmap s)))))
    by (now destruct cutPrevColor).
  revert Hfst Hbuffer Hcmap Hframe.
  destruct (mapColors (List.length (objects s)) None (Some callback) s1)
    as [r s2].
  cbn [fst snd objects cmap]. intros Hfst Hbuffer Hcmap Hframe.
  rewrite Hsize in Hfst, Hbuffer.
  split; [ exact Hfst | ].
  split; [ rewrite Hcmap; unfold s1; cbn [cmap]; apply with_scale_back | ].
  split.
  - exists data. split; [ exact Hbuffer | ].
    rewrite Hlength. unfold s1. cbn [objects]. rewrite lookup_alloc_new.
    reflexivity.
  - intros l Hl. rewrite Hframe by (rewrite Hsize; lia).
    unfold lookup, s1. cbn [objects]. now rewrite app_nth1.
Qed.

Lemma createCanvas_restores_color_map_witness :
  let s := createColorMap (Some four_colors) None [] in
  fst (createCanvas_colors true None s) = Some 2%nat
  /\ cmap (snd (createCanvas_colors true None s)) = cmap s.
Proof.
  intros s.
  destruct (createCanvas_restores_color_map true None s 0%nat eq_refl)
    as (Hbuffer & Hcmap & _).
  split; [ exact Hbuffer | exact Hcmap ].
Defined.

(** X25.  [createCanvas] on a color map without colors raises the
    TypeError (no buffer is returned).  Without [cutPrevColor] the map's
    scale is restored before the error; with [cutPrevColor] the error comes
    from the callback inside [mapColors] and the map is left with the scale
    255. *)
Theorem createCanvas_without_colors
    (cutPrevColor : bool) (filterColors : option obj) (s : store) :
  colors (cmap s) = None ->
  let result := createCanvas_colors cutPrevColor filterColors s in
  fst result = None
  /\ scale (cmap (snd result))
     = (if cutPrevColor then of_Z 255 else scale (cmap s))
  /\ clamp (cmap (snd result)) = clamp (cmap s)
  /\ flip (cmap (snd result)) = flip (cmap s)
  /\ contrast (cmap (snd result)) = contrast (cmap s)
  /\ brightness (cmap (snd result)) = brightness (cmap s).
Proof.
  intros Hnone. cbv zeta. unfold createCanvas_colors, alloc.
  cbn [cmap with_scale colors]. rewrite Hnone.
  destruct cutPrevColor; [ cbn; tauto | ].
  match goal with
  | |- context [mapColors ?iv None (Some ?cb) ?s1] =>
      assert (Hfst : fst (mapColors iv None (Some cb) s1) = None)
        by (apply mapColors_falsy; cbn [cmap with_scale colors objects];
            now rewrite Hnone);
      pose proof (mapColors_cmap iv None (Some cb) s1) as Hcmap;
      revert Hfst Hcmap;
      destruct (mapColors iv None (Some cb) s1) as [r s2]
  end.
  cbn [fst snd cmap objects]. intros Hfst Hcmap.
  split; [ exact Hfst | ].
  rewrite Hcmap. cbn. tauto.
Qed.

Lemma createCanvas_without_colors_witness :
  let s := createColorMap None None [] in
  fst (createCanvas_colors true None s) = None
  /\ scale (cmap s) = of_Z 1
  /\ scale (cmap (snd (createCanvas_colors true None s))) = of_Z 255.
Proof.
  intros s.
  destruct (createCanvas_without_colors true None s eq_refl)
    as (Hfst & Hscale & _).
  split; [ exact Hfst | ]. split; [ reflexivity | exact Hscale ].
Defined.

(** ** overlay_volume.slice *)

(** X26.  The slice number asked of an overlaid volume.  A volume whose
    step along the axis equals the first volume's (finite, not 0) is asked
    for the requested slice itself when that is an integer; and when the
    first volume's step is 0 while the volume's is not, every finite
    request becomes slice 0. *)
Theorem corrected_slice_num_steps (step : Q) (n : Z) (q : Q) :
  ~ (step == 0)%Q ->
  corrected_slice_num (Fin step) (Fin step) (of_Z n) = of_Z n
  /\ corrected_slice_num (Fin step) (of_Z 0) (Fin q) = of_Z 0.
Proof.
  intros Hstep. unfold corrected_slice_num. cbv zeta.
  assert (Hne : Qeqb step 0 = false).
  { destruct (Qeqb step 0) eqn:E; [ | reflexivity ].
    apply Qeqb_true in E. contradiction. }
  split.
  - unfold div at 2. rewrite Hne.
    assert (Hone : fin (step / step) = of_Z 1).
    { apply fin_of_Z. now field. }
    rewrite Hone. unfold of_Z, div.
    change (Qeqb (inject_Z 1) 0) with false. cbv iota.
    unfold round, add, floor, fin.
    assert (Heq : (Qred (Qred (inject_Z n / inject_Z 1) + (1 # 2))
                   == inject_Z n + (1 # 2))%Q).
    { rewrite !Qred_correct. field. }
    rewrite (Qfloor_comp _ _ Heq).
    assert (Hlow : n <= Qfloor (inject_Z n + (1 # 2))).
    { apply Qfloor_ge_int. lra. }
    assert (Hhigh : Qfloor (inject_Z n + (1 # 2)) < n + 1).
    { pose proof (Qfloor_le (inject_Z n + (1 # 2))) as Hle.
      rewrite Zlt_Qlt, inject_Z_plus. change (inject_Z 1) with 1%Q. lra. }
    unfold of_Z. do 2 f_equal. lia.
  - unfold div at 2. unfold of_Z at 1.
    change (Qeqb (inject_Z 0) 0) with true. cbv iota.
    unfold inf_times.
    destruct (Qcompare step 0) eqn:E.
    + apply Qeq_alt in E. contradiction.
    + reflexivity.
    + reflexivity.
Qed.

Lemma corrected_slice_num_steps_witness :
  corrected_slice_num (Fin (3 # 2)) (Fin (3 # 2)) (of_Z 17) = of_Z 17
  /\ corrected_slice_num (Fin (3 # 2)) (of_Z 0) (Fin (35 # 2)) = of_Z 0.
Proof.
  apply (corrected_slice_num_steps (3 # 2) 17 (35 # 2)). discriminate.
Defined.

(** ** The callback of createCanvas on a table without holes *)

Lemma flat_map_shift {A B C} (f : B -> list C) (g : A -> B) (l : list A) :
  flat_map f (List.map g l) = flat_map (fun x => f (g x)) l.
Proof. induction l as [| x l IH]; cbn; [ reflexivity | now rewrite IH ]. Qed.

Lemma flat_map_ext_seq {B} (f g : nat -> list B) (len : nat) :
  forall start,
  (forall x, (start <= x < start + len)%nat -> f x = g x) ->
  flat_map f (List.seq start len) = flat_map g (List.seq start len).
Proof.
  induction len as [| len IH]; intros start H; [ reflexivity | ].
  cbn [List.seq flat_map]. rewrite (H start) by lia. f_equal.
  apply IH. intros x Hx. apply H. lia.
Qed.

Section DenseTable.

(** A table without holes that holds whole entries, and the entry that
    [filterColors] names. *)
Let entry : Type := (jsnum * jsnum * jsnum * jsnum)%type.

Let quad (e : entry) : list jsnum :=
  let '(r, g, b, a) := e in [r; g; b; a].

Let table (entries : list entry) : obj := array_of (flat_map quad entries).

Variables (f0 f1 f2 f3 : jsnum).

Let matches (e : entry) : bool :=
  let '(r, g, b, a) := e in
  ((r === f0) && (g === f1) && (b === f2) && (a === f3))%js.

Let white (e : entry) : bool :=
  let '(r, g, b, a) := e in
  ((r === of_Z 1) && (g === of_Z 1) && (b === of_Z 1) && (a === of_Z 1))%js.

Let blank : entry := (NaN, NaN, NaN, NaN).

Lemma cell_array_of (l : list jsnum) (j : nat) :
  cell (array_of l) j = nth_error l j.
Proof.
  unfold cell, array_of. cbn [elems]. rewrite nth_error_map.
  now destruct (nth_error l j).
Qed.

Lemma length_table (entries : list entry) :
  length (table entries) = (4 * List.length entries)%nat.
Proof.
  unfold table, array_of. cbn [length elems]. rewrite length_map.
  induction entries as [| [[[r g] b] a] rest IH]; [ reflexivity | ].
  cbn [flat_map quad List.length app]. cbn [List.length] in *. lia.
Qed.

Lemma table_cell (entries : list entry) :
  forall m, (m < List.length entries)%nat ->
  let '(r, g, b, a) := nth m entries blank in
  cell (table entries) (4 * m) = Some r
  /\ cell (table entries) (4 * m + 1) = Some g
  /\ cell (table entries) (4 * m + 2) = Some b
  /\ cell (table entries) (4 * m + 3) = Some a.
Proof.
  unfold table.
  induction entries as [| [[[r g] b] a] rest IH]; intros m Hm;
    [ cbn in Hm; lia | ].
  destruct m as [| m].
  - cbn [nth]. rewrite !cell_array_of. repeat split.
  - cbn [nth List.length] in *. specialize (IH m ltac:(lia)).
    destruct (nth m rest blank) as [[[r' g'] b'] a'].
    rewrite !cell_array_of in *.
    replace (4 * S m)%nat with (4 + 4 * m)%nat by lia.
    cbn [flat_map quad app Nat.add nth_error] in *.
    exact IH.
Qed.

Lemma starts_white_table (e : entry) (rest : list entry) :
  starts_white (table (e :: rest)) = white e.
Proof.
  destruct e as [[[r g] b] a]. unfold starts_white, table.
  rewrite !cell_array_of. reflexivity.
Qed.

Lemma slice_table (e : entry) (rest : list entry) :
  slice_from 4 (table (e :: rest)) = table rest.
Proof. destruct e as [[[r g] b] a]. reflexivity. Qed.

Lemma cut_white_table (fuel : nat) :
  forall entries, (List.length entries <= fuel)%nat ->
  exists k,
    cut_white fuel (table entries) = table (skipn k entries)
    /\ (forall j, (j < k)%nat -> white (nth j entries blank) = true)
    /\ (k <= List.length entries)%nat
    /\ ((k < List.length entries)%nat -> white (nth k entries blank) = false).
Proof.
  induction fuel as [| fuel IH]; intros entries Hlen.
  - destruct entries; [ | cbn in Hlen; lia ].
    exists 0%nat. repeat split; cbn; try lia; intros; lia.
  - destruct entries as [| e rest].
    + exists 0%nat. repeat split; cbn; try lia; intros; lia.
    + cbn [cut_white]. rewrite starts_white_table.
      destruct (white e) eqn:Hw.
      * rewrite slice_table.
        destruct (IH rest ltac:(cbn in Hlen; lia)) as (k & Hk & Hall & Hle & Hnext).
        exists (S k). cbn [skipn nth List.length].
        split; [ exact Hk | ]. split; [ | split; [ lia | ] ].
        -- intros [| j] Hj; [ exact Hw | apply Hall; lia ].
        -- intros Hlt. apply Hnext. lia.
      * exists 0%nat. cbn [skipn nth].
        split; [ reflexivity | ]. split; [ intros j Hj; lia | ].
        split; [ lia | intros _; exact Hw ].
Qed.

Let filterColors : obj := array_of [f0; f1; f2; f3].

Let selected (entries : list entry) (index : nat) : bool :=
  has_index (table entries) index
  && (index mod 4 =? 0)%nat
  && (index + 3 <=? length (table entries))%nat
  && strict_eq (cell (table entries) index) (cell filterColors 0)
  && strict_eq (cell (table entries) (index + 1)) (cell filterColors 1)
  && strict_eq (cell (table entries) (index + 2)) (cell filterColors 2)
  && strict_eq (cell (table entries) (index + 3)) (cell filterColors 3).

Lemma selected_entry (entries : list entry) (m : nat) :
  (m < List.length entries)%nat ->
  selected entries (4 * m) = matches (nth m entries blank).
Proof.
  intros Hm. unfold selected, has_index.
  pose proof (table_cell entries m Hm) as Hcell.
  destruct (nth m entries blank) as [[[r g] b] a].
  destruct Hcell as (H0 & H1 & H2 & H3). rewrite H0, H1, H2, H3.
  rewrite length_table.
  replace (4 * m mod 4)%nat with 0%nat
    by (symmetry; rewrite Nat.mul_comm; apply Nat.Div0.mod_mul).
  replace (4 * m + 3 <=? 4 * List.length entries)%nat with true
    by (symmetry; apply Nat.leb_le; lia).
  reflexivity.
Qed.

Lemma filtered_index (entries : list entry) (j : nat) :
  (j < 4 * List.length entries)%nat ->
  existsb (Nat.eqb j) (filterIndexs (table entries) filterColors)
  = matches (nth (j / 4) entries blank).
Proof.
  intros Hj.
  assert (Hdiv : (j / 4 < List.length entries)%nat)
    by (apply Nat.Div0.div_lt_upper_bound; lia).
  pose proof (Nat.div_mod_eq j 4) as Hmod.
  pose proof (Nat.mod_upper_bound j 4 ltac:(lia)) as Hrem.
  rewrite <- (selected_entry entries (j / 4) Hdiv).
  unfold filterIndexs.
  destruct (selected entries (4 * (j / 4))) eqn:Hsel.
  - apply existsb_exists. exists j. split; [ | apply Nat.eqb_refl ].
    apply in_flat_map. exists (4 * (j / 4))%nat. split.
    + apply in_seq. rewrite length_table. lia.
    + change (In j (if selected entries (4 * (j / 4))
                    then [4 * (j / 4); 4 * (j / 4) + 1; 4 * (j / 4) + 2;
                          4 * (j / 4) + 3]%nat else [])).
      rewrite Hsel. cbn [In]. lia.
  - destruct (existsb _ _) eqn:Hex; [ | reflexivity ].
    apply existsb_exists in Hex. destruct Hex as (x & Hin & Hx).
    apply Nat.eqb_eq in Hx. subst x.
    apply in_flat_map in Hin. destruct Hin as (m & _ & Hin).
    change (In j (if selected entries m
                  then [m; m + 1; m + 2; m + 3]%nat else [])) in Hin.
    destruct (selected entries m) eqn:Hm; [ | contradiction ].
    assert (Hm4 : (m mod 4 = 0)%nat).
    { unfold selected in Hm. rewrite !andb_true_iff in Hm.
      destruct Hm as [[[[[[_ Hm] _] _] _] _] _]. now apply Nat.eqb_eq in Hm. }
    pose proof (Nat.div_mod_eq m 4) as Hmm.
    assert (m = 4 * (j / 4))%nat by (cbn [In] in Hin; lia).
    congruence.
Qed.

Lemma kept_cells (p : entry -> bool) (entries : list entry) :
  flat_map
    (fun index =>
       match nth_error (flat_map quad entries) index with
       | Some val => if p (nth (index / 4) entries blank) then [val] else []
       | None => []
       end)
    (List.seq 0 (4 * List.length entries))
  = flat_map quad (List.filter p entries).
Proof.
  induction entries as [| e rest IH]; [ reflexivity | ].
  replace (4 * List.length (e :: rest))%nat
    with (4 + 4 * List.length rest)%nat by (cbn [List.length]; lia).
  rewrite seq_app. rewrite flat_map_app. cbn [Nat.add].
  rewrite <- (seq_shift _ 3), <- (seq_shift _ 2), <- (seq_shift _ 1),
    <- (seq_shift _ 0).
  rewrite !map_map. rewrite flat_map_shift.
  match goal with
  | |- _ ++ ?shifted = _ =>
      assert (Hshifted : shifted = flat_map quad (List.filter p rest))
  end.
  { rewrite <- IH. apply flat_map_ext. intros index.
    replace (S (S (S (S index))) / 4)%nat with (S (index / 4))
      by (change (S (S (S (S index)))) with (1 * 4 + index)%nat;
          rewrite (Nat.div_add_l 1 4 index) by lia; reflexivity).
    destruct e as [[[r g] b] a]. reflexivity. }
  rewrite Hshifted. destruct e as [[[r g] b] a].
  cbn. destruct (p (r, g, b, a)); reflexivity.
Qed.

Lemma filter_out_table (entries : list entry) :
  filter_out (table entries) (filterIndexs (table entries) filterColors)
  = table (List.filter (fun e => negb (matches e)) entries).
Proof.
  unfold filter_out.
  match goal with
  | |- context [flat_map ?f (List.seq 0 ?n)] =>
      assert (Hkept : flat_map f (List.seq 0 n)
                      = flat_map quad
                          (List.filter (fun e => negb (matches e)) entries))
  end.
  { rewrite length_table.
    rewrite <- (kept_cells (fun e => negb (matches e)) entries).
    apply flat_map_ext_seq. intros index Hin.
    unfold table at 1. rewrite cell_array_of.
    destruct (nth_error _ index); [ | reflexivity ].
    now rewrite filtered_index by lia. }
  rewrite Hkept. reflexivity.
Qed.

Lemma legend_filter_table (entries : list entry) :
  exists k,
    (forall j, (j < k)%nat -> white (nth j entries blank) = true)
    /\ (k <= List.length entries)%nat
    /\ ((k < List.length entries)%nat -> white (nth k entries blank) = false)
    /\ legend_filter true (Some filterColors) (table entries)
       = NewArray (table (List.filter (fun e => negb (matches e))
                            (skipn k entries)))
    /\ legend_filter true None (table entries)
       = match k with
         | O => SameArray
         | S _ => NewArray (table (skipn k entries))
         end.
Proof.
  unfold legend_filter. cbn [negb].
  destruct (cut_white_table (length (table entries)) entries)
    as (k & Hcut & Hall & Hle & Hnext).
  { rewrite length_table. lia. }
  exists k. split; [ exact Hall | ]. split; [ exact Hle | ].
  split; [ exact Hnext | ]. rewrite Hcut. split.
  - now rewrite filter_out_table.
  - destruct entries as [| e rest].
    + destruct k; [ reflexivity | cbn in Hle; lia ].
    + rewrite starts_white_table. destruct k as [| k].
      * pose proof (Hnext ltac:(cbn; lia)) as Hw. cbn [nth] in Hw.
        now rewrite Hw.
      * pose proof (Hall 0%nat ltac:(lia)) as Hw. cbn [nth] in Hw.
        now rewrite Hw.
Qed.

End DenseTable.

(** X27.  The callback that [createCanvas] passes to [mapColors] when
    [cutPrevColor] is set, on a table without holes made of whole entries:
    it drops the leading entries equal to (1, 1, 1, 1) and no others
    ([k] of them: the first [k] entries are white and entry [k], if any, is
    not).  With [filterColors] it then removes every entry equal to
    [filterColors], wherever it stands, keeps all the others in order, and
    always answers with a new array; without [filterColors] it answers
    with the color map's own array when there was nothing to drop. *)
Theorem legend_callback_on_dense_table
    (f0 f1 f2 f3 : jsnum) (entries : list (jsnum * jsnum * jsnum * jsnum)) :
  let quad := fun '(r, g, b, a) => [r; g; b; a] in
  let table := fun entries => array_of (flat_map quad entries) in
  let matches :=
    fun '(r, g, b, a) =>
      ((r === f0) && (g === f1) && (b === f2) && (a === f3))%js in
  let white :=
    fun '(r, g, b, a) =>
      ((r === of_Z 1) && (g === of_Z 1) && (b === of_Z 1)
       && (a === of_Z 1))%js in
  let blank := (NaN, NaN, NaN, NaN) in
  exists k,
    (forall j, (j < k)%nat -> white (nth j entries blank) = true)
    /\ (k <= List.length entries)%nat
    /\ ((k < List.length entries)%nat -> white (nth k entries blank) = false)
    /\ legend_filter true (Some (array_of [f0; f1; f2; f3])) (table entries)
       = NewArray (table (List.filter (fun e => negb (matches e))
                            (skipn k entries)))
    /\ legend_filter true None (table entries)
       = match k with
         | O => SameArray
         | S _ => NewArray (table (skipn k entries))
         end.
Proof. cbv zeta. apply legend_filter_table. Qed.
